(** * changelog-gen: a shallow embedding of [cc_changelog_gen/app.py]

    The development follows the layout of the Python module:

    - [Py]      : the fragment of Python the program relies on (exceptions,
                  truthiness, [str] methods);
    - [Re]      : the fragment of the [re] module the program calls
                  ([re.match], [re.split], [re.sub]) over a backtracking
                  matcher for a stated subset of the pattern syntax;
    - [Semver]  : [semver.Version.parse], [is_valid] and the comparison;
    - the program itself, function by function, under the names of the source;
    - the properties of the program.

    Strings are sequences of 8-bit characters; the case mapping and the
    character classes are the ASCII ones. *)

From Stdlib Require Import Ascii String NArith.
From stdpp Require Import gmap strings list.

(* ===================================================================== *)
(** ** Python values, exceptions and [str] methods *)
(* ===================================================================== *)

Module Py.

(** The exceptions the program can raise.  [NotModelled] is not a Python
    exception: it marks pattern or template syntax that is valid (or not)
    for Python but lies outside the subset of [re] embedded below. *)
Inductive exn : Set :=
| ReError
| IndexError
| TypeError
| KeyError
| NotModelled.

Inductive result (A : Type) : Type :=
| Ok (a : A)
| Raise (e : exn).
Arguments Ok {A} a.
Arguments Raise {A} e.

Definition bind {A B} (m : result A) (f : A -> result B) : result B :=
  match m with
  | Ok a => f a
  | Raise e => Raise e
  end.

Definition is_ok {A} (m : result A) : bool :=
  match m with Ok _ => true | Raise _ => false end.

(** Truthiness of a [str]: the empty string is falsy. *)
Definition truthy (s : string) : bool :=
  match s with EmptyString => false | String _ _ => true end.

(** Truthiness of an [Optional[str]]: [None] and [""] are falsy. *)
Definition truthy_opt (o : option string) : bool :=
  match o with None => false | Some s => truthy s end.

Definition code (c : ascii) : nat := nat_of_ascii c.

Definition in_range (lo hi : nat) (c : ascii) : bool :=
  (lo <=? code c)%nat && (code c <=? hi)%nat.

Definition is_upper (c : ascii) : bool := in_range 65 90 c.
Definition is_lower (c : ascii) : bool := in_range 97 122 c.
Definition is_digit (c : ascii) : bool := in_range 48 57 c.
Definition is_alpha (c : ascii) : bool := is_upper c || is_lower c.

(** [\s]: space, [\t\n\v\f\r] and the separators 0x1c..0x1f.  These
    are the ASCII characters of the class; on a [str] Python's [\s] also
    matches the other spaces of Unicode (U+0085, U+00A0, ...), which this
    class leaves out. *)
Definition is_space (c : ascii) : bool :=
  (code c =? 32)%nat || in_range 9 13 c || in_range 28 31 c.

(** [\w]: letters, digits and the underscore.  These are the ASCII
    characters of the class; on a [str] Python's [\w] also matches the
    letters and digits of the other scripts, which this class leaves out. *)
Definition is_word (c : ascii) : bool :=
  is_alpha c || is_digit c || (code c =? 95)%nat.

Definition upper_char (c : ascii) : ascii :=
  if is_lower c then ascii_of_nat (code c - 32) else c.

Definition lower_char (c : ascii) : ascii :=
  if is_upper c then ascii_of_nat (code c + 32) else c.

Fixpoint lower (s : string) : string :=
  match s with
  | EmptyString => EmptyString
  | String c r => String (lower_char c) (lower r)
  end.

(** [str.capitalize()]: "Return a copy of the string with its first
    character capitalized and the rest lowercased."  The case mapping is
    the ASCII one: this is [str.capitalize] on ASCII text, and leaves the
    other characters as they are where Python maps the cased letters of
    every script. *)
Definition capitalize (s : string) : string :=
  match s with
  | EmptyString => EmptyString
  | String c r => String (upper_char c) (lower r)
  end.

(** The line feed, which a Rocq string literal cannot spell. *)
Definition LF : ascii := ascii_of_nat 10.
Definition nl : string := String LF EmptyString.

(** [s.split(sep)] for a one-character separator: never the empty list. *)
Fixpoint split_char (sep : ascii) (s : string) : list string :=
  match s with
  | EmptyString => [EmptyString]
  | String c r =>
      if Ascii.eqb c sep then EmptyString :: split_char sep r
      else match split_char sep r with
           | [] => [String c EmptyString]
           | p :: ps => String c p :: ps
           end
  end.

(** [sep.join(parts)]. *)
Fixpoint join (sep : string) (parts : list string) : string :=
  match parts with
  | [] => EmptyString
  | [p] => p
  | p :: ps => p +:+ sep +:+ join sep ps
  end.

(** [s.startswith(p)]. *)
Fixpoint startswith (p s : string) : bool :=
  match p, s with
  | EmptyString, _ => true
  | String a p', String b s' => Ascii.eqb a b && startswith p' s'
  | String _ _, EmptyString => false
  end.

(** [s[:n]] and [s[n:]]. *)
Fixpoint take_str (n : nat) (s : string) : string :=
  match n, s with
  | S n', String c r => String c (take_str n' r)
  | _, _ => EmptyString
  end.

Fixpoint drop_str (n : nat) (s : string) : string :=
  match n, s with
  | S n', String _ r => drop_str n' r
  | _, _ => s
  end.

End Py.

Export Py.

#[global] Instance result_ret : MRet result := fun _ a => Ok a.
#[global] Instance result_bind : MBind result := fun _ _ f m => bind m f.
#[global] Instance result_fmap : FMap result :=
  fun _ _ f m => match m with Ok a => Ok (f a) | Raise e => Raise e end.


(* ===================================================================== *)
(** ** The [re] module *)
(* ===================================================================== *)

(** Patterns reach [re] as strings (the program builds them with
    [rf"^{pc}"]), so the embedding has a parser from pattern text to syntax
    trees and a backtracking matcher with capture groups.

    Modelled syntax: literal characters, [.], the classes [\d \D \s \S \w \W],
    escaped punctuation and [\n \t \r \f \v \a], the anchors [^] and [$]
    (no flags, so [^] is the start of the string and [$] the end or the
    position before a final line feed), bracket sets with ranges and
    negation, capturing groups, [(?:...)], alternation, and the quantifiers
    [* + ?] with their lazy forms.  Anything else ([{m,n}], look-around,
    named groups, back-references, [\b] ...) yields [Raise NotModelled]. *)

Module Re.

Inductive cls : Set := CDigit | CSpace | CWord.

Inductive citem : Set :=
| IChar (c : ascii)
| IRange (lo hi : ascii)
| ICls (neg : bool) (k : cls).

Inductive regex : Set :=
| Eps
| Chr (c : ascii)
| Any
| Cls (neg : bool) (k : cls)
| Set_ (neg : bool) (items : list citem)
| Bol
| Eol
| Seq (r1 r2 : regex)
| Alt (r1 r2 : regex)
| Star (greedy : bool) (r : regex)
| Plus (greedy : bool) (r : regex)
| Opt (greedy : bool) (r : regex)
| Group (n : nat) (r : regex).

(** *** Parsing pattern text *)

Definition ch (n : nat) : ascii := ascii_of_nat n.

Definition cls_of_escape (c : ascii) : option (bool * cls) :=
  if Ascii.eqb c "d" then Some (false, CDigit)
  else if Ascii.eqb c "D" then Some (true, CDigit)
  else if Ascii.eqb c "s" then Some (false, CSpace)
  else if Ascii.eqb c "S" then Some (true, CSpace)
  else if Ascii.eqb c "w" then Some (false, CWord)
  else if Ascii.eqb c "W" then Some (true, CWord)
  else None.

(** The character an escape [\c] stands for, when it stands for one. *)
Definition char_of_escape (c : ascii) : result ascii :=
  if Ascii.eqb c "n" then Ok (ch 10)
  else if Ascii.eqb c "t" then Ok (ch 9)
  else if Ascii.eqb c "r" then Ok (ch 13)
  else if Ascii.eqb c "f" then Ok (ch 12)
  else if Ascii.eqb c "v" then Ok (ch 11)
  else if Ascii.eqb c "a" then Ok (ch 7)
  else if is_alpha c || is_digit c then Raise NotModelled
  else Ok c.

(** One member of a bracket set, without the range that may follow it. *)
Definition p_set_atom (s : string) : result (citem * string) :=
  match s with
  | EmptyString => Raise ReError
  | String c r =>
      if Ascii.eqb c "\" then
        match r with
        | EmptyString => Raise ReError
        | String e r' =>
            match cls_of_escape e with
            | Some (neg, k) => Ok (ICls neg k, r')
            | None => x ← char_of_escape e; Ok (IChar x, r')
            end
        end
      else Ok (IChar c, r)
  end.

(** The members of a bracket set up to the closing bracket.  [first] is
    true at the first member, where a closing bracket is a literal. *)
Fixpoint p_set_items (fuel : nat) (first : bool) (s : string)
  : result (list citem * string) :=
  match fuel with
  | O => Raise ReError
  | S f =>
      match s with
      | EmptyString => Raise ReError
      | String c r =>
          if Ascii.eqb c "]" && negb first then Ok ([], r)
          else
            '(lo, s1) ← p_set_atom s;
            match s1 with
            | String d (String e r2 as s2) =>
                if Ascii.eqb d "-" && negb (Ascii.eqb e "]") then
                  '(hi, s3) ← p_set_atom s2;
                  match lo, hi with
                  | IChar a, IChar b =>
                      if (code a <=? code b)%nat then
                        '(items, s4) ← p_set_items f false s3;
                        Ok (IRange a b :: items, s4)
                      else Raise ReError
                  | _, _ => Raise ReError
                  end
                else
                  '(items, s4) ← p_set_items f false s1;
                  Ok (lo :: items, s4)
            | _ =>
                '(items, s4) ← p_set_items f false s1;
                Ok (lo :: items, s4)
            end
      end
  end.

Definition p_set (s : string) : result (regex * string) :=
  match s with
  | String c r =>
      if Ascii.eqb c "^" then
        '(items, s') ← p_set_items (S (String.length r)) true r;
        Ok (Set_ true items, s')
      else
        '(items, s') ← p_set_items (S (String.length s)) true s;
        Ok (Set_ false items, s')
  | EmptyString => Raise ReError
  end.

Definition is_quant (c : ascii) : bool :=
  Ascii.eqb c "*" || Ascii.eqb c "+" || Ascii.eqb c "?".

(** A quantifier cannot follow the anchors [^] and [$] ("nothing to
    repeat"); it can follow a group that holds one. *)
Definition repeatable (atom_text : string) : bool :=
  match atom_text with
  | String c _ => negb (Ascii.eqb c "^" || Ascii.eqb c "$")
  | EmptyString => false
  end.

Definition quantify (q : ascii) (greedy : bool) (r : regex) : regex :=
  if Ascii.eqb q "*" then Star greedy r
  else if Ascii.eqb q "+" then Plus greedy r
  else Opt greedy r.

(** The quantifier, if any, that follows an atom. *)
Definition p_quant (can_repeat : bool) (a : regex) (s : string)
  : result (regex * string) :=
  match s with
  | String q r =>
      if is_quant q then
        if can_repeat then
          match r with
          | String l r' =>
              if Ascii.eqb l "?" then
                match r' with
                | String x _ =>
                    if is_quant x then Raise ReError
                    else if Ascii.eqb x "{" then Raise NotModelled
                    else Ok (quantify q false a, r')
                | EmptyString => Ok (quantify q false a, r')
                end
              else if Ascii.eqb l "+" then Raise NotModelled
              else if Ascii.eqb l "*" then Raise ReError
              else if Ascii.eqb l "{" then Raise NotModelled
              else Ok (quantify q true a, r)
          | EmptyString => Ok (quantify q true a, r)
          end
        else Raise ReError
      else if Ascii.eqb q "{" then Raise NotModelled
      else Ok (a, s)
  | EmptyString => Ok (a, s)
  end.

(** Alternation, sequence and atom; [ng] counts the capturing groups opened
    so far, so that groups are numbered by their opening parenthesis. *)
Fixpoint p_alt (fuel : nat) (s : string) (ng : nat)
  : result (regex * string * nat) :=
  match fuel with
  | O => Raise NotModelled
  | S f =>
      '(r1, s1, ng1) ← p_seq f s ng;
      match s1 with
      | String c s2 =>
          if Ascii.eqb c "|" then
            '(r2, s3, ng2) ← p_alt f s2 ng1;
            Ok (Alt r1 r2, s3, ng2)
          else Ok (r1, s1, ng1)
      | EmptyString => Ok (r1, s1, ng1)
      end
  end
with p_seq (fuel : nat) (s : string) (ng : nat)
  : result (regex * string * nat) :=
  match fuel with
  | O => Raise NotModelled
  | S f =>
      match s with
      | EmptyString => Ok (Eps, s, ng)
      | String c _ =>
          if Ascii.eqb c ")" || Ascii.eqb c "|" then Ok (Eps, s, ng)
          else
            '(a, s1, ng1) ← p_atom f s ng;
            '(q, s2) ← p_quant (repeatable s) a s1;
            '(r, s3, ng2) ← p_seq f s2 ng1;
            Ok (match r with Eps => q | _ => Seq q r end, s3, ng2)
      end
  end
with p_atom (fuel : nat) (s : string) (ng : nat)
  : result (regex * string * nat) :=
  match fuel with
  | O => Raise NotModelled
  | S f =>
      match s with
      | EmptyString => Raise ReError
      | String c r =>
          if Ascii.eqb c "(" then
            match r with
            | String q r1 =>
                if Ascii.eqb q "?" then
                  match r1 with
                  | String k r2 =>
                      if Ascii.eqb k ":" then
                        '(body, s1, ng1) ← p_alt f r2 ng;
                        match s1 with
                        | String e s2 =>
                            if Ascii.eqb e ")" then Ok (body, s2, ng1)
                            else Raise ReError
                        | EmptyString => Raise ReError
                        end
                      else Raise NotModelled
                  | EmptyString => Raise ReError
                  end
                else
                  '(body, s1, ng1) ← p_alt f r (S ng);
                  match s1 with
                  | String e s2 =>
                      if Ascii.eqb e ")" then Ok (Group ng body, s2, ng1)
                      else Raise ReError
                  | EmptyString => Raise ReError
                  end
            | EmptyString => Raise ReError
            end
          else if Ascii.eqb c "[" then
            '(set, s1) ← p_set r; Ok (set, s1, ng)
          else if Ascii.eqb c "." then Ok (Any, r, ng)
          else if Ascii.eqb c "^" then Ok (Bol, r, ng)
          else if Ascii.eqb c "$" then Ok (Eol, r, ng)
          else if is_quant c then Raise ReError
          else if Ascii.eqb c "{" then Raise NotModelled
          else if Ascii.eqb c "\" then
            match r with
            | EmptyString => Raise ReError
            | String e r' =>
                match cls_of_escape e with
                | Some (neg, k) => Ok (Cls neg k, r', ng)
                | None => x ← char_of_escape e; Ok (Chr x, r', ng)
                end
            end
          else Ok (Chr c, r, ng)
      end
  end.

(** A compiled pattern: its syntax tree and its number of groups
    ([Pattern.groups]). *)
Record pattern : Set := { p_re : regex; p_groups : nat }.

(** [re.compile(pat)]. *)
Definition compile (pat : string) : result pattern :=
  '(r, rest, ng) ← p_alt (3 * String.length pat + 3) pat 0;
  match rest with
  | EmptyString => Ok {| p_re := r; p_groups := ng |}
  | String _ _ => Raise ReError
  end.

(** *** Matching *)

(** The captures of a match in progress, one slot per group; [None] is a
    group that did not take part in the match. *)
Definition caps := list (option string).

(** Where a match attempt ends: the end position, the text that follows,
    and the captures. *)
Definition outcome : Type := nat * string * caps.

(** Continuations take the rest of the subject, its position in the
    subject and the captures so far. *)
Definition cont : Type := string -> nat -> caps -> option outcome.

Definition matcher : Type := string -> nat -> caps -> cont -> option outcome.

Definition orelse {A} (a b : option A) : option A :=
  match a with Some _ => a | None => b end.

Definition cls_match (k : cls) (c : ascii) : bool :=
  match k with
  | CDigit => is_digit c
  | CSpace => is_space c
  | CWord => is_word c
  end.

Definition citem_match (i : citem) (c : ascii) : bool :=
  match i with
  | IChar x => Ascii.eqb x c
  | IRange lo hi => in_range (code lo) (code hi) c
  | ICls neg k => xorb neg (cls_match k c)
  end.

(** A one-character test applied at the head of the subject. *)
Definition one_char (test : ascii -> bool) : matcher :=
  fun s pos c k =>
    match s with
    | String x s' => if test x then k s' (S pos) c else None
    | EmptyString => None
    end.

(** Repetition of [body].  An iteration that consumed nothing ends the
    loop and goes on with the tail, as the engine of CPython does; every
    other iteration shortens the subject, which bounds the loop by [fuel]. *)
Fixpoint star_loop (body : matcher) (greedy : bool) (fuel : nat) : matcher :=
  fun s pos c k =>
    match fuel with
    | O => k s pos c
    | S f =>
        let again :=
          body s pos c (fun s' pos' c' =>
            if (pos' =? pos)%nat then k s' pos' c'
            else star_loop body greedy f s' pos' c' k) in
        if greedy then orelse again (k s pos c)
        else orelse (k s pos c) again
    end.

Fixpoint rmatch (r : regex) : matcher :=
  fun s pos c k =>
    match r with
    | Eps => k s pos c
    | Chr x => one_char (Ascii.eqb x) s pos c k
    | Any => one_char (fun y => negb (Ascii.eqb y LF)) s pos c k
    | Cls neg cl => one_char (fun y => xorb neg (cls_match cl y)) s pos c k
    | Set_ neg items =>
        one_char (fun y => xorb neg (existsb (fun i => citem_match i y) items))
                 s pos c k
    | Bol => if (pos =? 0)%nat then k s pos c else None
    | Eol =>
        match s with
        | EmptyString => k s pos c
        | String x EmptyString => if Ascii.eqb x LF then k s pos c else None
        | String _ (String _ _) => None
        end
    | Seq r1 r2 => rmatch r1 s pos c (fun s' pos' c' => rmatch r2 s' pos' c' k)
    | Alt r1 r2 => orelse (rmatch r1 s pos c k) (rmatch r2 s pos c k)
    | Star greedy r1 =>
        star_loop (rmatch r1) greedy (S (String.length s)) s pos c k
    | Plus greedy r1 =>
        rmatch r1 s pos c (fun s' pos' c' =>
          star_loop (rmatch r1) greedy (S (String.length s')) s' pos' c' k)
    | Opt greedy r1 =>
        if greedy then orelse (rmatch r1 s pos c k) (k s pos c)
        else orelse (k s pos c) (rmatch r1 s pos c k)
    | Group n r1 =>
        rmatch r1 s pos c (fun s' pos' c' =>
          k s' pos' (<[n := Some (take_str (pos' - pos) s)]> c'))
    end.

(** A match object: where the match starts and ends, the text after it,
    and [Match.groups()]. *)
Record Match : Set := {
  m_start : nat;
  m_end : nat;
  m_rest : string;
  m_groups : list (option string)
}.

(** One attempt at [pos], where [s] is the subject from [pos] on.  With
    [must_advance] an empty match is refused. *)
Definition match_at (p : pattern) (s : string) (pos : nat)
                    (must_advance : bool) : option Match :=
  match
    rmatch (p_re p) s pos (replicate (p_groups p) None)
      (fun s' pos' c' =>
         if must_advance && (pos' =? pos)%nat then None
         else Some (pos', s', c'))
  with
  | Some (e, rest, c) =>
      Some {| m_start := pos; m_end := e; m_rest := rest; m_groups := c |}
  | None => None
  end.

(** The leftmost match at or after [pos], with the text skipped before it.
    [must_advance] only binds the attempt at [pos] itself. *)
Fixpoint search_from (p : pattern) (s : string) (pos : nat)
                     (must_advance : bool) : option (string * Match) :=
  match match_at p s pos must_advance with
  | Some m => Some (EmptyString, m)
  | None =>
      match s with
      | EmptyString => None
      | String x s' =>
          match search_from p s' (S pos) false with
          | Some (skipped, m) => Some (String x skipped, m)
          | None => None
          end
      end
  end.

(** [re.match(pat, s)]: a match at the start of [s], or [None]. *)
Definition re_match (pat s : string) : result (option Match) :=
  p ← compile pat; Ok (match_at p s 0 false).

(** [m.group(n)] for [n >= 1]: [IndexError] when the pattern has no such
    group, [None] when the group did not take part. *)
Definition group (m : Match) (n : nat) : result (option string) :=
  match n with
  | O => Raise NotModelled
  | S i =>
      match m_groups m !! i with
      | Some g => Ok g
      | None => Raise IndexError
      end
  end.

(** [re.split(pat, s)]: the pieces between the matches, each match
    contributing the text of its groups ([None] for a group that did not
    take part).  After an empty match the next one must advance, so a
    subject of length [n] has at most [2 * n + 1] matches: [n] that are not
    empty and one empty match at each of its [n + 1] positions. *)
Fixpoint split_loop (fuel : nat) (p : pattern) (s : string) (pos : nat)
                    (must_advance : bool) : list (option string) :=
  match fuel with
  | O => [Some s]
  | S f =>
      match search_from p s pos must_advance with
      | None => [Some s]
      | Some (skipped, m) =>
          Some skipped :: m_groups m ++
          split_loop f p (m_rest m) (m_end m) (m_end m =? m_start m)%nat
      end
  end.

Definition re_split (pat s : string) : result (list (option string)) :=
  p ← compile pat; Ok (split_loop (2 * String.length s + 2) p s 0 false).

(** Replacement templates: literal text and group references. *)
Inductive tpl_item : Set :=
| TLit (c : ascii)
| TGroup (i : nat).

Definition digit_val (c : ascii) : nat := code c - 48.

Fixpoint compile_template (repl : string) (ngroups : nat)
  : result (list tpl_item) :=
  match repl with
  | EmptyString => Ok []
  | String c r =>
      if Ascii.eqb c "\" then
        match r with
        | EmptyString => Raise ReError
        | String e r' =>
            if Ascii.eqb e "\" then
              items ← compile_template r' ngroups; Ok (TLit e :: items)
            else if is_digit e then
              match r' with
              | String d _ =>
                  if is_digit d then Raise NotModelled
                  else if (digit_val e =? 0)%nat then Raise NotModelled
                  else if (digit_val e <=? ngroups)%nat then
                    items ← compile_template r' ngroups;
                    Ok (TGroup (digit_val e - 1) :: items)
                  else Raise ReError
              | EmptyString =>
                  if (digit_val e =? 0)%nat then Raise NotModelled
                  else if (digit_val e <=? ngroups)%nat then
                    Ok [TGroup (digit_val e - 1)]
                  else Raise ReError
              end
            else if Ascii.eqb e "g" || Ascii.eqb e "b" then Raise NotModelled
            else if is_alpha e then
              x ← char_of_escape e;
              items ← compile_template r' ngroups; Ok (TLit x :: items)
            else
              items ← compile_template r' ngroups;
              Ok (TLit c :: TLit e :: items)
        end
      else
        items ← compile_template r ngroups; Ok (TLit c :: items)
  end.

Fixpoint expand (t : list tpl_item) (groups : list (option string)) : string :=
  match t with
  | [] => EmptyString
  | TLit c :: t' => String c (expand t' groups)
  | TGroup i :: t' =>
      match groups !! i with
      | Some (Some g) => g +:+ expand t' groups
      | _ => expand t' groups
      end
  end.

(** [re.sub(pat, repl, s)]: every non-overlapping match replaced. *)
Fixpoint sub_loop (fuel : nat) (p : pattern) (t : list tpl_item) (s : string)
                  (pos : nat) (must_advance : bool) : string :=
  match fuel with
  | O => s
  | S f =>
      match search_from p s pos must_advance with
      | None => s
      | Some (skipped, m) =>
          skipped +:+ expand t (m_groups m) +:+
          sub_loop f p t (m_rest m) (m_end m) (m_end m =? m_start m)%nat
      end
  end.

Definition re_sub (pat repl s : string) : result string :=
  p ← compile pat;
  t ← compile_template repl (p_groups p);
  Ok (sub_loop (2 * String.length s + 2) p t s 0 false).

End Re.

(* ===================================================================== *)
(** ** The [semver] package *)
(* ===================================================================== *)

(** [semver.Version]: the parser of [MAJOR.MINOR.PATCH[-PRERELEASE][+BUILD]]
    and the precedence order.  The pre-release is kept as its list of
    dot-separated identifiers, numeric ones as numbers; the package keeps
    the text, splits it at each comparison and, when one list of
    identifiers is a prefix of the other, compares the lengths of the two
    texts, which on identifiers without leading zeros, the only ones [parse]
    admits, is the comparison of the numbers of identifiers.  Subjects are
    taken without a final line feed, which the [$] of the package's pattern
    would let pass. *)

Module Semver.

Inductive ident : Set :=
| INum (n : N)
| IAlnum (s : string).

Record Version : Set := {
  major : N;
  minor : N;
  patch : N;
  prerelease : option (list ident);
  build : option string
}.

(** The text before the first [sep], and the text after it if there is one. *)
Fixpoint split_first (sep : ascii) (s : string) : string * option string :=
  match s with
  | EmptyString => (EmptyString, None)
  | String c r =>
      if Ascii.eqb c sep then (EmptyString, Some r)
      else let '(a, b) := split_first sep r in (String c a, b)
  end.

Fixpoint all_str (test : ascii -> bool) (s : string) : bool :=
  match s with
  | EmptyString => true
  | String c r => test c && all_str test r
  end.

(** [0|[1-9]\d*] *)
Definition numeric (x : string) : bool :=
  match x with
  | EmptyString => false
  | String c r =>
      all_str is_digit x &&
      (negb (Ascii.eqb c "0") || negb (truthy r))
  end.

(** [[0-9a-zA-Z-]] *)
Definition ident_char (c : ascii) : bool :=
  is_digit c || is_alpha c || Ascii.eqb c "-".

(** [0|[1-9]\d*|\d*[a-zA-Z-][0-9a-zA-Z-]*] *)
Definition pre_ident_ok (x : string) : bool :=
  truthy x && all_str ident_char x &&
  (if all_str is_digit x then numeric x else true).

(** [[0-9a-zA-Z-]+] *)
Definition build_ident_ok (x : string) : bool :=
  truthy x && all_str ident_char x.

(** [int(x)] on a string of digits.  CPython refuses to convert more
    than 4300 digits (its default limit, [ValueError]); this function is
    [int] up to that length and has no limit of its own, so the
    comparison below stands for the package's on versions whose numeric
    identifiers stay within the limit. *)
Fixpoint int_of (acc : N) (x : string) : N :=
  match x with
  | EmptyString => acc
  | String c r => int_of (10 * acc + N.of_nat (Re.digit_val c)) r
  end.

Definition convert (x : string) : ident :=
  if truthy x && all_str is_digit x then INum (int_of 0 x) else IAlnum x.

Definition opt_ok (test : string -> bool) (o : option string) : bool :=
  match o with
  | None => true
  | Some x => forallb test (split_char "." x)
  end.

(** [Version.parse(s)], with [None] for the [ValueError]. *)
Definition parse (s : string) : option Version :=
  let '(s1, bld) := split_first "+" s in
  let '(core, pre) := split_first "-" s1 in
  match split_char "." core with
  | [a; b; c] =>
      if numeric a && numeric b && numeric c &&
         opt_ok pre_ident_ok pre && opt_ok build_ident_ok bld
      then Some {| major := int_of 0 a;
                   minor := int_of 0 b;
                   patch := int_of 0 c;
                   prerelease := (fun x => map convert (split_char "." x)) <$> pre;
                   build := bld |}
      else None
  | _ => None
  end.

(** [Version.is_valid(s)] *)
Definition is_valid (s : string) : bool :=
  match parse s with Some _ => true | None => false end.

(** Lexicographic combination of two comparisons. *)
Definition lex (c1 c2 : comparison) : comparison :=
  match c1 with Eq => c2 | _ => c1 end.

(** Numeric identifiers compare as numbers and sort before the others,
    which compare as text. *)
Definition cmp_ident (a b : ident) : comparison :=
  match a, b with
  | INum x, INum y => N.compare x y
  | INum _, IAlnum _ => Lt
  | IAlnum _, INum _ => Gt
  | IAlnum x, IAlnum y => String.compare x y
  end.

(** Identifier by identifier; when one list is a prefix of the other the
    longer one is the greater. *)
Fixpoint cmp_idents (a b : list ident) : comparison :=
  match a, b with
  | [], [] => Eq
  | [], _ :: _ => Lt
  | _ :: _, [] => Gt
  | x :: a', y :: b' => lex (cmp_ident x y) (cmp_idents a' b')
  end.

(** A version without pre-release is greater than the same version with
    one. *)
Definition cmp_pre (a b : option (list ident)) : comparison :=
  match a, b with
  | None, None => Eq
  | None, Some _ => Gt
  | Some _, None => Lt
  | Some x, Some y => cmp_idents x y
  end.

(** [Version.compare]: build metadata takes no part. *)
Definition compare (v w : Version) : comparison :=
  lex (N.compare (major v) (major w))
    (lex (N.compare (minor v) (minor w))
       (lex (N.compare (patch v) (patch w))
          (cmp_pre (prerelease v) (prerelease w)))).

(** [v < w] and [v > w] *)
Definition lt (v w : Version) : bool :=
  match compare v w with Lt => true | _ => false end.

Definition gt (v w : Version) : bool :=
  match compare v w with Gt => true | _ => false end.

End Semver.

(* ===================================================================== *)
(** ** The program: [cc_changelog_gen/app.py] *)
(* ===================================================================== *)

(** *** Objects and references *)

(** [MarkdownContent] holds references to a [dict] and two [list] objects,
    and the buckets of the [dict] are [list] objects again; the program
    mutates them in place.  The store maps locations to objects.  The
    program tests keys of the [dict] and reads and sets its items, and never
    iterates over it, so a finite map without an order stands for it. *)

Abbreviation loc := nat (only parsing).

Inductive obj : Type :=
| ODict (d : gmap string loc)
| OList (l : list string).

Abbreviation heap := (list obj) (only parsing).

(** Computations over the store that may raise. *)
Definition M (A : Type) : Type := heap -> result (A * heap).

#[global] Instance M_ret : MRet M := fun _ a h => Ok (a, h).
#[global] Instance M_bind : MBind M :=
  fun _ _ f m h => match m h with
                   | Ok (a, h') => f a h'
                   | Raise e => Raise e
                   end.

Definition lift {A} (r : result A) : M A :=
  fun h => match r with Ok a => Ok (a, h) | Raise e => Raise e end.

Definition alloc (o : obj) : M loc :=
  fun h => Ok (length h, h ++ [o]).

Definition read_dict (l : loc) : M (gmap string loc) :=
  fun h => match h !! l with
           | Some (ODict d) => Ok (d, h)
           | Some (OList _) => Raise TypeError
           | None => Raise NotModelled
           end.

Definition read_list (l : loc) : M (list string) :=
  fun h => match h !! l with
           | Some (OList xs) => Ok (xs, h)
           | Some (ODict _) => Raise TypeError
           | None => Raise NotModelled
           end.

(** [d[k] = v] on the dict object at [l]. *)
Definition dict_setitem (l : loc) (k : string) (v : loc) : M unit :=
  fun h => match h !! l with
           | Some (ODict d) => Ok (tt, <[l := ODict (<[k := v]> d)]> h)
           | Some (OList _) => Raise TypeError
           | None => Raise NotModelled
           end.

(** [xs.append(x)] on the list object at [l]. *)
Definition list_append (l : loc) (x : string) : M unit :=
  fun h => match h !! l with
           | Some (OList xs) => Ok (tt, <[l := OList (xs ++ [x])]> h)
           | Some (ODict _) => Raise TypeError
           | None => Raise NotModelled
           end.

(** *** Colours and diagnostics *)

Definition ESC : string := String (ascii_of_nat 27) EmptyString.

Inductive Color : Set := WARNING | ENDC.

Definition Color_value (c : Color) : string :=
  match c with
  | WARNING => ESC +:+ "[93m"
  | ENDC => ESC +:+ "[0m"
  end.

(** [print_color(color, text, file=...)]: the line handed to [print]. *)
Definition print_color (color : Color) (text : string) : string :=
  Color_value color +:+ text +:+ Color_value ENDC.

(** *** Configuration *)

Record Args : Set := {
  commits : string;
  title : string;
  conf : string;
  repo : string
}.

Record Processing : Set := {
  search : string;
  replace : string
}.

Record Conf : Type := {
  pre_captures : list string;
  pre_captures_after_trim : string;
  type_captures : list string;
  type_captures_after_trim : string;
  type_captures_allow_breaking_change_group : bool;
  breaking_change_line_captures : list string;
  breaking_change_line_captures_after_trim : string;
  title_left_trim : string;
  title_right_trim : string;
  supported_types : gmap string string;
  headings : list (string * string);
  others_heading : string;
  breaking_changes_heading : string;
  capitalize_title_first_char : bool;
  preprocessing : option Processing;
  postprocessing : option Processing
}.

(** The field defaults of [Conf]. *)
Definition Conf_default : Conf := {|
  pre_captures := [];
  pre_captures_after_trim := "\s+";
  type_captures := [];
  type_captures_after_trim := "\s+";
  type_captures_allow_breaking_change_group := true;
  breaking_change_line_captures := [];
  breaking_change_line_captures_after_trim := "\s+";
  title_left_trim := "\s+";
  title_right_trim := "\s+";
  supported_types := ∅;
  headings := [];
  others_heading := "Others";
  breaking_changes_heading := "BREAKING CHANGES";
  capitalize_title_first_char := true;
  preprocessing := None;
  postprocessing := None
|}.

Inductive TypeMatch : Set := SUPPORTED_TYPE | OTHERS.

(** [type_capture] is annotated [str]; it is [None] when group 1 of the
    matching pattern took no part in the match. *)
Record TypeCaptureOutput : Set := {
  tco_title : string;
  type_capture : option string;
  type_match : TypeMatch;
  is_breaking_change : bool
}.

(** *** [MarkdownContent] *)

Record MarkdownContent : Set := {
  values : loc;
  others : loc;
  breaking_changes : loc
}.

(** The default values of the parameters of [MarkdownContent.__init__],
    [dict()], [list()] and [list()]: Python evaluates them once, when the
    [def] statement runs, and every call that omits an argument receives
    the object made then. *)
Record Defaults : Set := {
  d_values : loc;
  d_others : loc;
  d_breaking_changes : loc
}.

(** Running the [class MarkdownContent] statement. *)
Definition define_MarkdownContent : M Defaults :=
  v ← alloc (ODict ∅);
  o ← alloc (OList []);
  b ← alloc (OList []);
  mret {| d_values := v; d_others := o; d_breaking_changes := b |}.

(** [MarkdownContent(values=..., others=..., breaking_changes=...)], each
    argument optional. *)
Definition MarkdownContent_init (dflt : Defaults)
    (values_arg others_arg breaking_changes_arg : option loc)
  : M MarkdownContent :=
  mret {| values := default (d_values dflt) values_arg;
          others := default (d_others dflt) others_arg;
          breaking_changes :=
            default (d_breaking_changes dflt) breaking_changes_arg |}.

(** [MarkdownContent.get_values]: the bucket of [heading], created empty
    on first use. *)
Definition get_values (self : MarkdownContent) (heading : string) : M loc :=
  d ← read_dict (values self);
  match d !! heading with
  | Some l => mret l
  | None =>
      l ← alloc (OList []);
      _ ← dict_setitem (values self) heading l;
      mret l
  end.

(** *** Version tags and the commit range *)

(** A [dict] whose iteration order matters: pairs in insertion order,
    keys distinct. *)
Fixpoint dict_set {V} (k : string) (v : V) (d : list (string * V))
  : list (string * V) :=
  match d with
  | [] => [(k, v)]
  | (k', v') :: d' =>
      if String.eqb k k' then (k, v) :: d'
      else (k', v') :: dict_set k v d'
  end.

(** [max(versions, key=versions.get)]: the first key, in iteration order,
    whose version no later one exceeds. *)
Fixpoint max_from (best : string * Semver.Version)
                  (rest : list (string * Semver.Version)) : string :=
  match rest with
  | [] => fst best
  | kv :: rest' =>
      if Semver.gt (snd kv) (snd best) then max_from kv rest'
      else max_from best rest'
  end.

Definition latest_semver (versions : list (string * Semver.Version))
  : option string :=
  match versions with
  | [] => None
  | kv :: rest => Some (max_from kv rest)
  end.

Definition closest_previous_semver (target : Semver.Version)
    (versions : list (string * Semver.Version)) : option string :=
  latest_semver
    (fold_left
       (fun candidates '(tag, version) =>
          if Semver.lt version target then dict_set tag version candidates
          else candidates)
       versions []).

(** [_clean_tag]: [re.sub(r"^[vV]", "", possible_tag)]. *)
Definition _clean_tag (possible_tag : string) : result string :=
  Re.re_sub "^[vV]" "" possible_tag.

(** The dict comprehension of [process_commits_str]. *)
Fixpoint tag_versions_of (repo_tags : list string)
    (acc : list (string * Semver.Version))
  : result (list (string * Semver.Version)) :=
  match repo_tags with
  | [] => Ok acc
  | name :: rest =>
      cleaned ← _clean_tag name;
      if Semver.is_valid cleaned then
        cleaned' ← _clean_tag name;
        match Semver.parse cleaned' with
        | Some v => tag_versions_of rest (dict_set name v acc)
        | None => Raise NotModelled
        end
      else tag_versions_of rest acc
  end.

(** [process_commits_str]: the resolved range and the lines written to
    [sys.stderr]. *)
Definition process_commits_str (commits_str release_title : string)
    (repo_tags : list string) : result (string * list string) :=
  if startswith "~.." commits_str then
    title_tag_raw ← _clean_tag release_title;
    tag_versions ← tag_versions_of repo_tags [];
    match Semver.parse title_tag_raw with
    | Some title_tag =>
        match closest_previous_semver title_tag tag_versions with
        | Some closest_prev_tag =>
            if truthy closest_prev_tag then
              commits_str ← Re.re_sub "^~" closest_prev_tag commits_str;
              Ok (commits_str,
                  [print_color WARNING
                     ("Using commit range '" +:+ commits_str +:+ "'")])
            else
              commits_str ← Re.re_sub "^~\.\." "" commits_str;
              Ok (commits_str,
                  [print_color WARNING
                     ("No valid semver tags found, starting from beginning to commit '"
                      +:+ commits_str +:+ "'")])
        | None =>
            commits_str ← Re.re_sub "^~\.\." "" commits_str;
            Ok (commits_str,
                [print_color WARNING
                   ("No valid semver tags found, starting from beginning to commit '"
                    +:+ commits_str +:+ "'")])
        end
    | None =>
        match latest_semver tag_versions with
        | Some latest_tag =>
            if truthy latest_tag then
              commits_str ← Re.re_sub "^~" latest_tag commits_str;
              Ok (commits_str,
                  [print_color WARNING
                     ("Release title is not a valid semver, using latest semver tag '"
                      +:+ commits_str +:+ "'")])
            else
              commits_str ← Re.re_sub "^~\.\." "" commits_str;
              Ok (commits_str,
                  [print_color WARNING
                     ("No valid semver release title or tags found, starting from beginning to commit '"
                      +:+ commits_str +:+ "'")])
        | None =>
            commits_str ← Re.re_sub "^~\.\." "" commits_str;
            Ok (commits_str,
                [print_color WARNING
                   ("No valid semver release title or tags found, starting from beginning to commit '"
                    +:+ commits_str +:+ "'")])
        end
    end
  else Ok (commits_str, []).

(** *** Rendering *)

(** [_append_points]: ["\n".join(map(lambda p: f"- {p}", points))] *)
Definition _append_points (points : list string) : string :=
  join nl (map (fun p => "- " +:+ p) points).

(** [_append_section]: [f"## {heading}\n\n{_append_points(points)}\n"] *)
Definition _append_section (heading : string) (points : list string) : string :=
  "## " +:+ heading +:+ nl +:+ nl +:+ _append_points points +:+ nl.

(** The [for heading_key, heading in headings.items()] loop. *)
Fixpoint render_headings (mdc : MarkdownContent)
    (items : list (string * string)) (content : string) : M string :=
  match items with
  | [] => mret content
  | (heading_key, heading) :: items' =>
      d ← read_dict (values mdc);
      match d !! heading_key with
      | Some l =>
          points ← read_list l;
          render_headings mdc items'
            (content +:+ _append_section heading points +:+ nl)
      | None => render_headings mdc items' content
      end
  end.

Definition process_markdown (mdc : MarkdownContent) (title : string)
    (headings : list (string * string))
    (others_heading breaking_changes_heading : string) : M string :=
  let content := "# " +:+ title +:+ nl +:+ nl in
  content ← render_headings mdc headings content;
  others_points ← read_list (others mdc);
  let content :=
    if (0 <? length others_points)%nat
    then content +:+ _append_section others_heading others_points +:+ nl
    else content in
  breaking_points ← read_list (breaking_changes mdc);
  let content :=
    if (0 <? length breaking_points)%nat
    then content +:+ _append_section breaking_changes_heading breaking_points
    else content in
  mret content.

(** *** The capture stages *)

Definition enhance_title (title : string) (capitalize_title_first_char : bool)
  : string :=
  if capitalize_title_first_char then capitalize title else title.

(** An element of the list [re.split] returns, used where a [str] is
    needed: a missing index is an [IndexError], [None] a [TypeError]. *)
Definition str_item (item : option (option string)) : result string :=
  match item with
  | Some (Some x) => Ok x
  | Some None => Raise TypeError
  | None => Raise IndexError
  end.

(** The loop of [process_pre_capture]; [already_pre_captured] makes it
    stop before the pattern that follows the first match. *)
Fixpoint pre_capture_loop (title : string) (pre_captures : list string)
    (pre_captures_after_trim : string) (already_pre_captured : bool)
  : result string :=
  match pre_captures with
  | [] => Ok title
  | pc :: rest =>
      if already_pre_captured then Ok title
      else
        pre_capture_match ← Re.re_match ("^" +:+ pc) title;
        match pre_capture_match with
        | Some _ =>
            parts ← Re.re_split ("^" +:+ pc) title;
            title ← str_item (parts !! 1%nat);
            title ← Re.re_sub ("^" +:+ pre_captures_after_trim) "" title;
            pre_capture_loop title rest pre_captures_after_trim true
        | None =>
            pre_capture_loop title rest pre_captures_after_trim
              already_pre_captured
        end
  end.

Definition process_pre_capture (title : string) (pre_captures : list string)
    (pre_captures_after_trim : string) : result string :=
  pre_capture_loop title pre_captures pre_captures_after_trim false.

(** The local variables the loop of [process_type_capture] updates.
    [tl_type_match] is unbound in the source until a pattern matches; it is
    read only after a match or after the assignment that follows the loop. *)
Record tc_locals : Set := {
  tl_title : string;
  tl_type_capture : option string;
  tl_already_type_captured : bool;
  tl_is_breaking_change : bool;
  tl_type_match : TypeMatch
}.

Fixpoint type_capture_loop (st : tc_locals) (type_captures : list string)
    (type_captures_after_trim : string)
    (type_captures_allow_breaking_change_group : bool)
    (supported_types : gmap string string) : result tc_locals :=
  match type_captures with
  | [] => Ok st
  | tc :: rest =>
      if tl_already_type_captured st then Ok st
      else
        type_capture_match ← Re.re_match ("^" +:+ tc) (tl_title st);
        match type_capture_match with
        | Some m =>
            type_capture ← Re.group m 1;
            let is_breaking_change :=
              if type_captures_allow_breaking_change_group
                 && (2 <=? length (Re.m_groups m))%nat
              then true else tl_is_breaking_change st in
            parts ← Re.re_split ("^" +:+ tc) (tl_title st);
            title ← str_item (last parts);
            title ← Re.re_sub ("^" +:+ type_captures_after_trim) "" title;
            let type_match :=
              match type_capture with
              | Some t => if decide (is_Some (supported_types !! t))
                          then SUPPORTED_TYPE else OTHERS
              | None => OTHERS
              end in
            type_capture_loop
              {| tl_title := title;
                 tl_type_capture := type_capture;
                 tl_already_type_captured := true;
                 tl_is_breaking_change := is_breaking_change;
                 tl_type_match := type_match |}
              rest type_captures_after_trim
              type_captures_allow_breaking_change_group supported_types
        | None =>
            type_capture_loop st rest type_captures_after_trim
              type_captures_allow_breaking_change_group supported_types
        end
  end.

(** [type_captures_allow_breaking_change_group] is used as a condition
    only, so the parameter is the truth value of the argument. *)
Definition process_type_capture (title : string) (type_captures : list string)
    (type_captures_after_trim : string)
    (type_captures_allow_breaking_change_group : bool)
    (title_left_trim title_right_trim : string)
    (supported_types : gmap string string)
    (capitalize_title_first_char : bool) : result TypeCaptureOutput :=
  st ← type_capture_loop
         {| tl_title := title;
            tl_type_capture := Some EmptyString;
            tl_already_type_captured := false;
            tl_is_breaking_change := false;
            tl_type_match := OTHERS |}
         type_captures type_captures_after_trim
         type_captures_allow_breaking_change_group supported_types;
  let type_match :=
    if negb (tl_already_type_captured st) then OTHERS
    else tl_type_match st in
  title ← Re.re_sub ("^" +:+ title_left_trim) "" (tl_title st);
  title ← Re.re_sub (title_right_trim +:+ "$") "" title;
  let title := enhance_title title capitalize_title_first_char in
  Ok {| tco_title := title;
        type_capture := tl_type_capture st;
        type_match := type_match;
        is_breaking_change := tl_is_breaking_change st |}.

(** The inner loop of [process_breaking_change], over the lines of the
    message for one pattern: the first line the pattern matches decides. *)
Fixpoint breaking_change_scan (bc : string) (messages : list string)
    (breaking_change_line_captures_after_trim : string)
    (capitalize_title_first_char : bool) : result (option string) :=
  match messages with
  | [] => Ok None
  | msg :: rest =>
      breaking_change_line_match ← Re.re_match ("^" +:+ bc) msg;
      match breaking_change_line_match with
      | Some _ =>
          parts ← Re.re_split ("^" +:+ bc) msg;
          msg ← str_item (parts !! 1%nat);
          msg ← Re.re_sub ("^" +:+ breaking_change_line_captures_after_trim)
                  "" msg;
          Ok (Some (enhance_title msg capitalize_title_first_char))
      | None =>
          breaking_change_scan bc rest
            breaking_change_line_captures_after_trim
            capitalize_title_first_char
      end
  end.

Fixpoint process_breaking_change (messages : list string)
    (breaking_change_line_captures : list string)
    (breaking_change_line_captures_after_trim : string)
    (capitalize_title_first_char : bool) : result (option string) :=
  match breaking_change_line_captures with
  | [] => Ok None
  | bc :: rest =>
      found ← breaking_change_scan bc messages
                breaking_change_line_captures_after_trim
                capitalize_title_first_char;
      match found with
      | Some msg => Ok (Some msg)
      | None =>
          process_breaking_change messages rest
            breaking_change_line_captures_after_trim
            capitalize_title_first_char
      end
  end.

(** *** [main] *)

(** [re.sub(p.search, p.replace, title)] when the processing is set. *)
Definition apply_processing (p : option Processing) (title : string)
  : result string :=
  match p with
  | Some pr => Re.re_sub (search pr) (replace pr) title
  | None => Ok title
  end.

(** Pre-capture, then type capture, with the arguments [main] passes: the
    parameter [type_captures_allow_breaking_change_group] receives
    [c.breaking_change_line_captures_after_trim], a [str]. *)
Definition classify (c : Conf) (title : string) : result TypeCaptureOutput :=
  title ← process_pre_capture title (pre_captures c)
            (pre_captures_after_trim c);
  process_type_capture title (type_captures c) (type_captures_after_trim c)
    (truthy (breaking_change_line_captures_after_trim c))
    (title_left_trim c) (title_right_trim c) (supported_types c)
    (capitalize_title_first_char c).

(** The body of [for cm in commits], in the three blocks of the source. *)

(** The title: the first line of the message through the optional
    pre-processing, the two capture stages and the optional
    post-processing. *)
Definition commit_title (c : Conf) (messages : list string)
  : result (TypeCaptureOutput * string) :=
  title ← str_item (Some <$> messages !! 0%nat);
  title ← apply_processing (preprocessing c) title;
  type_capture_output ← classify c title;
  let title := tco_title type_capture_output in
  title ← apply_processing (postprocessing c) title;
  Ok (type_capture_output, title).

(** The [match type_capture_output.type_match] statement. *)
Definition file_title (c : Conf) (mdc : MarkdownContent)
    (type_capture_output : TypeCaptureOutput) (title : string) : M unit :=
  match type_match type_capture_output with
  | SUPPORTED_TYPE =>
      heading ← lift (match type_capture type_capture_output with
                      | Some t =>
                          match supported_types c !! t with
                          | Some h => Ok h
                          | None => Raise KeyError
                          end
                      | None => Raise KeyError
                      end);
      bucket ← get_values mdc heading;
      list_append bucket title
  | OTHERS => list_append (others mdc) title
  end.

(** The breaking-change title: the inline one, overridden by the explicit
    one when that is truthy, appended when truthy. *)
Definition file_breaking_change (c : Conf) (mdc : MarkdownContent)
    (messages : list string) (type_capture_output : TypeCaptureOutput)
    (title : string) : M unit :=
  let breaking_change_title :=
    if is_breaking_change type_capture_output then Some title else None in
  breaking_change_title_explicit ←
    lift (process_breaking_change messages (breaking_change_line_captures c)
            (breaking_change_line_captures_after_trim c)
            (capitalize_title_first_char c));
  let breaking_change_title :=
    if truthy_opt breaking_change_title_explicit
    then breaking_change_title_explicit
    else breaking_change_title in
  match breaking_change_title with
  | Some t =>
      if truthy t then list_append (breaking_changes mdc) t else mret tt
  | None => mret tt
  end.

Definition process_commit (c : Conf) (mdc : MarkdownContent)
    (message : string) : M unit :=
  let messages := split_char LF message in
  '(type_capture_output, title) ← lift (commit_title c messages);
  _ ← file_title c mdc type_capture_output title;
  file_breaking_change c mdc messages type_capture_output title.

Fixpoint process_commits (c : Conf) (mdc : MarkdownContent)
    (messages : list string) : M unit :=
  match messages with
  | [] => mret tt
  | cm :: rest => _ ← process_commit c mdc cm; process_commits c mdc rest
  end.

(** The repository, as [main] uses it: its tag names, and the messages
    of the commits of a range. *)
Record Repo : Type := {
  repo_tags : list string;
  iter_commits : string -> result (list string)
}.

(** [main], from [c = Conf()] on, with the configuration already loaded:
    the document printed and the lines written to [sys.stderr].
    [conf_found] is [os.path.isfile(args.conf)]. *)
Definition main (dflt : Defaults) (args : Args) (conf_found : bool) (c : Conf)
    (r : Repo) : M (string * list string) :=
  let warn_conf :=
    if conf_found then []
    else [print_color WARNING
            ("Missing '" +:+ conf args +:+ "' config file, using default values...")] in
  '(commits_str, warn_range) ←
      lift (process_commits_str (commits args) (title args) (repo_tags r));
  commits ← lift (iter_commits r commits_str);
  mdc ← MarkdownContent_init dflt None None None;
  _ ← process_commits c mdc commits;
  md ← process_markdown mdc (title args) (headings c) (others_heading c)
         (breaking_changes_heading c);
  mret (md, warn_conf ++ warn_range).

(** Running the module from a fresh interpreter: the [class] statement,
    then [main]. *)
Definition run (args : Args) (conf_found : bool) (c : Conf) (r : Repo)
  : result (string * list string) :=
  match (dflt ← define_MarkdownContent; main dflt args conf_found c r) [] with
  | Ok (out, _) => Ok out
  | Raise e => Raise e
  end.

(* ===================================================================== *)
(** ** The earlier revision: [app.py] *)
(* ===================================================================== *)

(** [src/app.py] is an earlier revision of the same module.  Its
    [MarkdownContent], [process_markdown], [enhance_title],
    [process_pre_capture] and [process_breaking_change] are those above,
    word for word; its [process_type_capture] has no title trims and
    capitalizes inside the loop. *)

Module Rev0.

Fixpoint type_capture_loop (st : tc_locals) (type_captures : list string)
    (type_captures_after_trim : string)
    (type_captures_allow_breaking_change_group : bool)
    (supported_types : gmap string string)
    (capitalize_title_first_char : bool) : result tc_locals :=
  match type_captures with
  | [] => Ok st
  | tc :: rest =>
      if tl_already_type_captured st then Ok st
      else
        type_capture_match ← Re.re_match ("^" +:+ tc) (tl_title st);
        match type_capture_match with
        | Some m =>
            type_capture ← Re.group m 1;
            let is_breaking_change :=
              if type_captures_allow_breaking_change_group
                 && (2 <=? length (Re.m_groups m))%nat
              then true else tl_is_breaking_change st in
            parts ← Re.re_split ("^" +:+ tc) (tl_title st);
            title ← str_item (last parts);
            title ← Re.re_sub ("^" +:+ type_captures_after_trim) "" title;
            let type_match :=
              match type_capture with
              | Some t => if decide (is_Some (supported_types !! t))
                          then SUPPORTED_TYPE else OTHERS
              | None => OTHERS
              end in
            let title := enhance_title title capitalize_title_first_char in
            type_capture_loop
              {| tl_title := title;
                 tl_type_capture := type_capture;
                 tl_already_type_captured := true;
                 tl_is_breaking_change := is_breaking_change;
                 tl_type_match := type_match |}
              rest type_captures_after_trim
              type_captures_allow_breaking_change_group supported_types
              capitalize_title_first_char
        | None =>
            type_capture_loop st rest type_captures_after_trim
              type_captures_allow_breaking_change_group supported_types
              capitalize_title_first_char
        end
  end.

Definition process_type_capture (title : string) (type_captures : list string)
    (type_captures_after_trim : string)
    (type_captures_allow_breaking_change_group : bool)
    (supported_types : gmap string string)
    (capitalize_title_first_char : bool) : result TypeCaptureOutput :=
  st ← type_capture_loop
         {| tl_title := title;
            tl_type_capture := Some EmptyString;
            tl_already_type_captured := false;
            tl_is_breaking_change := false;
            tl_type_match := OTHERS |}
         type_captures type_captures_after_trim
         type_captures_allow_breaking_change_group supported_types
         capitalize_title_first_char;
  let title :=
    if negb (tl_already_type_captured st)
    then enhance_title (tl_title st) capitalize_title_first_char
    else tl_title st in
  let type_match :=
    if negb (tl_already_type_captured st) then OTHERS
    else tl_type_match st in
  Ok {| tco_title := title;
        type_capture := tl_type_capture st;
        type_match := type_match;
        is_breaking_change := tl_is_breaking_change st |}.

End Rev0.

(* ===================================================================== *)
(** ** Vocabulary of the properties *)
(* ===================================================================== *)

(** [needle in hay] *)
Fixpoint contains (needle hay : string) : bool :=
  startswith needle hay ||
  match hay with
  | EmptyString => false
  | String _ hay' => contains needle hay'
  end.

(** The configuration of the end-to-end example, [headings] left open. *)
Definition example_conf (hs : list (string * string)) : Conf := {|
  pre_captures := [];
  pre_captures_after_trim := "\s+";
  type_captures := ["^(\w+):"];
  type_captures_after_trim := "\s+";
  type_captures_allow_breaking_change_group := true;
  breaking_change_line_captures := [];
  breaking_change_line_captures_after_trim := "\s+";
  title_left_trim := "\s+";
  title_right_trim := "\s+";
  supported_types := {[ "feat" := "Features" ]};
  headings := hs;
  others_heading := "Others";
  breaking_changes_heading := "BREAKING CHANGES";
  capitalize_title_first_char := true;
  preprocessing := None;
  postprocessing := None
|}.

(** A repository that yields the given messages for every range. *)
Definition repo_of (messages : list string) : Repo :=
  {| repo_tags := []; iter_commits := fun _ => Ok messages |}.

Definition example_args (t : string) : Args :=
  {| commits := "HEAD"; title := t; conf := ".clog.yaml"; repo := "." |}.

(** A configuration in the Conventional Commits style, with the boolean
    [type_captures_allow_breaking_change_group] off and a type-capture
    pattern that has a second group for the [!] marker. *)
Definition bang_conf : Conf := {|
  pre_captures := [];
  pre_captures_after_trim := "\s+";
  type_captures := ["(\w+)(!)?:"];
  type_captures_after_trim := "\s+";
  type_captures_allow_breaking_change_group := false;
  breaking_change_line_captures := ["BREAKING CHANGE:"];
  breaking_change_line_captures_after_trim := "\s+";
  title_left_trim := "\s+";
  title_right_trim := "\s+";
  supported_types := {[ "feat" := "Features" ]};
  headings := [("Features", "Features")];
  others_heading := "Others";
  breaking_changes_heading := "BREAKING CHANGES";
  capitalize_title_first_char := true;
  preprocessing := None;
  postprocessing := None
|}.

(** The [list] object, or the [dict] object, a location holds. *)
Definition list_at (h : heap) (l : loc) : option (list string) :=
  match h !! l with
  | Some (OList xs) => Some xs
  | _ => None
  end.

Definition dict_at (h : heap) (l : loc) : option (gmap string loc) :=
  match h !! l with
  | Some (ODict d) => Some d
  | _ => None
  end.

(** The titles filed under a heading key, if the key has a bucket. *)
Definition bucket (h : heap) (mdc : MarkdownContent) (k : string)
  : option (list string) :=
  d ← dict_at h (values mdc); l ← d !! k; list_at h l.

(** The aggregator is in order when its three fields hold objects of the
    right kind and every bucket is a list. *)
Definition wf_mdc (h : heap) (mdc : MarkdownContent) : Prop :=
  (exists d, dict_at h (values mdc) = Some d /\
             forall k l, d !! k = Some l -> is_Some (list_at h l))
  /\ is_Some (list_at h (others mdc))
  /\ is_Some (list_at h (breaking_changes mdc)).

(** No bucket is empty. *)
Definition buckets_nonempty (h : heap) (mdc : MarkdownContent) : Prop :=
  forall k xs, bucket h mdc k = Some xs -> xs <> [].

(** The breaking-changes list is an object of its own: not the others
    list and not a bucket. *)
Definition breaking_apart (h : heap) (mdc : MarkdownContent) : Prop :=
  others mdc <> breaking_changes mdc
  /\ forall d k, dict_at h (values mdc) = Some d ->
                 d !! k <> Some (breaking_changes mdc).

(** A classification as a supported type carries a type token that is a
    key of [supported_types], so the lookup in [main] cannot fail. *)
Definition token_known (sup : gmap string string) (tok : option string)
    (tm : TypeMatch) : Prop :=
  tm = SUPPORTED_TYPE -> exists t hd, tok = Some t /\ sup !! t = Some hd.

(** The store of a fresh interpreter after the [class MarkdownContent]
    statement, with the default objects it made, and the aggregator
    [MarkdownContent()] returns there. *)
Definition fresh_heap : heap := [ODict ∅; OList []; OList []].

Definition fresh_defaults : Defaults :=
  {| d_values := 0; d_others := 1; d_breaking_changes := 2 |}.

Definition fresh_mdc : MarkdownContent :=
  {| values := 0; others := 1; breaking_changes := 2 |}.

(** A commit in the Conventional Commits style with both markers. *)
Definition bang_message : string :=
  "feat!: drop the old api" +:+ nl +:+ nl +:+
  "BREAKING CHANGE: old API removed".

(** The value a computation returns from a store. *)
Definition eval {A} (m : M A) (h : heap) : result A :=
  match m h with
  | Ok (a, _) => Ok a
  | Raise e => Raise e
  end.

(** The document as the specification words it: the title line; then,
    for each heading key in the order of [headings], the section of the
    key if the key has a bucket; then the others section and the
    breaking-changes section, each only if its list is not empty. *)
Definition heading_sections (buckets : string -> option (list string))
    (hs : list (string * string)) : list (string * list string) :=
  omap (fun '(k, heading) => (fun pts => (heading, pts)) <$> buckets k) hs.

Definition concat_str (l : list string) : string :=
  foldr String.append EmptyString l.

Definition document (title : string) (sections : list (string * list string))
    (others_heading : string) (os : list string)
    (breaking_changes_heading : string) (bs : list string) : string :=
  ("# " +:+ title +:+ nl +:+ nl) +:+
  concat_str (map (fun '(hd, pts) => _append_section hd pts +:+ nl) sections) +:+
  match os with
  | [] => EmptyString
  | _ :: _ => _append_section others_heading os +:+ nl
  end +:+
  match bs with
  | [] => EmptyString
  | _ :: _ => _append_section breaking_changes_heading bs
  end.

(** A replacement text without backslash stands for itself. *)
Definition plain (s : string) : bool :=
  Semver.all_str (fun c => negb (Ascii.eqb c "\")) s.

Fixpoint lits (s : string) : list Re.tpl_item :=
  match s with
  | EmptyString => []
  | String c r => Re.TLit c :: lits r
  end.

(** What [_clean_tag] computes: the name without one leading [v] or [V]. *)
Definition strip_v (s : string) : string :=
  match s with
  | String c r => if Ascii.eqb c "v" || Ascii.eqb c "V" then r else s
  | EmptyString => EmptyString
  end.

(** The version a tag name stands for, if it is a valid one. *)
Definition tag_version (name : string) : option Semver.Version :=
  match _clean_tag name with
  | Ok cleaned => Semver.parse cleaned
  | Raise _ => None
  end.

(** What it takes for a three-way comparison to be a total preorder. *)
Record cmp_laws {A} (cmp : A -> A -> comparison) : Prop := {
  cmp_refl : forall a, cmp a a = Eq;
  cmp_antisym : forall a b, cmp b a = CompOpp (cmp a b);
  cmp_eq_l : forall a b c, cmp a b = Eq -> cmp a c = cmp b c;
  cmp_trans : forall a b c, cmp a b = Lt -> cmp b c = Lt -> cmp a c = Lt
}.

(** A dict from tag names to versions in which every name has the
    version it stands for. *)
Definition conforms (d : list (string * Semver.Version)) : Prop :=
  forall t v, (t, v) ∈ d -> tag_version t = Some v.

(** The characters of a version string: [[0-9A-Za-z-]], the dot and the
    plus sign. *)
Definition semver_char (c : ascii) : bool :=
  Semver.ident_char c || Ascii.eqb c "." || Ascii.eqb c "+".

(** What the loop body appends to the breaking-changes list for a commit,
    if anything: the text of the explicit detector when it is truthy,
    otherwise the title when the classification is flagged and the title is
    truthy. *)
Definition breaking_entry (c : Conf) (message : string) : option string :=
  let messages := split_char LF message in
  match commit_title c messages,
        process_breaking_change messages (breaking_change_line_captures c)
          (breaking_change_line_captures_after_trim c)
          (capitalize_title_first_char c)
  with
  | Ok (out, title), Ok explicit =>
      let chosen :=
        if truthy_opt explicit then explicit
        else if is_breaking_change out then Some title else None in
      match chosen with
      | Some t => if truthy t then Some t else None
      | None => None
      end
  | _, _ => None
  end.

(** The title the loop body appends to the others list for a commit, if
    the commit is classified [OTHERS]. *)
Definition others_entry (c : Conf) (message : string) : option string :=
  match commit_title c (split_char LF message) with
  | Ok (out, title) =>
      match type_match out with
      | OTHERS => Some title
      | SUPPORTED_TYPE => None
      end
  | Raise _ => None
  end.

(** The others list is an object of its own: not the breaking-changes
    list and not a bucket. *)
Definition others_apart (h : heap) (mdc : MarkdownContent) : Prop :=
  others mdc <> breaking_changes mdc
  /\ forall d k, dict_at h (values mdc) = Some d ->
                 d !! k <> Some (others mdc).

(** A string without its leading run of [\s] characters, and without
    its trailing one. *)
Fixpoint lstrip (s : string) : string :=
  match s with
  | EmptyString => EmptyString
  | String c r => if is_space c then lstrip r else s
  end.

Fixpoint rstrip (s : string) : string :=
  match s with
  | EmptyString => EmptyString
  | String c r =>
      if Semver.all_str is_space s then EmptyString else String c (rstrip r)
  end.

(** The title [main] files for a subject under the default configuration. *)
Definition default_title (subject : string) : string :=
  capitalize (rstrip (lstrip subject)).

(** The first line of a message. *)
Definition subject_of (message : string) : string :=
  default EmptyString (split_char LF message !! 0%nat).

(** The continuation that ends a match attempt which need not advance,
    and the one that ends it at [$]. *)
Definition accept : Re.cont := fun s pos c => Some (pos, s, c).

Definition at_end : Re.cont := fun s pos c => Re.rmatch Re.Eol s pos c accept.

(** A string that does not begin with whitespace. *)
Definition head_ok (s : string) : Prop :=
  match s with
  | EmptyString => True
  | String c _ => is_space c = false
  end.

(** ASCII text, as [str.isascii()] tests it.  On such text
    [str.capitalize] and the classes [\s], [\w] and [\d] of [re] are the
    ASCII ones of [Py]. *)
Definition isascii (s : string) : bool :=
  Semver.all_str (fun c => (code c <? 128)%nat) s.

(** A release title or a tag name made of printable ASCII characters and
    of at most 4300 characters: every [int()] of the version parser and of
    the comparison is then below CPython's limit of 4300 digits, and the
    name has no line feed for the [$] of the parser to stop before. *)
Definition name_ok (s : string) : bool :=
  (String.length s <=? 4300)%nat && Semver.all_str (in_range 32 126) s.


(* ===================================================================== *)
(** ** The [re] fragment on examples *)
(* ===================================================================== *)

(** The values of the [re] and [str] examples are those CPython 3.11
    returns. *)

Example re_split_groups :
  Re.re_split "^(\w+)(!)?:" "feat: add login"
  = Ok [Some ""; Some "feat"; None; Some " add login"].
Proof. vm_compute. reflexivity. Qed.

Example re_split_empty_matches :
  Re.re_split "x*" "axbc"
  = Ok [Some ""; Some "a"; Some ""; Some "b"; Some "c"; Some ""].
Proof. vm_compute. reflexivity. Qed.

Example re_split_lazy_or_empty :
  Re.re_split "|x" "xx" = Ok [Some ""; Some ""; Some ""; Some ""; Some ""; Some ""].
Proof. vm_compute. reflexivity. Qed.

Example re_sub_empty_matches : Re.re_sub "x*" "-" "abxd" = Ok "-a-b--d-".
Proof. vm_compute. reflexivity. Qed.

Example re_sub_group_reference :
  Re.re_sub "(\w+)@(\w+)" "\2 at \1" "x foo@bar y" = Ok "x bar at foo y".
Proof. vm_compute. reflexivity. Qed.

Example re_match_empty_iteration :
  Re.m_groups <$> (Re.re_match "^(a*)*" "b" ≫= from_option Ok (Raise TypeError))
  = Ok [Some ""].
Proof. vm_compute. reflexivity. Qed.

Example re_sub_right_trim :
  Re.re_sub "\s+$" "" "  add login  " = Ok "  add login".
Proof. vm_compute. reflexivity. Qed.

Example capitalize_example : capitalize "aBC dEF" = "Abc def".
Proof. vm_compute. reflexivity. Qed.

Example semver_parse_example :
  Semver.parse "1.2.0-alpha.1+build.5"
  = Some {| Semver.major := 1; Semver.minor := 2; Semver.patch := 0;
            Semver.prerelease := Some [Semver.IAlnum "alpha"; Semver.INum 1];
            Semver.build := Some "build.5" |}
  /\ Semver.parse "01.2.0" = None
  /\ Semver.parse "1.2" = None
  /\ Semver.parse "1.2.0-01" = None.
Proof. repeat split; vm_compute; reflexivity. Qed.

(* ===================================================================== *)
(** ** End-to-end example *)
(* ===================================================================== *)

Lemma example_classify_feat hs :
  classify (example_conf hs) "feat: add login"
  = Ok {| tco_title := "Add login"; type_capture := Some "feat";
          type_match := SUPPORTED_TYPE; is_breaking_change := false |}.
Proof. vm_compute. reflexivity. Qed.

Lemma example_classify_chore hs :
  classify (example_conf hs) "chore: bump deps"
  = Ok {| tco_title := "Bump deps"; type_capture := Some "chore";
          type_match := OTHERS; is_breaking_change := false |}.
Proof. vm_compute. reflexivity. Qed.

(** C1, as stated, fails: with [headings] keyed by ["feat"], the title of
    the [feat] commit is filed under the key ["Features"], which
    [supported_types] yields, and the renderer looks for the key ["feat"]:
    the document has no "Features" section and no "Add login" bullet. *)
Lemma C1_counterexample :
  run (example_args "v1.0.0") true (example_conf [("feat", "Features")])
      (repo_of ["feat: add login"; "chore: bump deps"])
  = Ok ("# v1.0.0" +:+ nl +:+ nl +:+
        "## Others" +:+ nl +:+ nl +:+ "- Bump deps" +:+ nl +:+ nl, [])
  /\ contains "Add login"
       ("# v1.0.0" +:+ nl +:+ nl +:+
        "## Others" +:+ nl +:+ nl +:+ "- Bump deps" +:+ nl +:+ nl) = false
  /\ contains "## Features"
       ("# v1.0.0" +:+ nl +:+ nl +:+
        "## Others" +:+ nl +:+ nl +:+ "- Bump deps" +:+ nl +:+ nl) = false.
Proof. repeat split; vm_compute; reflexivity. Qed.

(** C1, amended: with [headings] keyed by the heading key that
    [supported_types] yields for ["feat"], the commit "feat: add login" gives
    the bullet "Add login" under the level-2 section "Features", and the
    commit "chore: bump deps" gives the bullet "Bump deps" under "Others". *)
Theorem C1_end_to_end :
  run (example_args "v1.0.0") true (example_conf [("Features", "Features")])
      (repo_of ["feat: add login"; "chore: bump deps"])
  = Ok ("# v1.0.0" +:+ nl +:+ nl +:+
        "## Features" +:+ nl +:+ nl +:+ "- Add login" +:+ nl +:+ nl +:+
        "## Others" +:+ nl +:+ nl +:+ "- Bump deps" +:+ nl +:+ nl, []).
Proof. vm_compute. reflexivity. Qed.

(* ===================================================================== *)
(** ** The capture stages *)
(* ===================================================================== *)

Lemma enhance_title_off title : enhance_title title false = title.
Proof. reflexivity. Qed.

(** C2: [enhance_title] calls [str.capitalize], which lowercases every
    character after the first: ["add API"] becomes ["Add api"], not
    ["Add API"]. *)
Theorem C2_capitalize_lowercases_the_rest :
  enhance_title "add API" true = "Add api"
  /\ enhance_title "add API" true <> "Add API"
  /\ enhance_title "add API" false = "add API".
Proof. repeat split; try (vm_compute; reflexivity). vm_compute. discriminate. Qed.

(** Inversion of a successful [bind]. *)
Lemma bind_Ok {A B} (m : result A) (f : A -> result B) b :
  m ≫= f = Ok b <-> exists a, m = Ok a /\ f a = Ok b.
Proof.
  unfold mbind, result_bind, bind. destruct m as [a|e]; split.
  - intros H. exists a. split; [reflexivity|exact H].
  - intros (a' & [= <-] & H). exact H.
  - discriminate.
  - intros (a' & [=] & _).
Qed.

Lemma bind_Ok_l {A B} (a : A) (f : A -> result B) : Ok a ≫= f = f a.
Proof. reflexivity. Qed.

Tactic Notation "inv_bind" hyp(H) "as" simple_intropattern(a) ident(Ha) :=
  apply bind_Ok in H; destruct H as (a & Ha & H).

Tactic Notation "inv_bind" hyp(H) :=
  let a := fresh "a" in
  let Ha := fresh "Hstep" in
  inv_bind H as a Ha.

(** The loop of [process_type_capture] sets the flag only when its
    boolean parameter is true. *)
Lemma type_capture_loop_flag_off tcs :
  forall st trim sup st',
    type_capture_loop st tcs trim false sup = Ok st' ->
    tl_is_breaking_change st = false ->
    tl_is_breaking_change st' = false.
Proof.
  induction tcs as [|tc rest IH]; intros st trim sup st' H Hst; simpl in H.
  - injection H as <-. exact Hst.
  - destruct (tl_already_type_captured st).
    + injection H as <-. exact Hst.
    + inv_bind H as [m|] Hm.
      * inv_bind H. inv_bind H. inv_bind H. inv_bind H.
        apply IH in H; [exact H|]. simpl. exact Hst.
      * eapply IH; eauto.
Qed.

(** With the boolean off, [process_type_capture] never flags a breaking
    change, whatever the groups of the pattern. *)
Lemma process_type_capture_flag_off title tcs trim l r sup cap out :
  process_type_capture title tcs trim false l r sup cap = Ok out ->
  is_breaking_change out = false.
Proof.
  unfold process_type_capture. intros H.
  inv_bind H as st Hst. inv_bind H. inv_bind H. injection H as <-. simpl.
  eapply type_capture_loop_flag_off; [eassumption|reflexivity].
Qed.

(** C3: [main] passes [c.breaking_change_line_captures_after_trim], a
    non-empty string, where [process_type_capture] expects the boolean
    [c.type_captures_allow_breaking_change_group]; with the boolean off and
    a pattern with two groups the classification is still flagged, while
    [process_type_capture] given the boolean itself does not flag it. *)
Theorem C3_boolean_not_passed :
  type_captures_allow_breaking_change_group bang_conf = false
  /\ (is_breaking_change <$> classify bang_conf "feat!: drop the old api")
     = Ok true
  /\ (is_breaking_change <$>
        process_type_capture "feat!: drop the old api"
          (type_captures bang_conf) (type_captures_after_trim bang_conf)
          (type_captures_allow_breaking_change_group bang_conf)
          (title_left_trim bang_conf) (title_right_trim bang_conf)
          (supported_types bang_conf)
          (capitalize_title_first_char bang_conf))
     = Ok false.
Proof. repeat split; vm_compute; reflexivity. Qed.

(** C4: [process_pre_capture] and [process_breaking_change] take element
    [1] of the list [re.split] returns, which is the text of the first
    group when the pattern has one, not the remainder of the string;
    [process_type_capture] takes the last element.  Element [1] also ends
    at the next match of the pattern, which [rf"^{pc}"] does not anchor
    past a top-level alternation. *)
Theorem C4_split_index_with_groups :
  process_pre_capture "feat: add login" ["(\w+):"] "\s+" = Ok "feat"
  /\ process_breaking_change ["BREAKING CHANGE: old API removed"]
       ["(BREAKING CHANGE|BREAKING):"] "\s+" false
     = Ok (Some "BREAKING CHANGE")
  /\ (tco_title <$>
        process_type_capture "feat: add login" ["(\w+):"] "\s+" true
          "\s+" "\s+" ∅ false)
     = Ok "add login"
  /\ process_pre_capture "WIP: fix wip: flag" ["WIP:|wip:"] "\s+"
     = Ok "fix ".
Proof. repeat split; vm_compute; reflexivity. Qed.

(** C9: with no pre-capture pattern [process_pre_capture] returns the
    subject unchanged, and the classification [main] computes is that of
    [process_type_capture] on the unmodified subject. *)
Theorem C9_pre_capture_unconfigured (c : Conf) (subject trim : string) :
  process_pre_capture subject [] trim = Ok subject
  /\ (pre_captures c = [] ->
      classify c subject
      = process_type_capture subject (type_captures c)
          (type_captures_after_trim c)
          (truthy (breaking_change_line_captures_after_trim c))
          (title_left_trim c) (title_right_trim c) (supported_types c)
          (capitalize_title_first_char c)).
Proof.
  split; [reflexivity|].
  intros Hpc. unfold classify. rewrite Hpc. reflexivity.
Qed.

Lemma C9_witness :
  classify (example_conf []) "feat: add login"
  = process_type_capture "feat: add login" ["^(\w+):"] "\s+" true
      "\s+" "\s+" {[ "feat" := "Features" ]} true.
Proof.
  exact (proj2 (C9_pre_capture_unconfigured (example_conf [])
                  "feat: add login" "\s+") eq_refl).
Defined.

(* ===================================================================== *)
(** ** The store *)
(* ===================================================================== *)

Section store.

Implicit Types (h : heap) (l : loc) (xs : list string).

Lemma M_bind_eq {A B} (m : M A) (f : A -> M B) h :
  (m ≫= f) h
  = match m h with
    | Ok (a, h') => f a h'
    | Raise e => Raise e
    end.
Proof. reflexivity. Qed.

Lemma list_at_Some h l xs : list_at h l = Some xs <-> h !! l = Some (OList xs).
Proof.
  unfold list_at. destruct (h !! l) as [[d|ys]|]; split; congruence.
Qed.

Lemma dict_at_Some h l d : dict_at h l = Some d <-> h !! l = Some (ODict d).
Proof.
  unfold dict_at. destruct (h !! l) as [[d'|ys]|]; split; congruence.
Qed.

Lemma list_append_ok h l xs x :
  list_at h l = Some xs ->
  list_append l x h = Ok (tt, <[l := OList (xs ++ [x])]> h).
Proof.
  intros H%list_at_Some. unfold list_append. rewrite H. reflexivity.
Qed.

Lemma list_append_inv h l x h' :
  list_append l x h = Ok (tt, h') ->
  exists xs, list_at h l = Some xs /\ h' = <[l := OList (xs ++ [x])]> h.
Proof.
  unfold list_append, list_at.
  destruct (h !! l) as [[d|ys]|]; intros [=]. eauto.
Qed.

(** Storing a list where a list was leaves every other list and every
    dict as they were. *)
Lemma list_at_insert h l xs ys l' :
  list_at h l = Some xs ->
  list_at (<[l := OList ys]> h) l'
  = if decide (l = l') then Some ys else list_at h l'.
Proof.
  intros H%list_at_Some. unfold list_at.
  rewrite list_lookup_insert.
  destruct (decide (l = l')) as [->|Hne].
  - rewrite decide_True; [reflexivity|].
    split; [reflexivity|]. eapply lookup_lt_Some; eassumption.
  - rewrite decide_False; [reflexivity|]. intros [? _]. contradiction.
Qed.

Lemma dict_at_insert_list h l xs ys l' :
  list_at h l = Some xs ->
  dict_at (<[l := OList ys]> h) l' = dict_at h l'.
Proof.
  intros H%list_at_Some. unfold dict_at.
  rewrite list_lookup_insert.
  destruct (decide (l = l' ∧ l < length h)) as [[-> _]|_]; [|reflexivity].
  rewrite H. reflexivity.
Qed.

Lemma read_list_ok h l xs : list_at h l = Some xs -> read_list l h = Ok (xs, h).
Proof. intros H%list_at_Some. unfold read_list. rewrite H. reflexivity. Qed.

Lemma read_dict_ok h l d : dict_at h l = Some d -> read_dict l h = Ok (d, h).
Proof. intros H%dict_at_Some. unfold read_dict. rewrite H. reflexivity. Qed.

(** What [get_values] returns and the store it leaves: the bucket that
    exists, or a new empty list entered under [heading]. *)
Lemma get_values_ok h mdc d heading :
  dict_at h (values mdc) = Some d ->
  get_values mdc heading h
  = match d !! heading with
    | Some l => Ok (l, h)
    | None =>
        Ok (length h,
            <[values mdc := ODict (<[heading := length h]> d)]>
              (h ++ [OList []]))
    end.
Proof.
  intros Hd. unfold get_values.
  rewrite M_bind_eq, (read_dict_ok _ _ _ Hd).
  destruct (d !! heading) as [l|]; [reflexivity|].
  apply dict_at_Some in Hd.
  rewrite M_bind_eq. unfold alloc. rewrite M_bind_eq. unfold dict_setitem.
  rewrite lookup_app_l by (eapply lookup_lt_Some; eassumption).
  rewrite Hd. reflexivity.
Qed.


(** Appending to a list keeps the aggregator in order. *)
Lemma wf_mdc_append h mdc l xs x :
  list_at h l = Some xs ->
  wf_mdc h mdc -> wf_mdc (<[l := OList (xs ++ [x])]> h) mdc.
Proof.
  intros Hl ((d & Hd & Hb) & Ho & Hbc).
  assert (Hkeep : forall l', is_Some (list_at h l') ->
            is_Some (list_at (<[l := OList (xs ++ [x])]> h) l')).
  { intros l' Hl'. rewrite (list_at_insert _ _ _ _ _ Hl).
    destruct (decide (l = l')); [eauto|assumption]. }
  split; [|split]; [|auto|auto].
  exists d. split.
  - rewrite (dict_at_insert_list _ _ _ _ _ Hl). exact Hd.
  - intros k l' Hk. apply Hkeep. eauto.
Qed.

(** After [get_values], the heading has the bucket returned. *)
Lemma get_values_result h mdc heading l h1 :
  get_values mdc heading h = Ok (l, h1) ->
  exists d1, dict_at h1 (values mdc) = Some d1 /\ d1 !! heading = Some l.
Proof.
  intros Hget. unfold get_values in Hget. rewrite M_bind_eq in Hget.
  unfold read_dict in Hget at 1.
  destruct (h !! values mdc) as [[d|]|] eqn:Hd; try discriminate.
  destruct (d !! heading) as [l'|] eqn:Hk.
  - injection Hget as <- <-. exists d. split; [|assumption].
    apply dict_at_Some. assumption.
  - rewrite M_bind_eq in Hget. unfold alloc in Hget.
    rewrite M_bind_eq in Hget. unfold dict_setitem in Hget.
    pose proof (lookup_lt_Some _ _ _ Hd) as Hlt.
    rewrite lookup_app_l, Hd in Hget by assumption.
    injection Hget as <- <-. eexists. split.
    + unfold dict_at. rewrite list_lookup_insert_eq; [reflexivity|].
      rewrite length_app. lia.
    + apply lookup_insert_eq.
Qed.

(** The store after a new bucket was entered into the dict at [v] and
    received its first title. *)
Lemma new_bucket_lookup h v d t l' :
  v < length h ->
  (<[length h := OList t]> (<[v := ODict d]> (h ++ [OList []]))) !! l'
  = if decide (l' = length h) then Some (OList t)
    else if decide (l' = v) then Some (ODict d)
    else h !! l'.
Proof.
  intros Hv.
  rewrite list_lookup_insert, length_insert, length_app. simpl.
  destruct (decide (l' = length h)) as [->|Hne].
  - rewrite decide_True by (split; [reflexivity|lia]). reflexivity.
  - rewrite decide_False by (intros [? _]; congruence).
    rewrite list_lookup_insert, length_app. simpl.
    destruct (decide (l' = v)) as [->|Hne'].
    + rewrite decide_True by (split; [reflexivity|lia]). reflexivity.
    + rewrite decide_False by (intros [? _]; congruence).
      destruct (decide (l' < length h)).
      * rewrite lookup_app_l by assumption. reflexivity.
      * rewrite lookup_ge_None_2 by (rewrite length_app; simpl; lia).
        symmetry. apply lookup_ge_None_2. lia.
Qed.

(** The three ways [file_title] ends on an aggregator in order: the
    title goes to the others list, to the bucket that exists, or to a
    bucket made for it. *)
Lemma file_title_cases c h mdc out title :
  wf_mdc h mdc ->
  (type_match out = SUPPORTED_TYPE ->
   exists t hd, type_capture out = Some t /\ supported_types c !! t = Some hd) ->
  (exists l xs,
      list_at h l = Some xs
      /\ (l = others mdc \/
          exists d k, dict_at h (values mdc) = Some d /\ d !! k = Some l)
      /\ file_title c mdc out title h
         = Ok (tt, <[l := OList (xs ++ [title])]> h))
  \/ (exists d hd,
        dict_at h (values mdc) = Some d /\ d !! hd = None
        /\ file_title c mdc out title h
           = Ok (tt, <[length h := OList [title]]>
                       (<[values mdc := ODict (<[hd := length h]> d)]>
                          (h ++ [OList []])))).
Proof.
  intros ((d & Hd & Hb) & [os Ho] & _) Hsup. unfold file_title.
  destruct (type_match out).
  - destruct (Hsup eq_refl) as (t & hd & -> & ->).
    rewrite M_bind_eq. unfold lift.
    rewrite M_bind_eq, (get_values_ok _ _ _ _ Hd).
    destruct (d !! hd) as [l|] eqn:Hk.
    + left. destruct (Hb _ _ Hk) as [xs Hxs]. exists l, xs.
      split; [assumption|]. split; [right; eauto|].
      apply list_append_ok. assumption.
    + right. exists d, hd. split; [assumption|]. split; [assumption|].
      apply dict_at_Some in Hd. pose proof (lookup_lt_Some _ _ _ Hd) as Hlt.
      unfold list_append. rewrite list_lookup_insert_ne by lia.
      rewrite lookup_app_r by lia. rewrite Nat.sub_diag. reflexivity.
  - left. exists (others mdc), os. split; [assumption|]. split; [left; reflexivity|].
    apply list_append_ok. assumption.
Qed.


Lemma bucket_Some h mdc k xs :
  bucket h mdc k = Some xs <->
  exists d l, dict_at h (values mdc) = Some d /\ d !! k = Some l
              /\ list_at h l = Some xs.
Proof.
  unfold bucket. split.
  - destruct (dict_at h (values mdc)) as [d|]; [|discriminate]. simpl.
    destruct (d !! k) as [l|] eqn:Hk; [|discriminate]. simpl.
    intros Hl. exists d, l. auto.
  - intros (d & l & -> & Hk & Hl). simpl. rewrite Hk. simpl. exact Hl.
Qed.

Lemma buckets_nonempty_append h mdc l xs x :
  list_at h l = Some xs ->
  buckets_nonempty h mdc ->
  buckets_nonempty (<[l := OList (xs ++ [x])]> h) mdc.
Proof.
  intros Hl Hne k ys (d & l' & Hd & Hk & Hl')%bucket_Some.
  rewrite (dict_at_insert_list _ _ _ _ _ Hl) in Hd.
  rewrite (list_at_insert _ _ _ _ _ Hl) in Hl'.
  destruct (decide (l = l')) as [->|_].
  - injection Hl' as <-. destruct xs; discriminate.
  - apply (Hne k). apply bucket_Some. eauto.
Qed.

Lemma breaking_apart_append h mdc l xs x :
  list_at h l = Some xs ->
  breaking_apart h mdc ->
  breaking_apart (<[l := OList (xs ++ [x])]> h) mdc.
Proof.
  intros Hl [Ho Hb]. split; [exact Ho|].
  intros d k Hd. rewrite (dict_at_insert_list _ _ _ _ _ Hl) in Hd. eauto.
Qed.

(** [file_title] keeps the aggregator in order, keeps its buckets
    non-empty, and leaves the breaking-changes list alone. *)
Lemma file_title_spec c h mdc out title :
  wf_mdc h mdc ->
  (type_match out = SUPPORTED_TYPE ->
   exists t hd, type_capture out = Some t /\ supported_types c !! t = Some hd) ->
  exists h',
    file_title c mdc out title h = Ok (tt, h')
    /\ wf_mdc h' mdc
    /\ (buckets_nonempty h mdc -> buckets_nonempty h' mdc)
    /\ (breaking_apart h mdc ->
        breaking_apart h' mdc
        /\ list_at h' (breaking_changes mdc) = list_at h (breaking_changes mdc)).
Proof.
  intros Hwf Hsup.
  destruct (file_title_cases c h mdc out title Hwf Hsup)
    as [(l & xs & Hl & Hwhich & ->)|(d & hd & Hd & Hk & ->)];
    eexists; (split; [reflexivity|]).
  - split; [apply wf_mdc_append; assumption|].
    split; [apply buckets_nonempty_append; assumption|].
    intros Hap. split; [apply breaking_apart_append; assumption|].
    rewrite (list_at_insert _ _ _ _ _ Hl).
    destruct (decide (l = breaking_changes mdc)) as [->|_]; [|reflexivity].
    destruct Hap as [Ho Hb]. destruct Hwhich as [Heq|(d & k & Hd & Hk)].
    + congruence.
    + exfalso. eapply Hb; eassumption.
  - destruct Hwf as ((d0 & Hd0 & Hb) & Ho & Hbc).
    assert (d0 = d) as -> by congruence.
    pose proof Hd as Hd'. apply dict_at_Some in Hd'.
    pose proof (lookup_lt_Some _ _ _ Hd') as Hv.
    set (h' := <[length h := _]> _).
    assert (Hdict : dict_at h' (values mdc)
                    = Some (<[hd := length h]> d)).
    { unfold dict_at, h'. rewrite new_bucket_lookup by assumption.
      rewrite decide_False by lia. rewrite decide_True by reflexivity.
      reflexivity. }
    assert (Hnew : list_at h' (length h) = Some [title]).
    { unfold list_at, h'. rewrite new_bucket_lookup by assumption.
      rewrite decide_True by reflexivity. reflexivity. }
    assert (Hold : forall l xs, list_at h l = Some xs -> list_at h' l = Some xs).
    { intros l xs Hl. apply list_at_Some in Hl.
      pose proof (lookup_lt_Some _ _ _ Hl).
      unfold list_at, h'. rewrite new_bucket_lookup by assumption.
      rewrite decide_False by lia.
      destruct (decide (l = values mdc)) as [->|_]; [congruence|].
      rewrite Hl. reflexivity. }
    assert (Hback : forall l xs, l <> length h -> list_at h' l = Some xs ->
                                 list_at h l = Some xs).
    { intros l xs Hne. unfold list_at, h'.
      rewrite new_bucket_lookup by assumption.
      rewrite decide_False by assumption.
      destruct (decide (l = values mdc)); [discriminate|]. tauto. }
    split; [|split].
    + split; [|split].
      * exists (<[hd := length h]> d). split; [assumption|].
        intros k l. rewrite lookup_insert.
        destruct (decide (hd = k)).
        -- intros [= <-]. eauto.
        -- intros Hl. destruct (Hb _ _ Hl) as [xs Hxs]. eauto.
      * destruct Ho as [xs Hxs]. eauto.
      * destruct Hbc as [xs Hxs]. eauto.
    + intros Hne k ys (d' & l & Hd1 & Hl & Hys)%bucket_Some.
      rewrite Hdict in Hd1. injection Hd1 as <-.
      rewrite lookup_insert in Hl. destruct (decide (hd = k)).
      * injection Hl as <-. rewrite Hnew in Hys. injection Hys as <-.
        discriminate.
      * apply (Hne k). apply bucket_Some. exists d, l.
        split; [assumption|]. split; [assumption|].
        destruct (Hb _ _ Hl) as [zs Hzs].
        rewrite (Hold _ _ Hzs) in Hys. congruence.
    + intros [Hob Hap]. destruct Hbc as [bs Hbs].
      split; [|rewrite Hbs; eauto].
      split; [assumption|].
      intros d' k Hd1. rewrite Hdict in Hd1. injection Hd1 as <-.
      rewrite lookup_insert. destruct (decide (hd = k)).
      * intros [= Heq]. apply list_at_Some in Hbs.
        pose proof (lookup_lt_Some _ _ _ Hbs). lia.
      * eauto.
Qed.


End store.

(* ===================================================================== *)
(** ** The commit loop *)
(* ===================================================================== *)

Lemma type_capture_loop_token tcs :
  forall st trim allow sup st',
    type_capture_loop st tcs trim allow sup = Ok st' ->
    token_known sup (tl_type_capture st) (tl_type_match st) ->
    token_known sup (tl_type_capture st') (tl_type_match st').
Proof.
  induction tcs as [|tc rest IH]; intros st trim allow sup st' H Hst;
    simpl in H.
  - injection H as <-. exact Hst.
  - destruct (tl_already_type_captured st).
    + injection H as <-. exact Hst.
    + inv_bind H as [m|] Hm; [|eapply IH; eauto].
      inv_bind H as tok Htok. inv_bind H. inv_bind H. inv_bind H.
      apply IH in H; [exact H|]. simpl. clear.
      destruct tok as [t|]; [|discriminate].
      destruct (decide (is_Some (sup !! t))) as [[hd Hhd]|]; [|discriminate].
      intros _. eauto.
Qed.

Lemma process_type_capture_token title tcs trim allow l r sup cap out :
  process_type_capture title tcs trim allow l r sup cap = Ok out ->
  token_known sup (type_capture out) (type_match out).
Proof.
  unfold process_type_capture. intros H.
  inv_bind H as st Hst. inv_bind H. inv_bind H. injection H as <-. simpl.
  apply type_capture_loop_token in Hst; [|discriminate].
  destruct (tl_already_type_captured st); [exact Hst|discriminate].
Qed.

Lemma commit_title_token c messages out title :
  commit_title c messages = Ok (out, title) ->
  token_known (supported_types c) (type_capture out) (type_match out).
Proof.
  unfold commit_title, classify. intros H.
  inv_bind H. inv_bind H. inv_bind H as out' Hout. inv_bind H.
  injection H as <- _.
  inv_bind Hout. eapply process_type_capture_token; eassumption.
Qed.


(** The last block of the loop body in general: it appends to the
    breaking-changes list or leaves the store as it is. *)
Lemma file_breaking_change_cases c mdc messages out title h r bs :
  process_breaking_change messages (breaking_change_line_captures c)
    (breaking_change_line_captures_after_trim c)
    (capitalize_title_first_char c) = Ok r ->
  list_at h (breaking_changes mdc) = Some bs ->
  file_breaking_change c mdc messages out title h = Ok (tt, h)
  \/ exists t, file_breaking_change c mdc messages out title h
               = Ok (tt, <[breaking_changes mdc := OList (bs ++ [t])]> h).
Proof.
  intros Hr Hbs. unfold file_breaking_change.
  rewrite M_bind_eq, Hr. simpl.
  destruct (if truthy_opt r then r
            else if is_breaking_change out then Some title else None)
    as [t|]; [|left; reflexivity].
  destruct (truthy t); [|left; reflexivity].
  right. exists t. apply list_append_ok. assumption.
Qed.

Lemma fresh_define :
  define_MarkdownContent [] = Ok (fresh_defaults, fresh_heap).
Proof. reflexivity. Qed.

Lemma fresh_init h :
  MarkdownContent_init fresh_defaults None None None h = Ok (fresh_mdc, h).
Proof. reflexivity. Qed.

Lemma fresh_wf : wf_mdc fresh_heap fresh_mdc.
Proof.
  split; [|split]; [|exists []; reflexivity..].
  exists ∅. split; [reflexivity|]. intros k l Hk.
  rewrite lookup_empty in Hk. discriminate.
Qed.

Lemma fresh_buckets_nonempty : buckets_nonempty fresh_heap fresh_mdc.
Proof.
  intros k xs (d & l & Hd & Hk & _)%bucket_Some.
  injection Hd as <-. rewrite lookup_empty in Hk. discriminate.
Qed.

Lemma fresh_breaking_apart : breaking_apart fresh_heap fresh_mdc.
Proof.
  split; [discriminate|]. intros d k Hd. injection Hd as <-.
  rewrite lookup_empty. discriminate.
Qed.




(** The loop body keeps the aggregator in order and its buckets
    non-empty. *)
Lemma process_commit_inv c mdc message h h' :
  wf_mdc h mdc ->
  process_commit c mdc message h = Ok (tt, h') ->
  wf_mdc h' mdc
  /\ (buckets_nonempty h mdc -> buckets_nonempty h' mdc)
  /\ (breaking_apart h mdc -> breaking_apart h' mdc).
Proof.
  intros Hwf. unfold process_commit. rewrite M_bind_eq. unfold lift.
  destruct (commit_title c (split_char LF message)) as [[out title]|]
    eqn:Htitle; [|discriminate].
  destruct (file_title_spec c h mdc out title Hwf
              (commit_title_token _ _ _ _ Htitle))
    as (h1 & Hfile & Hwf1 & Hne1 & Hap1).
  rewrite M_bind_eq, Hfile. intros Hfbc.
  destruct Hwf1 as (Hd1 & Ho1 & [bs Hbs]).
  assert (Hwf1 : wf_mdc h1 mdc) by (split; [|split]; eauto).
  destruct (process_breaking_change (split_char LF message)
              (breaking_change_line_captures c)
              (breaking_change_line_captures_after_trim c)
              (capitalize_title_first_char c)) as [r|] eqn:Hr.
  - destruct (file_breaking_change_cases c mdc _ out title h1 r bs Hr Hbs)
      as [Heq|[t Heq]]; rewrite Heq in Hfbc; injection Hfbc as <-.
    + split; [assumption|]. split; [assumption|]. intros ?; apply Hap1; assumption.
    + split; [apply wf_mdc_append; assumption|].
      split; [intros ?; apply buckets_nonempty_append; auto|].
      intros ?. apply breaking_apart_append; [assumption|].
      apply Hap1. assumption.
  - unfold file_breaking_change in Hfbc. rewrite M_bind_eq, Hr in Hfbc.
    discriminate.
Qed.

Lemma process_commits_inv c mdc messages :
  forall h h',
    wf_mdc h mdc ->
    buckets_nonempty h mdc ->
    process_commits c mdc messages h = Ok (tt, h') ->
    wf_mdc h' mdc /\ buckets_nonempty h' mdc.
Proof.
  induction messages as [|cm rest IH]; intros h h' Hwf Hne; simpl.
  - intros [= <-]. auto.
  - rewrite M_bind_eq.
    destruct (process_commit c mdc cm h) as [[[] h1]|] eqn:Hcm; [|discriminate].
    destruct (process_commit_inv _ _ _ _ _ Hwf Hcm) as (Hwf1 & Hne1 & _).
    apply IH; auto.
Qed.

(* ===================================================================== *)
(** ** Default arguments *)
(* ===================================================================== *)

(** C10: two aggregators made by [MarkdownContent()] hold the same three
    objects, the default values of the parameters; a title appended through
    one is read through the other, in the others list, in the
    breaking-changes list and in a bucket, so the second does not start
    empty once the first was written to. *)
Theorem C10_default_arguments_shared
    (dflt : Defaults) (ha hb ha' hb' : heap) (m1 m2 : MarkdownContent) :
  MarkdownContent_init dflt None None None ha = Ok (m1, ha') ->
  MarkdownContent_init dflt None None None hb = Ok (m2, hb') ->
  (values m1 = values m2 /\ others m1 = others m2
   /\ breaking_changes m1 = breaking_changes m2)
  /\ (forall h h' x,
        list_append (others m1) x h = Ok (tt, h') ->
        exists xs, list_at h (others m2) = Some xs
                   /\ list_at h' (others m2) = Some (xs ++ [x])
                   /\ list_at h' (others m2) <> Some [])
  /\ (forall h h' x,
        list_append (breaking_changes m1) x h = Ok (tt, h') ->
        exists xs, list_at h (breaking_changes m2) = Some xs
                   /\ list_at h' (breaking_changes m2) = Some (xs ++ [x])
                   /\ list_at h' (breaking_changes m2) <> Some [])
  /\ (forall h h1 h' k l x,
        get_values m1 k h = Ok (l, h1) ->
        list_append l x h1 = Ok (tt, h') ->
        exists xs, bucket h' m2 k = Some (xs ++ [x])).
Proof.
  intros [= <- _] [= <- _]. simpl.
  split; [auto|]. split; [|split].
  - intros h h' x (xs & Hxs & ->)%list_append_inv. exists xs.
    rewrite (list_at_insert _ _ _ _ _ Hxs), decide_True by reflexivity.
    split; [assumption|]. split; [reflexivity|]. destruct xs; discriminate.
  - intros h h' x (xs & Hxs & ->)%list_append_inv. exists xs.
    rewrite (list_at_insert _ _ _ _ _ Hxs), decide_True by reflexivity.
    split; [assumption|]. split; [reflexivity|]. destruct xs; discriminate.
  - intros h h1 h' k l x Hget (xs & Hxs & ->)%list_append_inv.
    apply get_values_result in Hget. destruct Hget as (d1 & Hd1 & Hk).
    exists xs. apply bucket_Some. exists d1, l. simpl in *.
    rewrite (dict_at_insert_list _ _ _ _ _ Hxs),
            (list_at_insert _ _ _ _ _ Hxs), decide_True by reflexivity.
    auto.
Qed.

Lemma C10_witness :
  exists xs,
    list_at fresh_heap (others fresh_mdc) = Some xs
    /\ list_at (<[1 := OList ["Bump deps"]]> fresh_heap) (others fresh_mdc)
       = Some (xs ++ ["Bump deps"])
    /\ list_at (<[1 := OList ["Bump deps"]]> fresh_heap) (others fresh_mdc)
       <> Some [].
Proof.
  exact (proj1 (proj2 (C10_default_arguments_shared fresh_defaults
                         fresh_heap fresh_heap fresh_heap fresh_heap
                         fresh_mdc fresh_mdc eq_refl eq_refl))
           fresh_heap (<[1 := OList ["Bump deps"]]> fresh_heap) "Bump deps"
           eq_refl).
Defined.

(** Two runs of [main] in one interpreter: the document of the second run
    lists the titles of the first one as well. *)
Lemma main_twice_accumulates :
  eval (dflt ← define_MarkdownContent;
        _ ← main dflt (example_args "v1") true (example_conf [])
              (repo_of ["chore: one"]);
        main dflt (example_args "v2") true (example_conf [])
          (repo_of ["chore: two"])) []
  = Ok ("# v2" +:+ nl +:+ nl +:+ "## Others" +:+ nl +:+ nl +:+
        "- One" +:+ nl +:+ "- Two" +:+ nl +:+ nl, []).
Proof. vm_compute. reflexivity. Qed.

(* ===================================================================== *)
(** ** Rendering *)
(* ===================================================================== *)

Lemma append_assoc (a b c : string) : (a +:+ b) +:+ c = a +:+ b +:+ c.
Proof.
  induction a as [|x a IH]; [reflexivity|].
  change (String x ((a +:+ b) +:+ c) = String x (a +:+ b +:+ c)).
  f_equal. exact IH.
Qed.

Lemma append_cons (x : ascii) (a b : string) :
  String x a +:+ b = String x (a +:+ b).
Proof. reflexivity. Qed.

Lemma append_nil_l (a : string) : EmptyString +:+ a = a.
Proof. reflexivity. Qed.

Lemma append_nil_r (a : string) : a +:+ EmptyString = a.
Proof.
  induction a as [|x a IH]; [reflexivity|].
  rewrite append_cons. f_equal. exact IH.
Qed.

(** The loop over [headings] appends, in the order of [headings], the
    section of each key that has a bucket, and reads the store only. *)
Lemma render_headings_ok h mdc :
  wf_mdc h mdc ->
  forall hs content,
    render_headings mdc hs content h
    = Ok (content +:+
          concat_str (map (fun '(hd, pts) => _append_section hd pts +:+ nl)
                        (heading_sections (bucket h mdc) hs)), h).
Proof.
  intros ((d & Hd & Hb) & _).
  induction hs as [|[k heading] hs IH]; intros content; simpl.
  - rewrite append_nil_r. reflexivity.
  - rewrite M_bind_eq, (read_dict_ok _ _ _ Hd).
    unfold bucket at 1. rewrite Hd. simpl.
    destruct (d !! k) as [l|] eqn:Hk; simpl.
    + destruct (Hb _ _ Hk) as [pts Hpts].
      rewrite M_bind_eq, (read_list_ok _ _ _ Hpts), Hpts. simpl.
      rewrite IH, !append_assoc. reflexivity.
    + apply IH.
Qed.

Lemma process_markdown_ok h mdc title hs oh bh os bs :
  wf_mdc h mdc ->
  list_at h (others mdc) = Some os ->
  list_at h (breaking_changes mdc) = Some bs ->
  process_markdown mdc title hs oh bh h
  = Ok (document title (heading_sections (bucket h mdc) hs) oh os bh bs, h).
Proof.
  intros Hwf Hos Hbs. unfold process_markdown, document.
  rewrite M_bind_eq, (render_headings_ok _ _ Hwf).
  rewrite M_bind_eq, (read_list_ok _ _ _ Hos).
  rewrite M_bind_eq, (read_list_ok _ _ _ Hbs).
  unfold mret, M_ret.
  destruct os as [|o os]; destruct bs as [|b bs]; simpl length;
    cbv [Nat.ltb Nat.leb]; rewrite ?append_assoc, ?append_nil_r; reflexivity.
Qed.

Lemma heading_sections_ext b1 b2 hs :
  (forall k, b1 k = b2 k) -> heading_sections b1 hs = heading_sections b2 hs.
Proof.
  intros Hext. unfold heading_sections.
  induction hs as [|[k heading] hs IH]; [reflexivity|].
  cbn. rewrite Hext. destruct (b2 k); cbn; [f_equal|]; exact IH.
Qed.

Lemma heading_sections_headings b hs :
  (heading_sections b hs).*1 = (filter (fun kh => is_Some (b kh.1)) hs).*2.
Proof.
  unfold heading_sections.
  induction hs as [|[k heading] hs IH]; [reflexivity|].
  rewrite filter_cons. cbn. destruct (b k) as [pts|] eqn:Hk; cbn.
  - rewrite decide_True by eauto. cbn. f_equal. exact IH.
  - rewrite decide_False by (intros [? ?]; discriminate). exact IH.
Qed.

(** A bucket that exists is rendered, with or without titles: after
    [get_values] alone the key has an empty bucket, and the document has a
    "Features" section with no bullet.  So C8 fails as stated. *)
Lemma C8_counterexample :
  eval (mdc ← MarkdownContent_init fresh_defaults None None None;
        _ ← get_values mdc "feat";
        process_markdown mdc "v1" [("feat", "Features")]
          "Others" "BREAKING CHANGES") fresh_heap
  = Ok ("# v1" +:+ nl +:+ nl +:+ "## Features" +:+ nl +:+ nl +:+ nl +:+ nl).
Proof. vm_compute. reflexivity. Qed.

(** C8, amended: on every aggregator in order, the document is the title
    line, then the sections of the heading keys that have a bucket, in the
    order of [headings], then the others section if the others list is not
    empty, then the breaking-changes section if that list is not empty; a
    heading key without a bucket, an empty others list and an empty
    breaking-changes list give no section.  The document depends on the
    store through the buckets and the two lists only.  When no bucket is
    empty, as in every store the commit loop builds, every section
    rendered has a bullet. *)
Theorem C8_sections_in_headings_order
    (h : heap) (mdc : MarkdownContent) (title : string)
    (hs : list (string * string)) (oh bh : string) (os bs : list string) :
  wf_mdc h mdc ->
  list_at h (others mdc) = Some os ->
  list_at h (breaking_changes mdc) = Some bs ->
  process_markdown mdc title hs oh bh h
  = Ok (document title (heading_sections (bucket h mdc) hs) oh os bh bs, h)
  /\ (heading_sections (bucket h mdc) hs).*1
     = (filter (fun kh => is_Some (bucket h mdc kh.1)) hs).*2
  /\ (forall k heading hs1 hs2,
        hs = hs1 ++ (k, heading) :: hs2 ->
        bucket h mdc k = None ->
        heading_sections (bucket h mdc) hs
        = heading_sections (bucket h mdc) (hs1 ++ hs2))
  /\ (forall h2 mdc2,
        wf_mdc h2 mdc2 ->
        (forall k, bucket h2 mdc2 k = bucket h mdc k) ->
        list_at h2 (others mdc2) = Some os ->
        list_at h2 (breaking_changes mdc2) = Some bs ->
        eval (process_markdown mdc2 title hs oh bh) h2
        = eval (process_markdown mdc title hs oh bh) h)
  /\ (buckets_nonempty h mdc ->
      forall heading pts,
        (heading, pts) ∈ heading_sections (bucket h mdc) hs -> pts <> []).
Proof.
  intros Hwf Hos Hbs.
  split; [apply process_markdown_ok; assumption|].
  split; [apply heading_sections_headings|].
  split; [|split].
  - intros k heading hs1 hs2 -> Hk. unfold heading_sections.
    rewrite !omap_app. simpl. rewrite Hk. reflexivity.
  - intros h2 mdc2 Hwf2 Hext Hos2 Hbs2. unfold eval.
    rewrite (process_markdown_ok _ _ _ _ _ _ _ _ Hwf2 Hos2 Hbs2),
            (process_markdown_ok _ _ _ _ _ _ _ _ Hwf Hos Hbs).
    rewrite (heading_sections_ext _ _ _ Hext). reflexivity.
  - intros Hne heading pts Hin. unfold heading_sections in Hin.
    apply list_elem_of_omap in Hin. destruct Hin as ([k hd] & _ & Hk).
    destruct (bucket h mdc k) as [pts'|] eqn:Hb; [|discriminate].
    injection Hk as <- <-. eapply Hne. eassumption.
Qed.

Lemma C8_witness :
  process_markdown fresh_mdc "v1" [("Features", "Features")]
    "Others" "BREAKING CHANGES"
    (<[1 := OList ["Bump deps"]]> fresh_heap)
  = Ok ("# v1" +:+ nl +:+ nl +:+ "## Others" +:+ nl +:+ nl +:+
        "- Bump deps" +:+ nl +:+ nl, <[1 := OList ["Bump deps"]]> fresh_heap).
Proof.
  refine (proj1 (C8_sections_in_headings_order
                   (<[1 := OList ["Bump deps"]]> fresh_heap) fresh_mdc "v1"
                   [("Features", "Features")] "Others" "BREAKING CHANGES"
                   ["Bump deps"] [] _ eq_refl eq_refl)).
  apply (wf_mdc_append fresh_heap fresh_mdc 1 [] "Bump deps" eq_refl fresh_wf).
Defined.

(* ===================================================================== *)
(** ** Anchored substitutions *)
(* ===================================================================== *)

Section anchored.

Import Re.

(** A pattern that begins with [^] matches nowhere but at position 0. *)
Lemma match_at_bol r n s pos ma :
  0 < pos -> match_at {| p_re := Seq Bol r; p_groups := n |} s pos ma = None.
Proof.
  intros Hpos. unfold match_at. simpl.
  destruct pos as [|pos]; [lia|]. reflexivity.
Qed.

Lemma search_from_bol r n s :
  forall pos ma,
    0 < pos ->
    search_from {| p_re := Seq Bol r; p_groups := n |} s pos ma = None.
Proof.
  induction s as [|x s IH]; intros pos ma Hpos; simpl;
    rewrite match_at_bol by assumption; [reflexivity|].
  rewrite IH by lia. reflexivity.
Qed.

Lemma sub_loop_bol r n t s fuel pos ma :
  0 < pos ->
  sub_loop fuel {| p_re := Seq Bol r; p_groups := n |} t s pos ma = s.
Proof.
  intros Hpos. destruct fuel as [|f]; simpl; [reflexivity|].
  rewrite search_from_bol by assumption. reflexivity.
Qed.

Lemma compile_template_plain s n :
  plain s = true -> compile_template s n = Ok (lits s).
Proof.
  induction s as [|c s IH]; simpl; [reflexivity|].
  intros [Hc Hs]%andb_prop. apply negb_true_iff in Hc. rewrite Hc.
  rewrite (IH Hs). reflexivity.
Qed.

Lemma expand_lits s g : expand (lits s) g = s.
Proof. induction s as [|c s IH]; simpl; [reflexivity|]. f_equal. exact IH. Qed.

(** [re.sub(r"^~", tag, s)] on a range that begins with [~]. *)
Lemma re_sub_tilde tag rest :
  plain tag = true ->
  re_sub "^~" tag (String "~" rest) = Ok (tag +:+ rest).
Proof.
  intros Hplain. unfold re_sub.
  change (compile "^~")
    with (Ok {| p_re := Seq Bol (Chr "~"); p_groups := 0 |}).
  rewrite bind_Ok_l. cbn [p_groups].
  rewrite (compile_template_plain _ _ Hplain), bind_Ok_l. f_equal.
  change (2 * String.length (String "~" rest) + 2)
    with (S (String.length rest + S (String.length rest + 0) + 2)).
  cbn [sub_loop].
  change (search_from {| p_re := Seq Bol (Chr "~"); p_groups := 0 |}
            (String "~" rest) 0 false)
    with (Some (EmptyString,
                {| m_start := 0; m_end := 1; m_rest := rest; m_groups := [] |})).
  cbn [m_groups m_rest m_end m_start].
  rewrite expand_lits, sub_loop_bol by lia. reflexivity.
Qed.

(** [re.sub(r"^~\.\.", "", s)] on a range that begins with [~..]. *)
Lemma re_sub_tilde_dots rest :
  re_sub "^~\.\." "" (String "~" (String "." (String "." rest))) = Ok rest.
Proof.
  unfold re_sub.
  change (compile "^~\.\.")
    with (Ok {| p_re := Seq Bol (Seq (Chr "~") (Seq (Chr ".") (Chr ".")));
                p_groups := 0 |}).
  rewrite bind_Ok_l. cbn [p_groups compile_template]. rewrite bind_Ok_l.
  f_equal.
  change (2 * String.length (String "~" (String "." (String "." rest))) + 2)
    with (S (S (String.length
                  (String "." rest) + S (S (S (String.length rest + 0))) + 2))).
  cbn [sub_loop].
  change (search_from _ (String "~" (String "." (String "." rest))) 0 false)
    with (Some (EmptyString,
                {| m_start := 0; m_end := 3; m_rest := rest; m_groups := [] |})).
  cbn [m_groups m_rest m_end m_start expand].
  rewrite search_from_bol by lia. reflexivity.
Qed.

(** [_clean_tag] drops one leading [v] or [V] and raises nothing. *)
Lemma _clean_tag_strip_v s : _clean_tag s = Ok (strip_v s).
Proof.
  unfold _clean_tag, re_sub.
  change (compile "^[vV]")
    with (Ok {| p_re := Seq Bol (Set_ false [IChar "v"; IChar "V"]);
                p_groups := 0 |}).
  rewrite bind_Ok_l. cbn [p_groups compile_template]. rewrite bind_Ok_l.
  f_equal. destruct s as [|c r]; [reflexivity|].
  change (2 * String.length (String c r) + 2)
    with (S (String.length r + S (String.length r + 0) + 2)).
  cbn [sub_loop search_from].
  unfold match_at.
  cbn [rmatch p_re p_groups one_char Nat.eqb replicate existsb citem_match
       xorb andb].
  unfold strip_v. rewrite orb_false_r, !(Ascii.eqb_sym _ c).
  destruct (Ascii.eqb c "v" || Ascii.eqb c "V").
  - cbn [m_groups m_rest m_end m_start expand].
    rewrite sub_loop_bol by lia. reflexivity.
  - rewrite search_from_bol by lia. reflexivity.
Qed.

End anchored.

(* ===================================================================== *)
(** ** The order on versions *)
(* ===================================================================== *)

Section order.

Context {A : Type} (cmp : A -> A -> comparison) (L : cmp_laws cmp).

Lemma cmp_eq_r a b c : cmp b c = Eq -> cmp a b = cmp a c.
Proof.
  intros H. rewrite (cmp_antisym cmp L b a), (cmp_antisym cmp L c a).
  f_equal. apply (cmp_eq_l cmp L). exact H.
Qed.

Lemma cmp_gt_lt a b : cmp a b = Gt <-> cmp b a = Lt.
Proof.
  rewrite (cmp_antisym cmp L a b). destruct (cmp a b); simpl; split; congruence.
Qed.

(** [a <= b] and [b <= c] give [a <= c], with [x <= y] read as
    [cmp x y <> Gt]. *)
Lemma cmp_le_trans a b c : cmp a b <> Gt -> cmp b c <> Gt -> cmp a c <> Gt.
Proof.
  intros Hab Hbc.
  destruct (cmp a b) eqn:Eab; [| |contradiction].
  - rewrite (cmp_eq_l cmp L _ _ c Eab). exact Hbc.
  - destruct (cmp b c) eqn:Ebc; [| |contradiction].
    + rewrite <- (cmp_eq_r a _ _ Ebc), Eab. discriminate.
    + rewrite (cmp_trans cmp L _ _ _ Eab Ebc). discriminate.
Qed.

End order.

Section lexicographic.

Context {A B C : Type} (f : C -> A) (g : C -> B)
        (c1 : A -> A -> comparison) (c2 : B -> B -> comparison)
        (L1 : cmp_laws c1) (L2 : cmp_laws c2).

(** Two total preorders combined lexicographically form one. *)
Lemma lex_laws :
  cmp_laws (fun x y => Semver.lex (c1 (f x) (f y)) (c2 (g x) (g y))).
Proof.
  split.
  - intros a. rewrite (cmp_refl c1 L1), (cmp_refl c2 L2). reflexivity.
  - intros a b. rewrite (cmp_antisym c1 L1 (f a)), (cmp_antisym c2 L2 (g a)).
    destruct (c1 (f a) (f b)); reflexivity.
  - intros a b c H. unfold Semver.lex in *.
    destruct (c1 (f a) (f b)) eqn:E1; try discriminate.
    rewrite (cmp_eq_l c1 L1 _ _ (f c) E1), (cmp_eq_l c2 L2 _ _ (g c) H).
    reflexivity.
  - intros a b c Hab Hbc. unfold Semver.lex in *.
    destruct (c1 (f a) (f b)) eqn:E1; try discriminate.
    + rewrite (cmp_eq_l c1 L1 _ _ (f c) E1).
      destruct (c1 (f b) (f c)); try discriminate; [|reflexivity].
      apply (cmp_trans c2 L2 _ (g b)); assumption.
    + destruct (c1 (f b) (f c)) eqn:E2; try discriminate.
      * rewrite <- (cmp_eq_r c1 L1 (f a) _ _ E2), E1. reflexivity.
      * rewrite (cmp_trans c1 L1 _ _ _ E1 E2). reflexivity.
Qed.

End lexicographic.

Lemma N_compare_laws : cmp_laws N.compare.
Proof.
  split.
  - apply N.compare_refl.
  - intros a b. apply N.compare_antisym.
  - intros a b c ->%N.compare_eq. reflexivity.
  - intros a b c. rewrite !N.compare_lt_iff. lia.
Qed.

Lemma ascii_compare_laws : cmp_laws Ascii.compare.
Proof.
  pose proof N_compare_laws as L. unfold Ascii.compare. split.
  - intros a. apply (cmp_refl _ L).
  - intros a b. apply (cmp_antisym _ L).
  - intros a b c. apply (cmp_eq_l _ L).
  - intros a b c. apply (cmp_trans _ L).
Qed.

Lemma string_compare_laws : cmp_laws String.compare.
Proof.
  pose proof ascii_compare_laws as L. split.
  - induction a as [|x a IH]; simpl; [reflexivity|].
    rewrite (cmp_refl _ L). exact IH.
  - intros a b. apply String.compare_antisym.
  - intros a b c ->%String.compare_eq_iff. reflexivity.
  - induction a as [|x a IH]; intros [|y b] [|z c]; simpl; try congruence.
    destruct (Ascii.compare x y) eqn:Exy; try discriminate.
    + rewrite (cmp_eq_l _ L _ _ z Exy).
      destruct (Ascii.compare y z); try congruence. apply IH.
    + destruct (Ascii.compare y z) eqn:Eyz; try discriminate.
      * rewrite <- (cmp_eq_r _ L x _ _ Eyz), Exy. reflexivity.
      * rewrite (cmp_trans _ L _ _ _ Exy Eyz). reflexivity.
Qed.

Lemma cmp_ident_laws : cmp_laws Semver.cmp_ident.
Proof.
  pose proof N_compare_laws as LN. pose proof string_compare_laws as LS.
  split.
  - intros [n|s]; simpl; [apply (cmp_refl _ LN)|apply (cmp_refl _ LS)].
  - intros [n|s] [m|t]; simpl; try reflexivity;
      [apply (cmp_antisym _ LN)|apply (cmp_antisym _ LS)].
  - intros [n|s] [m|t] [k|u]; simpl; try discriminate; try reflexivity;
      [apply (cmp_eq_l _ LN)|apply (cmp_eq_l _ LS)].
  - intros [n|s] [m|t] [k|u]; simpl; try discriminate; try reflexivity;
      [apply (cmp_trans _ LN)|apply (cmp_trans _ LS)].
Qed.

Lemma cmp_idents_laws : cmp_laws Semver.cmp_idents.
Proof.
  pose proof cmp_ident_laws as L. split.
  - induction a as [|x a IH]; simpl; [reflexivity|].
    rewrite (cmp_refl _ L). exact IH.
  - induction a as [|x a IH]; intros [|y b]; simpl; try reflexivity.
    rewrite (cmp_antisym _ L x y), IH.
    destruct (Semver.cmp_ident x y); reflexivity.
  - induction a as [|x a IH]; intros [|y b] [|z c]; simpl;
      try discriminate; try reflexivity.
    unfold Semver.lex.
    destruct (Semver.cmp_ident x y) eqn:Exy; try discriminate.
    intros Hab. rewrite (cmp_eq_l _ L _ _ z Exy), (IH _ c Hab). reflexivity.
  - induction a as [|x a IH]; intros [|y b] [|z c]; simpl;
      try discriminate; try reflexivity.
    unfold Semver.lex.
    destruct (Semver.cmp_ident x y) eqn:Exy; try discriminate.
    + rewrite (cmp_eq_l _ L _ _ z Exy).
      destruct (Semver.cmp_ident y z); try discriminate; [|reflexivity].
      apply IH.
    + destruct (Semver.cmp_ident y z) eqn:Eyz; try discriminate.
      * rewrite <- (cmp_eq_r _ L x _ _ Eyz), Exy. reflexivity.
      * rewrite (cmp_trans _ L _ _ _ Exy Eyz). reflexivity.
Qed.

Lemma cmp_pre_laws : cmp_laws Semver.cmp_pre.
Proof.
  pose proof cmp_idents_laws as L. split.
  - intros [a|]; simpl; [apply (cmp_refl _ L)|reflexivity].
  - intros [a|] [b|]; simpl; try reflexivity. apply (cmp_antisym _ L).
  - intros [a|] [b|] [c|]; simpl; try discriminate; try reflexivity.
    apply (cmp_eq_l _ L).
  - intros [a|] [b|] [c|]; simpl; try discriminate; try reflexivity.
    apply (cmp_trans _ L).
Qed.

(** [Version.compare] is a total preorder. *)
Lemma compare_laws : cmp_laws Semver.compare.
Proof.
  unfold Semver.compare.
  apply (lex_laws Semver.major (fun v => v) N.compare _ N_compare_laws).
  apply (lex_laws Semver.minor (fun v => v) N.compare _ N_compare_laws).
  apply (lex_laws Semver.patch Semver.prerelease N.compare _ N_compare_laws).
  exact cmp_pre_laws.
Qed.

(* ===================================================================== *)
(** ** The greatest version and the closest previous one *)
(* ===================================================================== *)

(** [max] returns a key of the dict whose version none exceeds. *)
Lemma max_from_spec rest :
  forall best,
    exists v, (max_from best rest, v) ∈ best :: rest
              /\ forall kv, kv ∈ best :: rest -> Semver.gt kv.2 v = false.
Proof.
  pose proof compare_laws as L.
  assert (Hgt : forall a b, Semver.gt a b = false <-> Semver.compare a b <> Gt).
  { intros a b. unfold Semver.gt.
    destruct (Semver.compare a b); split; congruence. }
  induction rest as [|kv rest IH]; intros best; simpl.
  - exists best.2. split; [destruct best; left|].
    intros kv ->%list_elem_of_singleton.
    apply Hgt. rewrite (cmp_refl _ L). discriminate.
  - destruct (Semver.gt kv.2 best.2) eqn:Hcmp.
    + destruct (IH kv) as (v & Hin & Hmax). exists v.
      split; [right; exact Hin|].
      intros x [->|Hx]%elem_of_cons; [|apply Hmax; exact Hx].
      apply Hgt. apply (cmp_le_trans _ L _ kv.2).
      * unfold Semver.gt in Hcmp.
        destruct (Semver.compare kv.2 best.2) eqn:E; try discriminate.
        apply (cmp_gt_lt _ L) in E. rewrite E. discriminate.
      * apply Hgt. apply Hmax. left.
    + destruct (IH best) as (v & Hin & Hmax). exists v. split.
      * apply elem_of_cons in Hin. destruct Hin as [->|Hin]; [left|].
        right; right; exact Hin.
      * intros x [->|[->|Hx]%elem_of_cons]%elem_of_cons.
        -- apply Hmax. left.
        -- apply Hgt. apply (cmp_le_trans _ L _ best.2).
           ++ apply Hgt. exact Hcmp.
           ++ apply Hgt. apply Hmax. left.
        -- apply Hmax. right. exact Hx.
Qed.

Lemma latest_semver_spec d :
  match latest_semver d with
  | Some r => exists v, (r, v) ∈ d
                        /\ forall kv, kv ∈ d -> Semver.gt kv.2 v = false
  | None => d = []
  end.
Proof.
  destruct d as [|kv d]; simpl; [reflexivity|]. apply max_from_spec.
Qed.

(** [d[k] = v] on a dict in insertion order. *)
Lemma elem_of_dict_set {V} k (v : V) d kv :
  kv ∈ dict_set k v d -> kv = (k, v) \/ kv ∈ d.
Proof.
  induction d as [|[k' v'] d IH]; simpl.
  - intros ->%list_elem_of_singleton. left. reflexivity.
  - destruct (String.eqb k k').
    + intros [->|H]%elem_of_cons; [left; reflexivity|right; right; exact H].
    + intros [->|H]%elem_of_cons; [right; left|].
      destruct (IH H) as [->|H']; [left; reflexivity|right; right; exact H'].
Qed.

Lemma dict_set_elem_new {V} k (v : V) d : (k, v) ∈ dict_set k v d.
Proof.
  induction d as [|[k' v'] d IH]; simpl; [left|].
  destruct (String.eqb k k'); [left|right; exact IH].
Qed.

Lemma dict_set_elem_old {V} k (v : V) d k' v' :
  (k', v') ∈ d -> k' <> k -> (k', v') ∈ dict_set k v d.
Proof.
  intros Hin Hne. induction d as [|[k0 v0] d IH]; simpl.
  - inversion Hin.
  - apply elem_of_cons in Hin. destruct (String.eqb_spec k k0) as [->|Hk].
    + destruct Hin as [[= -> ->]|Hin]; [contradiction|right; exact Hin].
    + destruct Hin as [[= -> ->]|Hin]; [left|right; apply IH; exact Hin].
Qed.

(** On a dict that conforms, setting a name to its version adds that pair
    and nothing else. *)
Lemma conforms_dict_set k v d :
  conforms d -> tag_version k = Some v ->
  conforms (dict_set k v d)
  /\ forall kv, kv ∈ dict_set k v d <-> kv = (k, v) \/ kv ∈ d.
Proof.
  intros Hd Hk. split.
  - intros t w [[= -> ->]|H]%elem_of_dict_set; [exact Hk|apply Hd; exact H].
  - intros [t w]. split; [apply elem_of_dict_set|].
    intros [[= -> ->]|H]; [apply dict_set_elem_new|].
    destruct (decide (t = k)) as [->|Hne].
    + assert (w = v) as -> by (apply Hd in H; congruence).
      apply dict_set_elem_new.
    + apply dict_set_elem_old; assumption.
Qed.

(** The dict comprehension raises nothing and collects the names that
    stand for a version, each with its version. *)
Lemma tag_versions_of_spec tags :
  forall acc,
    conforms acc ->
    exists d,
      tag_versions_of tags acc = Ok d
      /\ conforms d
      /\ forall t v, (t, v) ∈ d <->
                     (t ∈ tags /\ tag_version t = Some v) \/ (t, v) ∈ acc.
Proof.
  induction tags as [|name tags IH]; intros acc Hacc; cbn [tag_versions_of].
  - exists acc. split; [reflexivity|]. split; [exact Hacc|].
    intros t v. split; [auto|]. intros [[H _]|H]; [inversion H|exact H].
  - rewrite _clean_tag_strip_v, !bind_Ok_l. unfold Semver.is_valid.
    destruct (Semver.parse (strip_v name)) as [ver|] eqn:Hparse.
    + assert (Hname : tag_version name = Some ver).
      { unfold tag_version. rewrite _clean_tag_strip_v. exact Hparse. }
      destruct (conforms_dict_set name ver acc Hacc Hname) as [Hc Hmem].
      destruct (IH _ Hc) as (d & -> & Hd & Hin). exists d.
      split; [reflexivity|]. split; [exact Hd|].
      intros t v. rewrite Hin, Hmem, elem_of_cons. split.
      * intros [[H1 H2]|[[= -> ->]|H]]; auto.
      * intros [[[->|H1] H2]|H]; auto.
        right. left. congruence.
    + destruct (IH _ Hacc) as (d & -> & Hd & Hin). exists d.
      split; [reflexivity|]. split; [exact Hd|].
      intros t v. rewrite Hin, elem_of_cons. split.
      * intros [[H1 H2]|H]; auto.
      * intros [[[->|H1] H2]|H]; auto.
        unfold tag_version in H2. rewrite _clean_tag_strip_v in H2. congruence.
Qed.

(** The candidates of [closest_previous_semver] are the entries below the
    target. *)
Lemma candidates_spec target versions :
  forall acc,
    conforms versions -> conforms acc ->
    forall kv,
      kv ∈ fold_left
             (fun candidates '(tag, version) =>
                if Semver.lt version target
                then dict_set tag version candidates else candidates)
             versions acc
      <-> (kv ∈ versions /\ Semver.lt kv.2 target = true) \/ kv ∈ acc.
Proof.
  induction versions as [|[t v] versions IH]; intros acc Hv Hacc kv; simpl.
  - split; [auto|]. intros [[H _]|H]; [inversion H|exact H].
  - assert (Hv' : conforms versions) by (intros ? ? ?; apply Hv; right; assumption).
    assert (Ht : tag_version t = Some v) by (apply Hv; left).
    destruct (Semver.lt v target) eqn:Hlt.
    + destruct (conforms_dict_set t v acc Hacc Ht) as [Hc Hmem].
      rewrite (IH _ Hv' Hc), Hmem, elem_of_cons. split.
      * intros [[H1 H2]|[->|H]]; auto.
      * intros [[[->|H1] H2]|H]; auto.
    + rewrite (IH _ Hv' Hacc), elem_of_cons. split.
      * intros [[H1 H2]|H]; auto.
      * intros [[[->|H1] H2]|H]; auto. simpl in H2. congruence.
Qed.

(* ===================================================================== *)
(** ** The characters of a valid tag *)
(* ===================================================================== *)

Section characters.

Import Semver.

Lemma all_str_mono (P Q : ascii -> bool) s :
  (forall c, P c = true -> Q c = true) ->
  all_str P s = true -> all_str Q s = true.
Proof.
  intros HPQ. induction s as [|c s IH]; simpl; [reflexivity|].
  intros [Hc Hs]%andb_prop. rewrite (HPQ _ Hc), (IH Hs). reflexivity.
Qed.

Lemma all_str_split_char (P : ascii -> bool) sep s :
  P sep = true ->
  forallb (all_str P) (split_char sep s) = true -> all_str P s = true.
Proof.
  intros Hsep. induction s as [|c s IH]; simpl; [reflexivity|].
  destruct (Ascii.eqb_spec c sep) as [->|Hne]; simpl.
  - intros H. rewrite Hsep, (IH H). reflexivity.
  - destruct (split_char sep s) as [|p ps]; simpl in *.
    + rewrite !andb_true_r. intros ->. rewrite IH; reflexivity.
    + intros [[Hc Hp]%andb_prop Hps]%andb_prop.
      rewrite Hc, IH; [reflexivity|]. rewrite Hp, Hps. reflexivity.
Qed.

Lemma all_str_split_first (P : ascii -> bool) sep s :
  forall a b,
    split_first sep s = (a, b) ->
    P sep = true -> all_str P a = true ->
    (forall x, b = Some x -> all_str P x = true) ->
    all_str P s = true.
Proof.
  induction s as [|c s IH]; intros a b; simpl; [reflexivity|].
  destruct (Ascii.eqb_spec c sep) as [->|Hne].
  - intros [= <- <-] Hsep _ Hb. rewrite Hsep, (Hb s eq_refl). reflexivity.
  - destruct (split_first sep s) as [a' b'] eqn:Hs.
    intros [= <- <-] Hsep Ha Hb. simpl in Ha.
    apply andb_prop in Ha. destruct Ha as [Hc Ha'].
    rewrite Hc, (IH a' b' eq_refl Hsep Ha' Hb). reflexivity.
Qed.

Lemma numeric_digits x : numeric x = true -> all_str is_digit x = true.
Proof.
  destruct x as [|c r]; [discriminate|]. unfold numeric.
  intros [H _]%andb_prop. exact H.
Qed.

Lemma digit_semver_char c : is_digit c = true -> semver_char c = true.
Proof. intros H. unfold semver_char, ident_char. rewrite H. reflexivity. Qed.

Lemma ident_semver_char c : ident_char c = true -> semver_char c = true.
Proof. intros H. unfold semver_char. rewrite H. reflexivity. Qed.

Lemma opt_ok_chars test o :
  (forall x, test x = true -> all_str ident_char x = true) ->
  opt_ok test o = true ->
  forall x, o = Some x -> all_str semver_char x = true.
Proof.
  intros Htest Hok x ->. simpl in Hok.
  apply (all_str_split_char _ "."); [reflexivity|].
  apply forallb_forall. intros p Hp.
  apply (all_str_mono ident_char); [apply ident_semver_char|].
  apply Htest. eapply forallb_forall in Hok; eassumption.
Qed.

(** A string that parses as a version is made of version characters. *)
Lemma parse_chars s v : parse s = Some v -> all_str semver_char s = true.
Proof.
  unfold parse.
  destruct (split_first "+" s) as [s1 bld] eqn:H1.
  destruct (split_first "-" s1) as [core pre] eqn:H2.
  destruct (split_char "." core) as [|a [|b [|c [|? ?]]]] eqn:H3;
    try discriminate.
  destruct (numeric a && numeric b && numeric c && opt_ok pre_ident_ok pre
            && opt_ok build_ident_ok bld) eqn:Hok; [|discriminate].
  intros _.
  apply andb_prop in Hok. destruct Hok as [Hok Hbld].
  apply andb_prop in Hok. destruct Hok as [Hok Hpre].
  apply andb_prop in Hok. destruct Hok as [Hok Hc].
  apply andb_prop in Hok. destruct Hok as [Ha Hb].
  apply (all_str_split_first _ _ _ _ _ H1); [reflexivity| |].
  - apply (all_str_split_first _ _ _ _ _ H2); [reflexivity| |].
    + apply (all_str_split_char _ "."); [reflexivity|]. rewrite H3. simpl.
      rewrite !(all_str_mono is_digit semver_char _ digit_semver_char)
        by (apply numeric_digits; assumption).
      reflexivity.
    + apply (opt_ok_chars pre_ident_ok); [|exact Hpre].
      intros x [[_ Hx]%andb_prop _]%andb_prop. exact Hx.
  - apply (opt_ok_chars build_ident_ok); [|exact Hbld].
    intros x [_ Hx]%andb_prop. exact Hx.
Qed.

Lemma semver_char_plain c :
  semver_char c = true -> negb (Ascii.eqb c "\") = true.
Proof.
  destruct (Ascii.eqb_spec c "\") as [->|_]; [|reflexivity].
  vm_compute. discriminate.
Qed.

(** The name of a valid tag has no backslash and is not empty. *)
Lemma valid_tag_plain t v :
  tag_version t = Some v -> plain t = true /\ truthy t = true.
Proof.
  unfold tag_version. rewrite _clean_tag_strip_v.
  destruct t as [|c r]; [vm_compute; discriminate|].
  intros Hparse. split; [|reflexivity].
  pose proof (parse_chars _ _ Hparse) as Hchars.
  unfold plain. unfold strip_v in Hchars.
  destruct (Ascii.eqb c "v" || Ascii.eqb c "V") eqn:Hv.
  - simpl. rewrite (all_str_mono _ _ _ semver_char_plain Hchars), andb_true_r.
    apply orb_prop in Hv.
    destruct Hv as [->%Ascii.eqb_eq| ->%Ascii.eqb_eq]; reflexivity.
  - exact (all_str_mono _ _ _ semver_char_plain Hchars).
Qed.

End characters.

(* ===================================================================== *)
(** ** The commit range *)
(* ===================================================================== *)

Lemma tag_version_parse t : tag_version t = Semver.parse (strip_v t).
Proof. unfold tag_version. rewrite _clean_tag_strip_v. reflexivity. Qed.




(** C7, as stated, fails: stripping the leading [~..] from [~..HEAD]
    leaves [HEAD], not [..HEAD]. *)
Lemma C7_counterexample :
  process_commits_str "~..HEAD" "v1.5.0" []
  = Ok ("HEAD",
        [print_color WARNING
           "No valid semver tags found, starting from beginning to commit 'HEAD'"])
  /\ (fst <$> process_commits_str "~..HEAD" "v1.5.0" []) <> Ok "..HEAD".
Proof. split; [vm_compute; reflexivity|]. vm_compute. discriminate. Qed.

(** C7, amended: with a release title that is a valid version, such as
    v1.5.0, and no valid tag, the resolver returns the range without its
    leading [~..], so [~..HEAD] resolves to [HEAD]; it writes one warning
    line to the diagnostic stream and raises nothing. *)
Theorem C7_no_valid_tag_strips_prefix
    (rest release_title : string) (tags : list string)
    (target : Semver.Version) :
  tag_version release_title = Some target ->
  (forall t, t ∈ tags -> tag_version t = None) ->
  process_commits_str ("~.." +:+ rest) release_title tags
  = Ok (rest,
        [print_color WARNING
           ("No valid semver tags found, starting from beginning to commit '"
            +:+ rest +:+ "'")]).
Proof.
  intros Htitle Hnone.
  rewrite tag_version_parse in Htitle.
  assert (Hnil : conforms []) by (intros ? ? H; inversion H).
  destruct (tag_versions_of_spec tags [] Hnil) as (d & Hd & _ & Hin).
  assert (d = []) as ->.
  { destruct d as [|[t v] d]; [reflexivity|]. exfalso.
    destruct (proj1 (Hin t v)) as [[Ht Hv]|H]; [left| |inversion H].
    rewrite (Hnone t Ht) in Hv. discriminate. }
  unfold process_commits_str.
  change ("~.." +:+ rest) with (String "~" (String "." (String "." rest))).
  cbn [startswith Ascii.eqb Bool.eqb andb].
  rewrite _clean_tag_strip_v, bind_Ok_l, Hd, bind_Ok_l, Htitle.
  cbn [closest_previous_semver fold_left latest_semver].
  rewrite re_sub_tilde_dots, bind_Ok_l. reflexivity.
Qed.

Lemma C7_witness :
  process_commits_str ("~.." +:+ "HEAD") "v1.5.0" ["nightly"; "v2"]
  = Ok ("HEAD",
        [print_color WARNING
           ("No valid semver tags found, starting from beginning to commit '"
            +:+ "HEAD" +:+ "'")]).
Proof.
  apply (C7_no_valid_tag_strips_prefix "HEAD" "v1.5.0" ["nightly"; "v2"]
           {| Semver.major := 1; Semver.minor := 5; Semver.patch := 0;
              Semver.prerelease := None; Semver.build := None |}).
  - vm_compute. reflexivity.
  - intros t Ht. repeat (apply elem_of_cons in Ht; destruct Ht as [->|Ht]);
      [vm_compute; reflexivity..|inversion Ht].
Defined.

(* ===================================================================== *)
(** ** More on the tags and the commit range *)
(* ===================================================================== *)

(** X1: [_clean_tag] raises nothing and removes one leading [v] or [V],
    and only that: a second [v] stays, and a name that begins with
    another character comes back whole. *)
Theorem X1_clean_tag_one_leading_v (c : ascii) (r : string) :
  _clean_tag EmptyString = Ok EmptyString
  /\ _clean_tag (String "v" r) = Ok r
  /\ _clean_tag (String "V" r) = Ok r
  /\ (c <> "v"%char -> c <> "V"%char ->
      _clean_tag (String c r) = Ok (String c r)).
Proof.
  rewrite !_clean_tag_strip_v. repeat split.
  intros Hv HV. simpl.
  apply Ascii.eqb_neq in Hv. apply Ascii.eqb_neq in HV.
  rewrite Hv, HV. reflexivity.
Qed.

Lemma X1_witness : _clean_tag "1.2.0" = Ok "1.2.0".
Proof.
  apply (proj2 (proj2 (proj2 (X1_clean_tag_one_leading_v "1" ".2.0"))));
    discriminate.
Defined.

Lemma cmp_le_lt_trans {A} (cmp : A -> A -> comparison) (L : cmp_laws cmp)
    a b c :
  cmp a b <> Gt -> cmp b c = Lt -> cmp a c = Lt.
Proof.
  intros Hab Hbc. destruct (cmp a b) eqn:Eab; [| |contradiction].
  - rewrite (cmp_eq_l cmp L _ _ c Eab). exact Hbc.
  - apply (cmp_trans cmp L _ b); assumption.
Qed.

Lemma gt_false_iff a b : Semver.gt a b = false <-> Semver.compare a b <> Gt.
Proof.
  unfold Semver.gt. destruct (Semver.compare a b); split; congruence.
Qed.

Lemma lt_true_iff a b : Semver.lt a b = true <-> Semver.compare a b = Lt.
Proof.
  unfold Semver.lt. destruct (Semver.compare a b); split; congruence.
Qed.

(** [max] keeps the first of the keys with the greatest version: the
    entries before it are strictly below, those after it not above. *)
Lemma max_from_first rest :
  forall pre0 mid best,
    (forall kv, kv ∈ pre0 -> Semver.lt kv.2 best.2 = true) ->
    (forall kv, kv ∈ mid -> Semver.gt kv.2 best.2 = false) ->
    exists pre v post,
      pre0 ++ best :: mid ++ rest = pre ++ (max_from best rest, v) :: post
      /\ (forall kv, kv ∈ pre -> Semver.lt kv.2 v = true)
      /\ (forall kv, kv ∈ post -> Semver.gt kv.2 v = false).
Proof.
  pose proof compare_laws as L.
  induction rest as [|kv rest IH]; intros pre0 mid best Hpre Hmid; simpl.
  - exists pre0, best.2, mid. rewrite app_nil_r. destruct best. auto.
  - destruct (Semver.gt kv.2 best.2) eqn:Hcmp.
    + assert (Hlt : Semver.compare best.2 kv.2 = Lt).
      { unfold Semver.gt in Hcmp.
        destruct (Semver.compare kv.2 best.2) eqn:E; try discriminate.
        apply (cmp_gt_lt _ L). exact E. }
      destruct (IH (pre0 ++ best :: mid) [] kv) as (pre & v & post & Heq & H1 & H2).
      * intros x [Hx|[->|Hx]%elem_of_cons]%elem_of_app; apply lt_true_iff.
        -- apply (cmp_trans _ L _ best.2); [|exact Hlt].
           apply lt_true_iff. apply Hpre. exact Hx.
        -- exact Hlt.
        -- apply (cmp_le_lt_trans _ L _ best.2); [|exact Hlt].
           apply gt_false_iff. apply Hmid. exact Hx.
      * intros x Hx. inversion Hx.
      * exists pre, v, post. split; [|auto].
        rewrite <- Heq. simpl. rewrite <- !app_assoc. reflexivity.
    + destruct (IH pre0 (mid ++ [kv]) best) as (pre & v & post & Heq & H1 & H2).
      * exact Hpre.
      * intros x [Hx| ->%list_elem_of_singleton]%elem_of_app; auto.
      * exists pre, v, post. split; [|auto].
        rewrite <- Heq, <- !app_assoc. reflexivity.
Qed.

(** X2: [latest_semver] returns [None] on the empty dict only; otherwise
    it returns the first key, in iteration order, that has the greatest
    version: every entry before it is strictly below and no entry after
    it is above. *)
Theorem X2_latest_semver_first_greatest
    (versions : list (string * Semver.Version)) :
  (latest_semver versions = None <-> versions = [])
  /\ forall r,
       latest_semver versions = Some r ->
       exists pre v post,
         versions = pre ++ (r, v) :: post
         /\ (forall kv, kv ∈ pre -> Semver.lt kv.2 v = true)
         /\ (forall kv, kv ∈ post -> Semver.gt kv.2 v = false).
Proof.
  destruct versions as [|kv rest]; simpl.
  - split; [split; reflexivity|]. discriminate.
  - split; [split; discriminate|]. intros r [= <-].
    destruct (max_from_first rest [] [] kv) as (pre & v & post & Heq & H1 & H2).
    + intros x Hx. inversion Hx.
    + intros x Hx. inversion Hx.
    + exists pre, v, post. auto.
Qed.

Lemma X2_witness :
  exists pre v post,
    [("1.0.0", {| Semver.major := 1; Semver.minor := 0; Semver.patch := 0;
                  Semver.prerelease := None; Semver.build := None |});
     ("v1.0.0", {| Semver.major := 1; Semver.minor := 0; Semver.patch := 0;
                   Semver.prerelease := None; Semver.build := None |})]
    = pre ++ ("1.0.0", v) :: post
    /\ (forall kv, kv ∈ pre -> Semver.lt kv.2 v = true)
    /\ (forall kv, kv ∈ post -> Semver.gt kv.2 v = false).
Proof.
  apply (proj2 (X2_latest_semver_first_greatest _) "1.0.0"). reflexivity.
Defined.


Lemma dict_set_keys {V} k (v : V) d :
  forall k', k' ∈ (dict_set k v d).*1 <-> k' = k \/ k' ∈ d.*1.
Proof.
  induction d as [|[k0 v0] d IH]; intros k'; simpl.
  - rewrite list_elem_of_singleton. rewrite elem_of_nil. tauto.
  - destruct (String.eqb_spec k k0) as [->|Hne]; simpl.
    + rewrite !elem_of_cons. tauto.
    + rewrite !elem_of_cons, IH. tauto.
Qed.

(** Setting a key keeps the keys distinct. *)
Lemma dict_set_NoDup {V} k (v : V) d :
  NoDup d.*1 -> NoDup (dict_set k v d).*1.
Proof.
  induction d as [|[k0 v0] d IH]; simpl.
  - intros _. apply NoDup_singleton.
  - intros [Hk0 Hd]%NoDup_cons.
    destruct (String.eqb_spec k k0) as [->|Hne]; simpl.
    + apply NoDup_cons. auto.
    + apply NoDup_cons. split; [|auto].
      rewrite dict_set_keys. intros [->|H]; [congruence|contradiction].
Qed.




Lemma tag_versions_of_NoDup tags :
  forall acc d,
    NoDup acc.*1 -> tag_versions_of tags acc = Ok d -> NoDup d.*1.
Proof.
  induction tags as [|name tags IH]; intros acc d Hacc; cbn [tag_versions_of].
  - intros [= <-]. exact Hacc.
  - rewrite _clean_tag_strip_v, !bind_Ok_l. unfold Semver.is_valid.
    destruct (Semver.parse (strip_v name)) as [ver|].
    + apply IH. apply dict_set_NoDup. exact Hacc.
    + apply IH. exact Hacc.
Qed.

(** X4: the dict comprehension of [process_commits_str] raises nothing,
    whatever the tag names; its keys are distinct and are exactly the
    names that stand for a valid version after [_clean_tag], each with
    that version. *)
Theorem X4_tag_versions_are_the_valid_tags (tags : list string) :
  exists d,
    tag_versions_of tags [] = Ok d
    /\ NoDup d.*1
    /\ forall t v, (t, v) ∈ d <-> t ∈ tags /\ tag_version t = Some v.
Proof.
  assert (Hnil : conforms []) by (intros ? ? H; inversion H).
  destruct (tag_versions_of_spec tags [] Hnil) as (d & Hd & _ & Hin).
  exists d. split; [exact Hd|]. split.
  - eapply tag_versions_of_NoDup; [|exact Hd]. apply NoDup_nil. exact I.
  - intros t v. rewrite Hin. split; [|auto].
    intros [H|H]; [exact H|inversion H].
Qed.

Lemma startswith_tilde_dots s :
  startswith "~.." s = true -> exists rest, s = "~.." +:+ rest.
Proof.
  destruct s as [|a [|b [|c rest]]]; try discriminate;
    cbn [startswith]; try (rewrite ?andb_false_r; discriminate).
  intros [Ha [Hb [Hc _]%andb_prop]%andb_prop]%andb_prop.
  apply Ascii.eqb_eq in Ha, Hb, Hc. subst. exists rest. reflexivity.
Qed.

(** The four ways [process_commits_str] ends on a range that begins with
    [~..]: none of them raises. *)
Lemma process_commits_str_cases rest release_title tags :
  exists d,
    tag_versions_of tags [] = Ok d
    /\ conforms d
    /\ (forall t v, (t, v) ∈ d <-> t ∈ tags /\ tag_version t = Some v)
    /\ process_commits_str ("~.." +:+ rest) release_title tags
       = match tag_version release_title with
         | Some target =>
             match closest_previous_semver target d with
             | Some r =>
                 Ok (r +:+ ".." +:+ rest,
                     [print_color WARNING
                        ("Using commit range '" +:+ (r +:+ ".." +:+ rest)
                         +:+ "'")])
             | None =>
                 Ok (rest,
                     [print_color WARNING
                        ("No valid semver tags found, starting from beginning to commit '"
                         +:+ rest +:+ "'")])
             end
         | None =>
             match latest_semver d with
             | Some r =>
                 Ok (r +:+ ".." +:+ rest,
                     [print_color WARNING
                        ("Release title is not a valid semver, using latest semver tag '"
                         +:+ (r +:+ ".." +:+ rest) +:+ "'")])
             | None =>
                 Ok (rest,
                     [print_color WARNING
                        ("No valid semver release title or tags found, starting from beginning to commit '"
                         +:+ rest +:+ "'")])
             end
         end.
Proof.
  assert (Hnil : conforms []) by (intros ? ? H; inversion H).
  destruct (tag_versions_of_spec tags [] Hnil) as (d & Hd & Hconf & Hin).
  exists d. split; [exact Hd|]. split; [exact Hconf|]. split.
  { intros t v. rewrite Hin. split; [|auto].
    intros [H|H]; [exact H|inversion H]. }
  rewrite tag_version_parse. unfold process_commits_str.
  change ("~.." +:+ rest) with (String "~" (String "." (String "." rest))).
  cbn [startswith Ascii.eqb Bool.eqb andb].
  rewrite _clean_tag_strip_v, bind_Ok_l, Hd, bind_Ok_l.
  assert (Hkey : forall r v, (r, v) ∈ d ->
            Re.re_sub "^~" r (String "~" (String "." (String "." rest)))
            = Ok (r +:+ ".." +:+ rest) /\ truthy r = true).
  { intros r v Hr. destruct (valid_tag_plain r v (Hconf _ _ Hr)) as [Hp Ht].
    rewrite (re_sub_tilde _ _ Hp). auto. }
  destruct (Semver.parse (strip_v release_title)) as [target|].
  - pose proof (candidates_spec target d [] Hconf Hnil) as Hcand.
    unfold closest_previous_semver.
    match goal with |- context [latest_semver ?c] =>
      pose proof (latest_semver_spec c) as Hmax;
      destruct (latest_semver c) as [r|]
    end.
    + destruct Hmax as (vr & Hr & _).
      apply Hcand in Hr. destruct Hr as [[Hr _]|Hr]; [|inversion Hr].
      destruct (Hkey _ _ Hr) as [-> ->]. rewrite bind_Ok_l. reflexivity.
    + rewrite re_sub_tilde_dots, bind_Ok_l. reflexivity.
  - pose proof (latest_semver_spec d) as Hmax.
    destruct (latest_semver d) as [r|].
    + destruct Hmax as (vr & Hr & _).
      destruct (Hkey _ _ Hr) as [-> ->]. rewrite bind_Ok_l. reflexivity.
    + rewrite re_sub_tilde_dots, bind_Ok_l. reflexivity.
Qed.

(** X5: on a release title and tag names of printable ASCII characters
    and of at most 4300 characters (so that every [int()] of the version
    comparison is within CPython's limit), [process_commits_str] raises
    nothing, whatever the range.  A range that does not begin with [~..]
    comes back unchanged with nothing written to the diagnostic stream; a
    range that does gets exactly one warning line. *)
Theorem X5_process_commits_str_total
    (commits_str release_title : string) (tags : list string) :
  name_ok release_title = true ->
  Forall (fun t => name_ok t = true) tags ->
  exists r w,
    process_commits_str commits_str release_title tags = Ok (r, w)
    /\ (startswith "~.." commits_str = false -> r = commits_str /\ w = [])
    /\ (startswith "~.." commits_str = true -> length w = 1).
Proof.
  intros _ _.
  destruct (startswith "~.." commits_str) eqn:Hs.
  - destruct (startswith_tilde_dots _ Hs) as [rest ->].
    destruct (process_commits_str_cases rest release_title tags)
      as (d & _ & _ & _ & ->).
    destruct (tag_version release_title) as [target|].
    + destruct (closest_previous_semver target d);
        eexists _, _; (split; [reflexivity|]); split; auto; discriminate.
    + destruct (latest_semver d);
        eexists _, _; (split; [reflexivity|]); split; auto; discriminate.
  - exists commits_str, []. unfold process_commits_str. rewrite Hs.
    split; [reflexivity|]. split; [auto|discriminate].
Qed.

Lemma X5_witness :
  exists r w,
    process_commits_str "~..HEAD" "v1.5.0" ["v1.0.0"; "v1.2.0-rc.1"; "nightly"]
    = Ok (r, w)
    /\ (startswith "~.." "~..HEAD" = false -> r = "~..HEAD" /\ w = [])
    /\ (startswith "~.." "~..HEAD" = true -> length w = 1).
Proof.
  apply (X5_process_commits_str_total "~..HEAD" "v1.5.0"
           ["v1.0.0"; "v1.2.0-rc.1"; "nightly"]).
  - vm_compute. reflexivity.
  - repeat (apply Forall_cons; split; [vm_compute; reflexivity|]).
    apply Forall_nil. exact I.
Defined.

(** X6: when the release title is not a valid version (such as the
    default [vX.Y.Z]) and some tag is, the tilde is replaced by a valid tag
    that no valid tag exceeds, with the warning that the latest tag is
    used. *)
Theorem X6_invalid_title_uses_latest_tag
    (rest release_title : string) (tags : list string) :
  tag_version release_title = None ->
  (exists t v, t ∈ tags /\ tag_version t = Some v) ->
  exists r vr,
    process_commits_str ("~.." +:+ rest) release_title tags
    = Ok (r +:+ ".." +:+ rest,
          [print_color WARNING
             ("Release title is not a valid semver, using latest semver tag '"
              +:+ (r +:+ ".." +:+ rest) +:+ "'")])
    /\ r ∈ tags
    /\ tag_version r = Some vr
    /\ forall t v, t ∈ tags -> tag_version t = Some v ->
                   Semver.gt v vr = false.
Proof.
  intros Htitle (t0 & v0 & Ht0 & Hv0).
  destruct (process_commits_str_cases rest release_title tags)
    as (d & _ & _ & Hin & ->).
  rewrite Htitle. pose proof (latest_semver_spec d) as Hmax.
  destruct (latest_semver d) as [r|].
  - destruct Hmax as (vr & Hr & Hmax). exists r, vr.
    apply Hin in Hr. destruct Hr as [Hr Hvr].
    split; [reflexivity|]. split; [exact Hr|]. split; [exact Hvr|].
    intros t v Ht Hv. apply (Hmax (t, v)). apply Hin. auto.
  - exfalso. assert (Hc : (t0, v0) ∈ d) by (apply Hin; auto).
    rewrite Hmax in Hc. inversion Hc.
Qed.

Lemma X6_witness :
  exists r vr,
    process_commits_str ("~.." +:+ "HEAD") "vX.Y.Z" ["v1.0.0"; "v2.0.0"]
    = Ok (r +:+ ".." +:+ "HEAD",
          [print_color WARNING
             ("Release title is not a valid semver, using latest semver tag '"
              +:+ (r +:+ ".." +:+ "HEAD") +:+ "'")])
    /\ r ∈ ["v1.0.0"; "v2.0.0"]
    /\ tag_version r = Some vr
    /\ forall t v, t ∈ ["v1.0.0"; "v2.0.0"] -> tag_version t = Some v ->
                   Semver.gt v vr = false.
Proof.
  apply (X6_invalid_title_uses_latest_tag "HEAD" "vX.Y.Z" ["v1.0.0"; "v2.0.0"]).
  - vm_compute. reflexivity.
  - exists "v1.0.0",
      {| Semver.major := 1; Semver.minor := 0; Semver.patch := 0;
         Semver.prerelease := None; Semver.build := None |}.
    split; [left|vm_compute; reflexivity].
Defined.

(** X7: on a release title and tag names of printable ASCII characters
    and of at most 4300 characters, with a valid release title and no valid
    tag strictly below it (the tags may well be above, or equal), the range
    loses its leading [~..] and starts from the beginning, with the warning
    that no valid tag was found. *)
Theorem X7_no_tag_below_title_strips_prefix
    (rest release_title : string) (tags : list string)
    (target : Semver.Version) :
  name_ok release_title = true ->
  Forall (fun t => name_ok t = true) tags ->
  tag_version release_title = Some target ->
  (forall t v, t ∈ tags -> tag_version t = Some v ->
               Semver.lt v target = false) ->
  process_commits_str ("~.." +:+ rest) release_title tags
  = Ok (rest,
        [print_color WARNING
           ("No valid semver tags found, starting from beginning to commit '"
            +:+ rest +:+ "'")]).
Proof.
  intros _ _ Htitle Hnone.
  destruct (process_commits_str_cases rest release_title tags)
    as (d & _ & Hconf & Hin & ->).
  rewrite Htitle.
  assert (Hnil : conforms []) by (intros ? ? H; inversion H).
  pose proof (candidates_spec target d [] Hconf Hnil) as Hcand.
  unfold closest_previous_semver.
  match goal with |- context [latest_semver ?c] =>
    pose proof (latest_semver_spec c) as Hmax;
    destruct (latest_semver c) as [r|]
  end; [|reflexivity].
  exfalso. destruct Hmax as (vr & Hr & _).
  apply Hcand in Hr. destruct Hr as [[Hr Hlt]|Hr]; [|inversion Hr].
  apply Hin in Hr. destruct Hr as [Hr Hvr].
  simpl in Hlt. rewrite (Hnone _ _ Hr Hvr) in Hlt. discriminate.
Qed.

Lemma X7_witness :
  process_commits_str ("~.." +:+ "HEAD") "v1.0.0" ["v1.0.0"; "v2.0.0"]
  = Ok ("HEAD",
        [print_color WARNING
           ("No valid semver tags found, starting from beginning to commit '"
            +:+ "HEAD" +:+ "'")]).
Proof.
  apply (X7_no_tag_below_title_strips_prefix "HEAD" "v1.0.0"
           ["v1.0.0"; "v2.0.0"]
           {| Semver.major := 1; Semver.minor := 0; Semver.patch := 0;
              Semver.prerelease := None; Semver.build := None |}).
  - vm_compute. reflexivity.
  - repeat (apply Forall_cons; split; [vm_compute; reflexivity|]).
    apply Forall_nil. exact I.
  - vm_compute. reflexivity.
  - intros t v Ht.
    repeat (apply elem_of_cons in Ht; destruct Ht as [->|Ht]);
      [intros [= <-]; vm_compute; reflexivity..|inversion Ht].
Defined.

(** X8: with a release title that is not a valid version and no valid
    tag, the range loses its leading [~..], with the warning that neither
    the title nor a tag was a valid version. *)
Theorem X8_nothing_valid_strips_prefix
    (rest release_title : string) (tags : list string) :
  tag_version release_title = None ->
  (forall t, t ∈ tags -> tag_version t = None) ->
  process_commits_str ("~.." +:+ rest) release_title tags
  = Ok (rest,
        [print_color WARNING
           ("No valid semver release title or tags found, starting from beginning to commit '"
            +:+ rest +:+ "'")]).
Proof.
  intros Htitle Hnone.
  destruct (process_commits_str_cases rest release_title tags)
    as (d & _ & _ & Hin & ->).
  rewrite Htitle. pose proof (latest_semver_spec d) as Hmax.
  destruct (latest_semver d) as [r|]; [|reflexivity].
  exfalso. destruct Hmax as (vr & Hr & _).
  apply Hin in Hr. destruct Hr as [Hr Hvr].
  rewrite (Hnone _ Hr) in Hvr. discriminate.
Qed.

Lemma X8_witness :
  process_commits_str ("~.." +:+ "HEAD") "vX.Y.Z" ["nightly"]
  = Ok ("HEAD",
        [print_color WARNING
           ("No valid semver release title or tags found, starting from beginning to commit '"
            +:+ "HEAD" +:+ "'")]).
Proof.
  apply (X8_nothing_valid_strips_prefix "HEAD" "vX.Y.Z" ["nightly"]).
  - vm_compute. reflexivity.
  - intros t ->%list_elem_of_singleton. vm_compute. reflexivity.
Defined.

(* ===================================================================== *)
(** ** More on the capture stages *)
(* ===================================================================== *)

Lemma pre_capture_loop_done title pcs trim :
  pre_capture_loop title pcs trim true = Ok title.
Proof. destruct pcs; reflexivity. Qed.

Lemma pre_capture_loop_skip title pre :
  forall pcs trim,
    Forall (fun pc => Re.re_match ("^" +:+ pc) title = Ok None) pre ->
    pre_capture_loop title (pre ++ pcs) trim false
    = pre_capture_loop title pcs trim false.
Proof.
  induction pre as [|pc pre IH]; intros pcs trim Hpre; [reflexivity|].
  apply Forall_cons in Hpre. destruct Hpre as [Hpc Hpre].
  cbn [app pre_capture_loop]. rewrite Hpc, bind_Ok_l. apply IH. exact Hpre.
Qed.

(** X9: when every pre-capture pattern compiles and none matches the
    title at its start, [process_pre_capture] returns the title
    unchanged. *)
Theorem X9_pre_capture_no_match
    (title trim : string) (pre_captures : list string) :
  Forall (fun pc => Re.re_match ("^" +:+ pc) title = Ok None) pre_captures ->
  process_pre_capture title pre_captures trim = Ok title.
Proof.
  intros H. unfold process_pre_capture.
  rewrite <- (app_nil_r pre_captures), (pre_capture_loop_skip _ _ _ _ H).
  reflexivity.
Qed.

Lemma X9_witness :
  process_pre_capture "feat: add login" ["\[skip ci\]"; "WIP:"] "\s+"
  = Ok "feat: add login".
Proof.
  apply X9_pre_capture_no_match.
  repeat (apply Forall_cons; split; [vm_compute; reflexivity|]).
  apply Forall_nil. exact I.
Defined.

(** X10: the first pre-capture pattern that matches is the only one
    applied: the patterns listed after it are not matched against the
    title, not even compiled, so the result is that of the matching pattern
    alone. *)
Theorem X10_pre_capture_first_match_wins
    (title trim pc : string) (pre rest : list string) (m : Re.Match) :
  Forall (fun p => Re.re_match ("^" +:+ p) title = Ok None) pre ->
  Re.re_match ("^" +:+ pc) title = Ok (Some m) ->
  process_pre_capture title (pre ++ pc :: rest) trim
  = process_pre_capture title [pc] trim.
Proof.
  intros Hpre Hpc. unfold process_pre_capture.
  rewrite (pre_capture_loop_skip _ _ _ _ Hpre).
  cbn [pre_capture_loop]. rewrite Hpc, !bind_Ok_l.
  destruct (Re.re_split ("^" +:+ pc) title) as [parts|e]; [|reflexivity].
  rewrite !bind_Ok_l.
  destruct (str_item (parts !! 1)) as [t|e]; [|reflexivity].
  rewrite !bind_Ok_l.
  destruct (Re.re_sub ("^" +:+ trim) "" t) as [t'|e]; [|reflexivity].
  rewrite !bind_Ok_l, !pre_capture_loop_done. reflexivity.
Qed.

Lemma X10_witness :
  process_pre_capture "WIP: feat: add login" ["\[skip ci\]"; "WIP:"; "(("] "\s+"
  = process_pre_capture "WIP: feat: add login" ["WIP:"] "\s+".
Proof.
  apply (X10_pre_capture_first_match_wins "WIP: feat: add login" "\s+" "WIP:"
           ["\[skip ci\]"] ["(("]
           {| Re.m_start := 0; Re.m_end := 4; Re.m_rest := " feat: add login";
              Re.m_groups := [] |}).
  - apply Forall_cons; split; [vm_compute; reflexivity|].
    apply Forall_nil. exact I.
  - vm_compute. reflexivity.
Defined.

Lemma type_capture_loop_done st tcs trim allow sup :
  tl_already_type_captured st = true ->
  type_capture_loop st tcs trim allow sup = Ok st.
Proof. intros H. destruct tcs; simpl; [|rewrite H]; reflexivity. Qed.

Lemma type_capture_loop_skip st pre :
  forall tcs trim allow sup,
    tl_already_type_captured st = false ->
    Forall (fun tc => Re.re_match ("^" +:+ tc) (tl_title st) = Ok None) pre ->
    type_capture_loop st (pre ++ tcs) trim allow sup
    = type_capture_loop st tcs trim allow sup.
Proof.
  induction pre as [|tc pre IH]; intros tcs trim allow sup Hst Hpre;
    [reflexivity|].
  apply Forall_cons in Hpre. destruct Hpre as [Htc Hpre].
  cbn [app type_capture_loop]. rewrite Hst, Htc, bind_Ok_l.
  apply IH; assumption.
Qed.

(** X11: when every type-capture pattern compiles and none matches, the
    classification is [OTHERS] with the empty type token and no
    breaking-change flag, and the title is the input through the left
    trim, the right trim and the optional capitalization. *)
Theorem X11_type_capture_no_match
    (title trim l r : string) (type_captures : list string) (allow cap : bool)
    (sup : gmap string string) :
  Forall (fun tc => Re.re_match ("^" +:+ tc) title = Ok None) type_captures ->
  process_type_capture title type_captures trim allow l r sup cap
  = (t1 ← Re.re_sub ("^" +:+ l) "" title;
     t2 ← Re.re_sub (r +:+ "$") "" t1;
     Ok {| tco_title := enhance_title t2 cap;
           type_capture := Some EmptyString;
           type_match := OTHERS;
           is_breaking_change := false |}).
Proof.
  intros H. unfold process_type_capture.
  rewrite <- (app_nil_r type_captures).
  rewrite type_capture_loop_skip by (try reflexivity; exact H).
  reflexivity.
Qed.

Lemma X11_witness :
  process_type_capture " bump deps " ["(\w+):"] "\s+" true "\s+" "\s+"
    {[ "feat" := "Features" ]} true
  = (t1 ← Re.re_sub ("^" +:+ "\s+") "" " bump deps ";
     t2 ← Re.re_sub ("\s+" +:+ "$") "" t1;
     Ok {| tco_title := enhance_title t2 true;
           type_capture := Some EmptyString;
           type_match := OTHERS;
           is_breaking_change := false |}).
Proof.
  apply X11_type_capture_no_match.
  apply Forall_cons; split; [vm_compute; reflexivity|].
  apply Forall_nil. exact I.
Defined.

(** X12: a type-capture pattern without a capture group that matches
    makes [process_type_capture] raise [IndexError], at
    [type_capture_match.group(1)]. *)
Theorem X12_type_capture_needs_a_group
    (title trim l r tc : string) (pre rest : list string) (allow cap : bool)
    (sup : gmap string string) (m : Re.Match) :
  Forall (fun p => Re.re_match ("^" +:+ p) title = Ok None) pre ->
  Re.re_match ("^" +:+ tc) title = Ok (Some m) ->
  Re.m_groups m = [] ->
  process_type_capture title (pre ++ tc :: rest) trim allow l r sup cap
  = Raise IndexError.
Proof.
  intros Hpre Htc Hgroups. unfold process_type_capture.
  rewrite type_capture_loop_skip by (try reflexivity; exact Hpre).
  cbn [type_capture_loop tl_already_type_captured tl_title].
  rewrite Htc, bind_Ok_l. unfold Re.group. rewrite Hgroups. reflexivity.
Qed.

Lemma X12_witness :
  process_type_capture "feat: add login" ["\w+:"] "\s+" true "\s+" "\s+"
    {[ "feat" := "Features" ]} true
  = Raise IndexError.
Proof.
  apply (X12_type_capture_needs_a_group "feat: add login" "\s+" "\s+" "\s+"
           "\w+:" [] [] true true {[ "feat" := "Features" ]}
           {| Re.m_start := 0; Re.m_end := 5; Re.m_rest := " add login";
              Re.m_groups := [] |}).
  - apply Forall_nil. exact I.
  - vm_compute. reflexivity.
  - reflexivity.
Defined.

Lemma type_capture_loop_flag tcs :
  forall st trim allow sup st',
    tl_already_type_captured st = false ->
    tl_is_breaking_change st = false ->
    type_capture_loop st tcs trim allow sup = Ok st' ->
    tl_is_breaking_change st' = true ->
    allow = true
    /\ exists tc m, tc ∈ tcs
                    /\ Re.re_match ("^" +:+ tc) (tl_title st) = Ok (Some m)
                    /\ 2 <= length (Re.m_groups m).
Proof.
  induction tcs as [|tc rest IH]; intros st trim allow sup st' Hal Hbr H Hflag;
    cbn [type_capture_loop] in H.
  - injection H as <-. congruence.
  - rewrite Hal in H. inv_bind H as [m|] Hm.
    + inv_bind H as tok Htok. inv_bind H as parts Hparts.
      inv_bind H as t1 Ht1. inv_bind H as t2 Ht2.
      rewrite type_capture_loop_done in H by reflexivity.
      injection H as <-. simpl in Hflag. rewrite Hbr in Hflag.
      destruct allow; [|discriminate Hflag].
      destruct (length (Re.m_groups m)) as [|[|n]] eqn:Hlen;
        try discriminate Hflag.
      split; [reflexivity|]. exists tc, m.
      split; [left|]. split; [exact Hm|]. rewrite Hlen. lia.
    + destruct (IH _ _ _ _ _ Hal Hbr H Hflag) as (Hallow & tc' & m & Hin & Hm' & Hlen).
      split; [exact Hallow|]. exists tc', m. split; [right; exact Hin|]. auto.
Qed.

(** X13: [process_type_capture] flags a breaking change only if its
    boolean parameter is true and a pattern of the list that matches the
    title has at least two groups. *)
Theorem X13_inline_flag_needs_boolean_and_two_groups
    (title trim l r : string) (type_captures : list string) (allow cap : bool)
    (sup : gmap string string) (out : TypeCaptureOutput) :
  process_type_capture title type_captures trim allow l r sup cap = Ok out ->
  is_breaking_change out = true ->
  allow = true
  /\ exists tc m, tc ∈ type_captures
                  /\ Re.re_match ("^" +:+ tc) title = Ok (Some m)
                  /\ 2 <= length (Re.m_groups m).
Proof.
  unfold process_type_capture. intros H Hflag.
  inv_bind H as st Hst. inv_bind H. inv_bind H. injection H as <-.
  simpl in Hflag.
  exact (type_capture_loop_flag type_captures
           {| tl_title := title; tl_type_capture := Some EmptyString;
              tl_already_type_captured := false;
              tl_is_breaking_change := false; tl_type_match := OTHERS |}
           trim allow sup st eq_refl eq_refl Hst Hflag).
Qed.

Lemma X13_witness :
  true = true
  /\ exists tc m, tc ∈ ["(\w+)(!)?:"]
                  /\ Re.re_match ("^" +:+ tc) "feat!: drop the old api"
                     = Ok (Some m)
                  /\ 2 <= length (Re.m_groups m).
Proof.
  apply (X13_inline_flag_needs_boolean_and_two_groups
           "feat!: drop the old api" "\s+" "\s+" "\s+" ["(\w+)(!)?:"] true true
           {[ "feat" := "Features" ]}
           {| tco_title := "Drop the old api"; type_capture := Some "feat";
              type_match := SUPPORTED_TYPE; is_breaking_change := true |}).
  - vm_compute. reflexivity.
  - reflexivity.
Defined.

Lemma breaking_change_scan_None bc trim cap messages :
  breaking_change_scan bc messages trim cap = Ok None <->
  Forall (fun msg => Re.re_match ("^" +:+ bc) msg = Ok None) messages.
Proof.
  induction messages as [|msg rest IH]; cbn [breaking_change_scan].
  - split; [intros _; apply Forall_nil; exact I|reflexivity].
  - rewrite Forall_cons, <- IH. split.
    + intros H. inv_bind H as [m|] Hm.
      * inv_bind H. inv_bind H. inv_bind H. discriminate.
      * auto.
    + intros [-> H]. rewrite bind_Ok_l. exact H.
Qed.

(** X14: [process_breaking_change] returns [None] exactly when every
    pattern compiles and matches no line of the message; in particular it
    does so for an empty pattern list. *)
Theorem X14_no_breaking_change_iff_no_match
    (messages bcs : list string) (trim : string) (cap : bool) :
  process_breaking_change messages bcs trim cap = Ok None <->
  Forall (fun bc =>
            Forall (fun msg => Re.re_match ("^" +:+ bc) msg = Ok None) messages)
         bcs.
Proof.
  induction bcs as [|bc rest IH]; cbn [process_breaking_change].
  - split; [intros _; apply Forall_nil; exact I|reflexivity].
  - rewrite Forall_cons, <- IH, <- (breaking_change_scan_None bc trim cap).
    split.
    + intros H. inv_bind H as [x|] Hx; [discriminate|]. auto.
    + intros [-> H]. rewrite bind_Ok_l. exact H.
Qed.

Lemma X14_witness :
  process_breaking_change ["feat: add login"; ""; "Closes #12"]
    ["BREAKING CHANGE:"] "\s+" true = Ok None.
Proof.
  apply (proj2 (X14_no_breaking_change_iff_no_match _ _ _ _)).
  apply Forall_cons; split; [|apply Forall_nil; exact I].
  repeat (apply Forall_cons; split; [vm_compute; reflexivity|]).
  apply Forall_nil. exact I.
Defined.

(* ===================================================================== *)
(** ** More on the aggregator *)
(* ===================================================================== *)

(** X15: on an aggregator in order, filing the title of a classified
    commit raises nothing, so the lookup [c.supported_types[...]] never
    fails with [KeyError]; a title classified [OTHERS] is appended to the
    others list, and a title of a supported type is appended to the bucket
    of the heading key [supported_types] gives for its type token, the
    bucket being created if the key had none. *)
Theorem X15_title_filed_under_its_heading
    (c : Conf) (mdc : MarkdownContent) (messages : list string) (h : heap)
    (out : TypeCaptureOutput) (title : string) :
  wf_mdc h mdc ->
  commit_title c messages = Ok (out, title) ->
  exists h',
    file_title c mdc out title h = Ok (tt, h')
    /\ wf_mdc h' mdc
    /\ match type_match out with
       | OTHERS =>
           exists os, list_at h (others mdc) = Some os
                      /\ list_at h' (others mdc) = Some (os ++ [title])
       | SUPPORTED_TYPE =>
           exists t hd,
             type_capture out = Some t
             /\ supported_types c !! t = Some hd
             /\ bucket h' mdc hd
                = Some (default [] (bucket h mdc hd) ++ [title])
       end.
Proof.
  intros Hwf Htitle.
  pose proof (commit_title_token _ _ _ _ Htitle) as Htok.
  destruct (file_title_spec c h mdc out title Hwf Htok) as (h' & Hfile & Hwf' & _).
  exists h'. split; [exact Hfile|]. split; [exact Hwf'|].
  destruct Hwf as ((d & Hd & Hb) & [os Ho] & _).
  unfold file_title in Hfile. destruct (type_match out).
  - destruct (Htok eq_refl) as (t & hd & Ht & Hhd). exists t, hd.
    split; [exact Ht|]. split; [exact Hhd|].
    rewrite Ht, Hhd in Hfile. rewrite M_bind_eq in Hfile. unfold lift in Hfile.
    rewrite M_bind_eq, (get_values_ok _ _ _ _ Hd) in Hfile.
    unfold bucket at 2. rewrite Hd. simpl.
    destruct (d !! hd) as [l|] eqn:Hk; simpl.
    + destruct (Hb _ _ Hk) as [xs Hxs]. rewrite Hxs. simpl.
      rewrite (list_append_ok _ _ _ _ Hxs) in Hfile. injection Hfile as <-.
      apply bucket_Some. exists d, l.
      rewrite (dict_at_insert_list _ _ _ _ _ Hxs),
              (list_at_insert _ _ _ _ _ Hxs), decide_True by reflexivity.
      auto.
    + pose proof Hd as Hd'. apply dict_at_Some in Hd'.
      pose proof (lookup_lt_Some _ _ _ Hd') as Hlt.
      unfold list_append in Hfile.
      rewrite list_lookup_insert_ne, lookup_app_r, Nat.sub_diag in Hfile by lia.
      simpl in Hfile. injection Hfile as <-.
      apply bucket_Some. eexists _, (length h). split; [|split].
      * unfold dict_at. rewrite new_bucket_lookup by assumption.
        rewrite decide_False by lia. rewrite decide_True by reflexivity.
        reflexivity.
      * apply lookup_insert_eq.
      * unfold list_at. rewrite new_bucket_lookup by assumption.
        rewrite decide_True by reflexivity. reflexivity.
  - exists os. split; [exact Ho|].
    rewrite (list_append_ok _ _ _ _ Ho) in Hfile. injection Hfile as <-.
    rewrite (list_at_insert _ _ _ _ _ Ho), decide_True by reflexivity.
    reflexivity.
Qed.

Lemma X15_witness :
  exists h',
    file_title (example_conf []) fresh_mdc
      {| tco_title := "Add login"; type_capture := Some "feat";
         type_match := SUPPORTED_TYPE; is_breaking_change := false |}
      "Add login" fresh_heap = Ok (tt, h')
    /\ wf_mdc h' fresh_mdc
    /\ exists t hd,
         Some "feat" = Some t
         /\ supported_types (example_conf []) !! t = Some hd
         /\ bucket h' fresh_mdc hd
            = Some (default [] (bucket fresh_heap fresh_mdc hd) ++ ["Add login"]).
Proof.
  apply (X15_title_filed_under_its_heading (example_conf []) fresh_mdc
           ["feat: add login"] fresh_heap
           {| tco_title := "Add login"; type_capture := Some "feat";
              type_match := SUPPORTED_TYPE; is_breaking_change := false |}
           "Add login" fresh_wf).
  vm_compute. reflexivity.
Defined.

(** X16: on an aggregator in order, [get_values] raises nothing; called
    again with the same heading it returns the same bucket and leaves the
    store as it is; a bucket it creates is empty; and the buckets of the
    other headings are not touched. *)
Theorem X16_get_values_round_trip
    (h : heap) (mdc : MarkdownContent) (heading : string) :
  wf_mdc h mdc ->
  exists l h1,
    get_values mdc heading h = Ok (l, h1)
    /\ get_values mdc heading h1 = Ok (l, h1)
    /\ bucket h1 mdc heading = Some (default [] (bucket h mdc heading))
    /\ forall k, k <> heading -> bucket h1 mdc k = bucket h mdc k.
Proof.
  intros ((d & Hd & Hb) & _ & _).
  rewrite (get_values_ok _ _ _ _ Hd).
  destruct (d !! heading) as [l|] eqn:Hk.
  - exists l, h. rewrite (get_values_ok _ _ _ _ Hd), Hk.
    split; [reflexivity|]. split; [reflexivity|]. split; [|reflexivity].
    unfold bucket. rewrite Hd. simpl. rewrite Hk. simpl.
    destruct (Hb _ _ Hk) as [xs ->]. reflexivity.
  - pose proof Hd as Hd'. apply dict_at_Some in Hd'.
    pose proof (lookup_lt_Some _ _ _ Hd') as Hlt.
    set (h1 := <[values mdc := ODict (<[heading := length h]> d)]>
                 (h ++ [OList []])).
    assert (Hlook : forall l', h1 !! l'
              = if decide (l' = values mdc)
                then Some (ODict (<[heading := length h]> d))
                else (h ++ [OList []]) !! l').
    { intros l'. unfold h1. rewrite list_lookup_insert, length_app. simpl.
      destruct (decide (l' = values mdc)) as [->|Hne].
      - rewrite decide_True by (split; [reflexivity|lia]). reflexivity.
      - rewrite decide_False by (intros [? _]; congruence). reflexivity. }
    assert (Hd1 : dict_at h1 (values mdc) = Some (<[heading := length h]> d)).
    { unfold dict_at. rewrite Hlook, decide_True by reflexivity. reflexivity. }
    exists (length h), h1. split; [reflexivity|].
    split; [rewrite (get_values_ok _ _ _ _ Hd1), lookup_insert_eq; reflexivity|].
    split.
    + unfold bucket at 2. rewrite Hd. simpl. rewrite Hk. simpl.
      apply bucket_Some. eexists _, _. split; [exact Hd1|].
      split; [apply lookup_insert_eq|].
      unfold list_at. rewrite Hlook, decide_False by lia.
      rewrite lookup_app_r, Nat.sub_diag by lia. reflexivity.
    + intros k Hne. unfold bucket. rewrite Hd1, Hd. simpl.
      rewrite lookup_insert_ne by congruence.
      destruct (d !! k) as [l'|] eqn:Hk'; simpl; [|reflexivity].
      destruct (Hb _ _ Hk') as [xs Hxs]. rewrite Hxs.
      apply list_at_Some in Hxs. pose proof (lookup_lt_Some _ _ _ Hxs).
      unfold list_at. rewrite Hlook.
      destruct (decide (l' = values mdc)) as [->|_]; [congruence|].
      rewrite lookup_app_l, Hxs by assumption. reflexivity.
Qed.

Lemma X16_witness :
  exists l h1,
    get_values fresh_mdc "Features" fresh_heap = Ok (l, h1)
    /\ get_values fresh_mdc "Features" h1 = Ok (l, h1)
    /\ bucket h1 fresh_mdc "Features"
       = Some (default [] (bucket fresh_heap fresh_mdc "Features"))
    /\ forall k, k <> "Features" ->
                 bucket h1 fresh_mdc k = bucket fresh_heap fresh_mdc k.
Proof. exact (X16_get_values_round_trip fresh_heap fresh_mdc "Features" fresh_wf). Defined.

Lemma process_commits_keeps c mdc messages :
  forall h h',
    wf_mdc h mdc -> buckets_nonempty h mdc -> breaking_apart h mdc ->
    process_commits c mdc messages h = Ok (tt, h') ->
    wf_mdc h' mdc /\ buckets_nonempty h' mdc /\ breaking_apart h' mdc.
Proof.
  induction messages as [|cm rest IH]; intros h h' Hwf Hne Hap; simpl.
  - intros [= <-]. auto.
  - rewrite M_bind_eq.
    destruct (process_commit c mdc cm h) as [[[] h1]|] eqn:Hcm; [|discriminate].
    destruct (process_commit_inv _ _ _ _ _ Hwf Hcm) as (Hwf1 & Hne1 & Hap1).
    apply IH; auto.
Qed.

(** X17: the commit loop keeps the aggregator in order: started on an
    aggregator whose buckets are all non-empty (the one of a fresh
    interpreter has none), it ends on one, whatever the commits and the
    configuration; so every section of a heading in the document rendered
    after the loop has at least one bullet. *)
Theorem X17_loop_leaves_no_empty_bucket
    (c : Conf) (mdc : MarkdownContent) (messages : list string) (h h' : heap) :
  wf_mdc h mdc -> buckets_nonempty h mdc -> breaking_apart h mdc ->
  process_commits c mdc messages h = Ok (tt, h') ->
  wf_mdc h' mdc /\ buckets_nonempty h' mdc /\ breaking_apart h' mdc
  /\ forall heading pts,
       (heading, pts) ∈ heading_sections (bucket h' mdc) (headings c) ->
       pts <> [].
Proof.
  intros Hwf Hne Hap Hloop.
  destruct (process_commits_keeps _ _ _ _ _ Hwf Hne Hap Hloop)
    as (Hwf' & Hne' & Hap').
  split; [exact Hwf'|]. split; [exact Hne'|]. split; [exact Hap'|].
  intros heading pts Hin. unfold heading_sections in Hin.
  apply list_elem_of_omap in Hin. destruct Hin as ([k hd] & _ & Hk).
  destruct (bucket h' mdc k) as [pts'|] eqn:Hb; [|discriminate].
  injection Hk as <- <-. eapply Hne'. eassumption.
Qed.

Lemma X17_witness :
  wf_mdc (<[1 := OList ["Bump deps"]]> fresh_heap) fresh_mdc
  /\ buckets_nonempty (<[1 := OList ["Bump deps"]]> fresh_heap) fresh_mdc
  /\ breaking_apart (<[1 := OList ["Bump deps"]]> fresh_heap) fresh_mdc
  /\ forall heading pts,
       (heading, pts)
       ∈ heading_sections
           (bucket (<[1 := OList ["Bump deps"]]> fresh_heap) fresh_mdc)
           (headings (example_conf [("Features", "Features")])) ->
       pts <> [].
Proof.
  apply (X17_loop_leaves_no_empty_bucket
           (example_conf [("Features", "Features")]) fresh_mdc
           ["chore: bump deps"] fresh_heap _
           fresh_wf fresh_buckets_nonempty fresh_breaking_apart).
  vm_compute. reflexivity.
Defined.

(** X18: when the explicit detector finds nothing, or finds a line whose
    processed text is empty, the loop body falls back on the inline flag:
    it appends the title to the breaking-changes list if the classification
    is flagged and the title is not empty, and otherwise leaves the store
    as it is. *)
Theorem X18_inline_flag_without_explicit_text
    (c : Conf) (mdc : MarkdownContent) (messages : list string)
    (out : TypeCaptureOutput) (title : string) (h : heap)
    (r : option string) (bs : list string) :
  process_breaking_change messages (breaking_change_line_captures c)
    (breaking_change_line_captures_after_trim c)
    (capitalize_title_first_char c) = Ok r ->
  truthy_opt r = false ->
  list_at h (breaking_changes mdc) = Some bs ->
  file_breaking_change c mdc messages out title h
  = Ok (tt, if is_breaking_change out && truthy title
            then <[breaking_changes mdc := OList (bs ++ [title])]> h
            else h).
Proof.
  intros Hr Hfalsy Hbs. unfold file_breaking_change.
  rewrite M_bind_eq, Hr. simpl. rewrite Hfalsy.
  destruct (is_breaking_change out); [|reflexivity]. simpl.
  destruct (truthy title); [|reflexivity].
  apply list_append_ok. exact Hbs.
Qed.

Lemma X18_witness :
  file_breaking_change bang_conf fresh_mdc ["feat!: drop the old api"]
    {| tco_title := "Drop the old api"; type_capture := Some "feat";
       type_match := SUPPORTED_TYPE; is_breaking_change := true |}
    "Drop the old api" fresh_heap
  = Ok (tt, if true && truthy "Drop the old api"
            then <[breaking_changes fresh_mdc
                   := OList ([] ++ ["Drop the old api"])]> fresh_heap
            else fresh_heap).
Proof.
  apply (X18_inline_flag_without_explicit_text bang_conf fresh_mdc
           ["feat!: drop the old api"]
           {| tco_title := "Drop the old api"; type_capture := Some "feat";
              type_match := SUPPORTED_TYPE; is_breaking_change := true |}
           "Drop the old api" fresh_heap None []).
  - vm_compute. reflexivity.
  - reflexivity.
  - reflexivity.
Defined.

Lemma process_commit_breaking c mdc message h h' bs :
  wf_mdc h mdc -> breaking_apart h mdc ->
  list_at h (breaking_changes mdc) = Some bs ->
  process_commit c mdc message h = Ok (tt, h') ->
  list_at h' (breaking_changes mdc)
  = Some (bs ++ option_list (breaking_entry c message)).
Proof.
  intros Hwf Hap Hbs. unfold process_commit, breaking_entry.
  rewrite M_bind_eq. unfold lift.
  destruct (commit_title c (split_char LF message)) as [[out title]|]
    eqn:Htitle; [|discriminate].
  destruct (file_title_spec c h mdc out title Hwf
              (commit_title_token _ _ _ _ Htitle))
    as (h1 & Hfile & _ & _ & Hap1).
  destruct (Hap1 Hap) as [_ Hsame]. rewrite Hbs in Hsame.
  rewrite M_bind_eq, Hfile. unfold file_breaking_change.
  rewrite M_bind_eq. unfold lift.
  destruct (process_breaking_change _ _ _ _) as [r|]; [|discriminate].
  cbv zeta.
  destruct (if truthy_opt r then r
            else if is_breaking_change out then Some title else None)
    as [t|].
  - destruct (truthy t).
    + rewrite (list_append_ok _ _ _ _ Hsame). intros [= <-].
      rewrite (list_at_insert _ _ _ _ _ Hsame), decide_True by reflexivity.
      reflexivity.
    + intros [= <-]. rewrite Hsame, app_nil_r. reflexivity.
  - intros [= <-]. rewrite Hsame, app_nil_r. reflexivity.
Qed.

(** X19: after the commit loop the breaking-changes list is what it was
    followed, in traversal order, by one entry for each commit that has
    one: the explicit text when truthy, else the title of a flagged
    commit. *)
Theorem X19_breaking_changes_in_traversal_order
    (c : Conf) (mdc : MarkdownContent) (messages : list string)
    (h h' : heap) (bs : list string) :
  wf_mdc h mdc -> breaking_apart h mdc ->
  list_at h (breaking_changes mdc) = Some bs ->
  process_commits c mdc messages h = Ok (tt, h') ->
  list_at h' (breaking_changes mdc)
  = Some (bs ++ omap (breaking_entry c) messages).
Proof.
  revert h bs.
  induction messages as [|cm rest IH]; intros h bs Hwf Hap Hbs; simpl.
  - intros [= <-]. rewrite app_nil_r. exact Hbs.
  - rewrite M_bind_eq.
    destruct (process_commit c mdc cm h) as [[[] h1]|] eqn:Hcm; [|discriminate].
    destruct (process_commit_inv _ _ _ _ _ Hwf Hcm) as (Hwf1 & _ & Hap1).
    pose proof (process_commit_breaking _ _ _ _ _ _ Hwf Hap Hbs Hcm) as Hbs1.
    intros Hrest. rewrite (IH _ _ Hwf1 (Hap1 Hap) Hbs1 Hrest).
    rewrite <- app_assoc. do 2 f_equal.
    destruct (breaking_entry c cm); reflexivity.
Qed.

Lemma X19_witness :
  list_at
    (<[2 := OList ["Old api removed"]]>
       (<[3 := OList ["Drop the old api"]]>
          (<[0 := ODict {[ "Features" := 3 ]}]> (fresh_heap ++ [OList []]))))
    (breaking_changes fresh_mdc)
  = Some ([] ++ omap (breaking_entry bang_conf) [bang_message]).
Proof.
  apply (X19_breaking_changes_in_traversal_order bang_conf fresh_mdc
           [bang_message] fresh_heap _ []
           fresh_wf fresh_breaking_apart eq_refl).
  vm_compute. reflexivity.
Defined.

Lemma fresh_others_apart : others_apart fresh_heap fresh_mdc.
Proof.
  split; [discriminate|]. intros d k Hd. injection Hd as <-.
  rewrite lookup_empty. discriminate.
Qed.

Lemma others_apart_append h mdc l xs x :
  list_at h l = Some xs ->
  others_apart h mdc ->
  others_apart (<[l := OList (xs ++ [x])]> h) mdc.
Proof.
  intros Hl [Ho Hb]. split; [exact Ho|].
  intros d k Hd. rewrite (dict_at_insert_list _ _ _ _ _ Hl) in Hd. eauto.
Qed.

(** [file_title] on an aggregator whose others list is an object of its
    own: the others list receives the title of a commit classified
    [OTHERS] and nothing else. *)
Lemma file_title_others c h mdc out title os :
  wf_mdc h mdc -> others_apart h mdc ->
  token_known (supported_types c) (type_capture out) (type_match out) ->
  list_at h (others mdc) = Some os ->
  exists h',
    file_title c mdc out title h = Ok (tt, h')
    /\ wf_mdc h' mdc
    /\ others_apart h' mdc
    /\ list_at h' (others mdc)
       = Some (os ++ match type_match out with
                     | OTHERS => [title]
                     | SUPPORTED_TYPE => []
                     end).
Proof.
  intros Hwf Hap Htok Ho.
  destruct (file_title_spec c h mdc out title Hwf Htok) as (h' & Hfile & Hwf' & _).
  exists h'. split; [exact Hfile|]. split; [exact Hwf'|].
  destruct Hwf as ((d & Hd & Hb) & _ & _). destruct Hap as [Hob Hnb].
  unfold file_title in Hfile. destruct (type_match out).
  - destruct (Htok eq_refl) as (t & hd & Ht & Hhd).
    rewrite Ht, Hhd in Hfile. rewrite M_bind_eq in Hfile. unfold lift in Hfile.
    rewrite M_bind_eq, (get_values_ok _ _ _ _ Hd) in Hfile.
    rewrite app_nil_r.
    destruct (d !! hd) as [l|] eqn:Hk.
    + destruct (Hb _ _ Hk) as [xs Hxs].
      rewrite (list_append_ok _ _ _ _ Hxs) in Hfile. injection Hfile as <-.
      split; [apply others_apart_append; [exact Hxs|split; assumption]|].
      rewrite (list_at_insert _ _ _ _ _ Hxs).
      rewrite decide_False; [exact Ho|].
      intros ->. apply (Hnb d hd Hd). exact Hk.
    + pose proof Hd as Hd'. apply dict_at_Some in Hd'.
      pose proof (lookup_lt_Some _ _ _ Hd') as Hlt.
      pose proof Ho as Ho'. apply list_at_Some in Ho'.
      pose proof (lookup_lt_Some _ _ _ Ho') as Hlto.
      unfold list_append in Hfile.
      rewrite list_lookup_insert_ne, lookup_app_r, Nat.sub_diag in Hfile by lia.
      simpl in Hfile. injection Hfile as <-. split.
      * split; [exact Hob|]. intros d' k. unfold dict_at.
        rewrite new_bucket_lookup by assumption.
        rewrite decide_False by lia. rewrite decide_True by reflexivity.
        intros [= <-]. rewrite lookup_insert.
        destruct (decide (hd = k)); [intros [= Heq]; lia|].
        apply (Hnb d k Hd).
      * unfold list_at. rewrite new_bucket_lookup by assumption.
        rewrite decide_False by lia.
        destruct (decide (others mdc = values mdc)) as [Heq|_];
          [rewrite Heq in Ho'; congruence|].
        rewrite Ho'. reflexivity.
  - rewrite (list_append_ok _ _ _ _ Ho) in Hfile. injection Hfile as <-.
    split; [apply others_apart_append; [exact Ho|split; assumption]|].
    rewrite (list_at_insert _ _ _ _ _ Ho), decide_True by reflexivity.
    reflexivity.
Qed.

Lemma process_commit_others c mdc message h h' os :
  wf_mdc h mdc -> others_apart h mdc ->
  list_at h (others mdc) = Some os ->
  process_commit c mdc message h = Ok (tt, h') ->
  wf_mdc h' mdc /\ others_apart h' mdc
  /\ list_at h' (others mdc) = Some (os ++ option_list (others_entry c message)).
Proof.
  intros Hwf Hap Ho. unfold process_commit, others_entry.
  rewrite M_bind_eq. unfold lift.
  destruct (commit_title c (split_char LF message)) as [[out title]|]
    eqn:Htitle; [|discriminate].
  destruct (file_title_others c h mdc out title os Hwf Hap
              (commit_title_token _ _ _ _ Htitle) Ho)
    as (h1 & Hfile & Hwf1 & Hap1 & Ho1).
  rewrite M_bind_eq, Hfile. intros Hfbc.
  assert (Hentry : match type_match out with
                   | OTHERS => [title]
                   | SUPPORTED_TYPE => []
                   end
                   = option_list match type_match out with
                                 | OTHERS => Some title
                                 | SUPPORTED_TYPE => None
                                 end)
    by (destruct (type_match out); reflexivity).
  rewrite Hentry in Ho1.
  destruct Hwf1 as (Hd1 & Hol1 & [bs Hbs]).
  assert (Hwf1 : wf_mdc h1 mdc) by (split; [|split]; eauto).
  destruct (process_breaking_change (split_char LF message)
              (breaking_change_line_captures c)
              (breaking_change_line_captures_after_trim c)
              (capitalize_title_first_char c)) as [r|] eqn:Hr.
  - destruct (file_breaking_change_cases c mdc _ out title h1 r bs Hr Hbs)
      as [Heq|[t Heq]]; rewrite Heq in Hfbc; injection Hfbc as <-.
    + auto.
    + split; [apply wf_mdc_append; assumption|].
      split; [apply others_apart_append; assumption|].
      rewrite (list_at_insert _ _ _ _ _ Hbs).
      rewrite decide_False; [exact Ho1|].
      destruct Hap1 as [Hne _]. congruence.
  - unfold file_breaking_change in Hfbc. rewrite M_bind_eq, Hr in Hfbc.
    discriminate.
Qed.

(** X20: after the commit loop the others list is what it was followed,
    in traversal order, by the titles of the commits classified [OTHERS],
    and by nothing else. *)
Theorem X20_others_in_traversal_order
    (c : Conf) (mdc : MarkdownContent) (messages : list string)
    (h h' : heap) (os : list string) :
  wf_mdc h mdc -> others_apart h mdc ->
  list_at h (others mdc) = Some os ->
  process_commits c mdc messages h = Ok (tt, h') ->
  list_at h' (others mdc) = Some (os ++ omap (others_entry c) messages).
Proof.
  revert h os.
  induction messages as [|cm rest IH]; intros h os Hwf Hap Ho; simpl.
  - intros [= <-]. rewrite app_nil_r. exact Ho.
  - rewrite M_bind_eq.
    destruct (process_commit c mdc cm h) as [[[] h1]|] eqn:Hcm; [|discriminate].
    destruct (process_commit_others _ _ _ _ _ _ Hwf Hap Ho Hcm)
      as (Hwf1 & Hap1 & Ho1).
    intros Hrest. rewrite (IH _ _ Hwf1 Hap1 Ho1 Hrest).
    rewrite <- app_assoc. do 2 f_equal.
    destruct (others_entry c cm); reflexivity.
Qed.

Lemma X20_witness :
  list_at
    (<[1 := OList ["Bump deps"; "Tidy up"]]> fresh_heap)
    (others fresh_mdc)
  = Some ([] ++ omap (others_entry (example_conf []))
                  ["chore: bump deps"; "chore: tidy up"]).
Proof.
  apply (X20_others_in_traversal_order (example_conf []) fresh_mdc
           ["chore: bump deps"; "chore: tidy up"] fresh_heap _ []
           fresh_wf fresh_others_apart eq_refl).
  vm_compute. reflexivity.
Defined.

(* ===================================================================== *)
(** ** The whitespace trims *)
(* ===================================================================== *)

Section space_loop.

Import Re.

(** The body of the loop: a matcher that takes one [\s] character. *)
Context (body : matcher)
        (Hbody : forall s pos c k, body s pos c k = one_char is_space s pos c k).

(** The greedy loop over [\s], followed by nothing, takes the whole
    leading run of whitespace. *)
Lemma star_space_accept s :
  forall fuel pos c,
    String.length s < fuel ->
    exists e, pos <= e
              /\ star_loop body true fuel s pos c accept
                 = Some (e, lstrip s, c).
Proof.
  induction s as [|x s IH]; intros fuel pos c Hfuel;
    (destruct fuel as [|f]; [simpl in Hfuel; lia|]);
    cbn [star_loop]; rewrite Hbody; cbn [one_char lstrip].
  - exists pos. split; [lia|reflexivity].
  - destruct (is_space x).
    + rewrite (proj2 (Nat.eqb_neq (S pos) pos)) by lia.
      destruct (IH f (S pos) c) as (e & He & ->); [simpl in Hfuel; lia|].
      exists e. split; [lia|reflexivity].
    + exists pos. split; [lia|reflexivity].
Qed.

(** The greedy loop over [\s], followed by [$], succeeds exactly on a
    subject that is whitespace to its end. *)
Lemma star_space_at_end s :
  forall fuel pos c,
    String.length s < fuel ->
    star_loop body true fuel s pos c at_end
    = if Semver.all_str is_space s
      then Some (pos + String.length s, EmptyString, c) else None.
Proof.
  induction s as [|x s IH]; intros fuel pos c Hfuel;
    (destruct fuel as [|f]; [simpl in Hfuel; lia|]);
    cbn [star_loop]; rewrite Hbody; cbn [one_char Semver.all_str].
  - simpl. rewrite Nat.add_0_r. reflexivity.
  - destruct (is_space x) eqn:Hx; cbn [andb].
    + rewrite (proj2 (Nat.eqb_neq (S pos) pos)) by lia.
      rewrite IH by (simpl in Hfuel; lia).
      destruct (Semver.all_str is_space s) eqn:Hs.
      * simpl. do 3 f_equal. lia.
      * simpl. unfold at_end. cbn [rmatch].
        destruct s as [|y s']; [discriminate|]. reflexivity.
    + simpl. unfold at_end. cbn [rmatch].
      destruct s as [|y s']; [|reflexivity].
      destruct (Ascii.eqb_spec x LF) as [->|_]; [discriminate|reflexivity].
Qed.

End space_loop.

Section trims.

Import Re.

Lemma space_body s pos c k :
  rmatch (Cls false CSpace) s pos c k = one_char is_space s pos c k.
Proof. reflexivity. Qed.

(** [re.sub(r"^\s+", "", s)] removes the leading whitespace of [s]. *)
Lemma re_sub_lstrip s : re_sub "^\s+" "" s = Ok (lstrip s).
Proof.
  unfold re_sub.
  change (compile "^\s+")
    with (Ok {| p_re := Seq Bol (Plus true (Cls false CSpace));
                p_groups := 0 |}).
  rewrite bind_Ok_l. cbn [p_groups compile_template]. rewrite bind_Ok_l.
  f_equal. destruct s as [|x r]; [reflexivity|].
  change (2 * String.length (String x r) + 2)
    with (S (String.length r + S (String.length r + 0) + 2)).
  cbn [sub_loop search_from].
  change (match_at _ (String x r) 0 false)
    with (match
            (if is_space x
             then star_loop (rmatch (Cls false CSpace)) true
                    (S (String.length r)) r 1 [] accept
             else None)
          with
          | Some (e, rest, c) =>
              Some {| m_start := 0; m_end := e; m_rest := rest; m_groups := c |}
          | None => None
          end).
  cbn [lstrip]. destruct (is_space x).
  - destruct (star_space_accept _ space_body r (S (String.length r)) 1 [])
      as (e & He & ->); [lia|].
    cbn [m_groups m_rest m_end m_start expand].
    rewrite sub_loop_bol by lia. reflexivity.
  - rewrite search_from_bol by lia. reflexivity.
Qed.

Lemma match_at_right_trim s pos :
  match_at {| p_re := Seq (Plus true (Cls false CSpace)) Eol; p_groups := 0 |}
    s pos false
  = if truthy s && Semver.all_str is_space s
    then Some {| m_start := pos; m_end := S pos + (String.length s - 1);
                 m_rest := EmptyString; m_groups := [] |}
    else None.
Proof.
  destruct s as [|x r]; [reflexivity|].
  change (match_at _ (String x r) pos false)
    with (match
            (if is_space x
             then star_loop (rmatch (Cls false CSpace)) true
                    (S (String.length r)) r (S pos) [] at_end
             else None)
          with
          | Some (e, rest, c) =>
              Some {| m_start := pos; m_end := e; m_rest := rest;
                      m_groups := c |}
          | None => None
          end).
  cbn [truthy Semver.all_str andb].
  destruct (is_space x); [|reflexivity].
  rewrite (star_space_at_end _ space_body) by lia. simpl.
  destruct (Semver.all_str is_space r); [|reflexivity].
  rewrite Nat.sub_0_r. reflexivity.
Qed.

Lemma search_from_right_trim s :
  forall pos,
    (search_from
       {| p_re := Seq (Plus true (Cls false CSpace)) Eol; p_groups := 0 |}
       s pos false = None /\ rstrip s = s)
    \/ exists m,
         search_from
           {| p_re := Seq (Plus true (Cls false CSpace)) Eol; p_groups := 0 |}
           s pos false = Some (rstrip s, m)
         /\ m_rest m = EmptyString /\ m_groups m = []
         /\ (m_end m =? m_start m)%nat = false.
Proof.
  induction s as [|x r IH]; intros pos; cbn [search_from];
    rewrite match_at_right_trim.
  - left. auto.
  - cbn [truthy andb rstrip].
    destruct (Semver.all_str is_space (String x r)).
    + right. eexists. split; [reflexivity|].
      cbn [m_rest m_groups m_end m_start].
      split; [reflexivity|]. split; [reflexivity|].
      apply Nat.eqb_neq. lia.
    + destruct (IH (S pos)) as [[-> ->]|(m & -> & H)].
      * left. auto.
      * right. exists m. auto.
Qed.

(** [re.sub(r"\s+$", "", s)] removes the trailing whitespace of [s]. *)
Lemma re_sub_rstrip s : re_sub "\s+$" "" s = Ok (rstrip s).
Proof.
  unfold re_sub.
  change (compile "\s+$")
    with (Ok {| p_re := Seq (Plus true (Cls false CSpace)) Eol;
                p_groups := 0 |}).
  rewrite bind_Ok_l. cbn [p_groups compile_template]. rewrite bind_Ok_l.
  f_equal.
  replace (2 * String.length s + 2)
    with (S (S (2 * String.length s))) by lia.
  cbn [sub_loop].
  destruct (search_from_right_trim s 0) as [[-> ->]|(m & -> & Hrest & Hg & Hadv)];
    [reflexivity|].
  rewrite Hrest, Hg, Hadv. cbn [expand search_from].
  rewrite match_at_right_trim. simpl. apply append_nil_r.
Qed.

End trims.

(* ===================================================================== *)
(** ** The default configuration *)
(* ===================================================================== *)

Lemma split_char_cons sep s :
  exists first rest, split_char sep s = first :: rest.
Proof.
  induction s as [|c s IH]; simpl; [eauto|].
  destruct (Ascii.eqb c sep); [eauto|].
  destruct (split_char sep s); eauto.
Qed.

Lemma subject_of_split message :
  exists rest, split_char LF message = subject_of message :: rest.
Proof.
  unfold subject_of.
  destruct (split_char_cons LF message) as (first & rest & ->).
  exists rest. reflexivity.
Qed.

Lemma commit_title_default (message : string) :
  commit_title Conf_default (split_char LF message)
  = Ok ({| tco_title := default_title (subject_of message);
           type_capture := Some EmptyString;
           type_match := OTHERS;
           is_breaking_change := false |},
        default_title (subject_of message)).
Proof.
  destruct (subject_of_split message) as [rest ->].
  unfold commit_title, classify, process_pre_capture, process_type_capture.
  cbn [lookup list_lookup fmap option_fmap option_map str_item Conf_default
       preprocessing postprocessing apply_processing pre_captures
       type_captures pre_capture_loop type_capture_loop
       pre_captures_after_trim type_captures_after_trim title_left_trim
       title_right_trim supported_types capitalize_title_first_char
       breaking_change_line_captures_after_trim tl_title tl_type_capture
       tl_already_type_captured tl_is_breaking_change tl_type_match negb].
  rewrite !bind_Ok_l.
  change ("^" +:+ "\s+") with "^\s+". change ("\s+" +:+ "$") with "\s+$".
  cbn [tl_title].
  rewrite re_sub_lstrip, bind_Ok_l, re_sub_rstrip, bind_Ok_l.
  reflexivity.
Qed.


(** X21: under the default configuration (the one [main] uses when no
    file is found) the title stage raises nothing, for every message whose
    first line is ASCII text: the commit is classified [OTHERS] with the
    empty type token and no breaking-change flag, and its title is the
    first line of the message without leading and trailing whitespace,
    through [str.capitalize]. *)
Theorem X21_default_title (message : string) :
  isascii (subject_of message) = true ->
  commit_title Conf_default (split_char LF message)
  = Ok ({| tco_title := default_title (subject_of message);
           type_capture := Some EmptyString;
           type_match := OTHERS;
           is_breaking_change := false |},
        default_title (subject_of message)).
Proof. intros _. apply commit_title_default. Qed.

Lemma X21_witness :
  commit_title Conf_default
    (split_char LF ("  fix the API  " +:+ nl +:+ nl +:+ "BREAKING CHANGE: x"))
  = Ok ({| tco_title := "Fix the api";
           type_capture := Some EmptyString;
           type_match := OTHERS;
           is_breaking_change := false |},
        "Fix the api").
Proof.
  apply (X21_default_title
           ("  fix the API  " +:+ nl +:+ nl +:+ "BREAKING CHANGE: x")).
  vm_compute. reflexivity.
Defined.

Lemma process_commit_default mdc message h os :
  list_at h (others mdc) = Some os ->
  process_commit Conf_default mdc message h
  = Ok (tt, <[others mdc
              := OList (os ++ [default_title (subject_of message)])]> h).
Proof.
  intros Ho. unfold process_commit.
  rewrite M_bind_eq. unfold lift. rewrite commit_title_default.
  unfold file_title. cbn [type_match].
  rewrite M_bind_eq, (list_append_ok _ _ _ _ Ho).
  reflexivity.
Qed.

Lemma process_commits_default mdc messages :
  forall h os,
    list_at h (others mdc) = Some os ->
    process_commits Conf_default mdc messages h
    = Ok (tt, <[others mdc
                := OList (os ++ map (fun m => default_title (subject_of m))
                                  messages)]> h).
Proof.
  induction messages as [|cm rest IH]; intros h os Ho; simpl.
  - rewrite app_nil_r, list_insert_id; [reflexivity|].
    apply list_at_Some. exact Ho.
  - rewrite M_bind_eq, (process_commit_default _ _ _ _ Ho).
    rewrite (IH _ (os ++ [default_title (subject_of cm)])).
    + rewrite list_insert_insert_eq, <- app_assoc. reflexivity.
    + rewrite (list_at_insert _ _ _ _ _ Ho), decide_True by reflexivity.
      reflexivity.
Qed.

(** X22: a run from a fresh interpreter under the default configuration,
    on a release title and tag names of printable ASCII characters and of at
    most 4300 characters and on commits whose subjects are ASCII text,
    raises nothing once the range is resolved and the repository has
    yielded its commits: the document is the title line followed, if there
    is any commit, by the one section "Others" with a bullet for each
    commit in traversal order, the bullet being the subject without
    surrounding whitespace and through [str.capitalize]; there is no other
    section. *)
Theorem X22_default_configuration_run
    (args : Args) (conf_found : bool) (r : Repo)
    (range : string) (warn : list string) (messages : list string) :
  name_ok (title args) = true ->
  Forall (fun t => name_ok t = true) (repo_tags r) ->
  Forall (fun m => isascii (subject_of m) = true) messages ->
  process_commits_str (commits args) (title args) (repo_tags r)
  = Ok (range, warn) ->
  iter_commits r range = Ok messages ->
  run args conf_found Conf_default r
  = Ok (document (title args) [] "Others"
          (map (fun m => default_title (subject_of m)) messages)
          "BREAKING CHANGES" [],
        (if conf_found then []
         else [print_color WARNING
                 ("Missing '" +:+ conf args
                  +:+ "' config file, using default values...")])
        ++ warn).
Proof.
  intros _ _ _ Hrange Hcommits. unfold run.
  rewrite M_bind_eq, fresh_define. unfold main.
  rewrite M_bind_eq. unfold lift at 1. rewrite Hrange.
  rewrite M_bind_eq. unfold lift at 1. rewrite Hcommits.
  rewrite M_bind_eq, fresh_init.
  rewrite M_bind_eq, (process_commits_default fresh_mdc messages fresh_heap [])
    by reflexivity.
  rewrite M_bind_eq.
  cbn [headings others_heading breaking_changes_heading Conf_default].
  rewrite (process_markdown_ok _ fresh_mdc (title args) [] "Others"
             "BREAKING CHANGES"
             (map (fun m => default_title (subject_of m)) messages) []).
  - reflexivity.
  - split; [|split]; [|eexists; reflexivity..].
    exists ∅. split; [reflexivity|]. intros k l Hk.
    rewrite lookup_empty in Hk. discriminate.
  - reflexivity.
  - reflexivity.
Qed.

Lemma X22_witness :
  run (example_args "v1.0.0") false Conf_default
      (repo_of ["  fix the API  "; "chore: bump deps"])
  = Ok (document "v1.0.0" [] "Others"
          (map (fun m => default_title (subject_of m))
             ["  fix the API  "; "chore: bump deps"])
          "BREAKING CHANGES" [],
        [print_color WARNING
           ("Missing '" +:+ conf (example_args "v1.0.0")
            +:+ "' config file, using default values...")]
        ++ []).
Proof.
  apply (X22_default_configuration_run (example_args "v1.0.0") false
           (repo_of ["  fix the API  "; "chore: bump deps"]) "HEAD" []
           ["  fix the API  "; "chore: bump deps"]).
  - vm_compute. reflexivity.
  - apply Forall_nil. exact I.
  - repeat (apply Forall_cons; split; [vm_compute; reflexivity|]).
    apply Forall_nil. exact I.
  - reflexivity.
  - reflexivity.
Defined.

(* ===================================================================== *)
(** ** Trimmed titles *)
(* ===================================================================== *)

Lemma upper_char_space c : is_space (upper_char c) = is_space c.
Proof. destruct c as [[] [] [] [] [] [] [] []]; reflexivity. Qed.

Lemma lower_char_space c : is_space (lower_char c) = is_space c.
Proof. destruct c as [[] [] [] [] [] [] [] []]; reflexivity. Qed.

Lemma all_space_lower s :
  Semver.all_str is_space (lower s) = Semver.all_str is_space s.
Proof.
  induction s as [|c s IH]; simpl; [reflexivity|].
  rewrite lower_char_space, IH. reflexivity.
Qed.

Lemma rstrip_lower s : rstrip (lower s) = lower (rstrip s).
Proof.
  induction s as [|c s IH]; [reflexivity|].
  cbn [lower rstrip]. cbn [Semver.all_str].
  rewrite lower_char_space, all_space_lower, IH.
  destruct (is_space c && Semver.all_str is_space s); reflexivity.
Qed.

(** [str.capitalize] does not move the end of the trailing whitespace. *)
Lemma rstrip_capitalize s : rstrip (capitalize s) = capitalize (rstrip s).
Proof.
  destruct s as [|c s]; [reflexivity|].
  cbn [capitalize rstrip]. cbn [Semver.all_str].
  rewrite upper_char_space, all_space_lower, rstrip_lower.
  destruct (is_space c && Semver.all_str is_space s); reflexivity.
Qed.

Lemma all_space_rstrip s :
  Semver.all_str is_space s = false ->
  Semver.all_str is_space (rstrip s) = false.
Proof.
  induction s as [|c s IH]; [discriminate|].
  intros H. cbn [rstrip]. rewrite H. cbn [Semver.all_str] in *.
  destruct (is_space c); [|reflexivity]. simpl in *. apply IH. exact H.
Qed.

Lemma rstrip_idem s : rstrip (rstrip s) = rstrip s.
Proof.
  induction s as [|c s IH]; [reflexivity|].
  cbn [rstrip]. destruct (Semver.all_str is_space (String c s)) eqn:H;
    [reflexivity|].
  cbn [rstrip]. rewrite IH.
  assert (Semver.all_str is_space (String c (rstrip s)) = false) as ->;
    [|reflexivity].
  cbn [Semver.all_str] in *. destruct (is_space c); [|reflexivity].
  simpl in *. apply all_space_rstrip. exact H.
Qed.

Lemma lstrip_head s : head_ok (lstrip s).
Proof.
  induction s as [|c s IH]; simpl; [exact I|].
  destruct (is_space c) eqn:Hc; [exact IH|exact Hc].
Qed.

Lemma head_ok_lstrip s : head_ok s -> lstrip s = s.
Proof. destruct s as [|c s]; simpl; [reflexivity|]. intros ->. reflexivity. Qed.

Lemma head_ok_rstrip s : head_ok s -> head_ok (rstrip s).
Proof.
  destruct s as [|c s]; [intros _; exact I|]. intros Hc. simpl in Hc.
  cbn [rstrip Semver.all_str]. rewrite Hc. exact Hc.
Qed.

Lemma head_ok_capitalize s : head_ok s -> head_ok (capitalize s).
Proof.
  destruct s as [|c s]; [intros _; exact I|]. simpl.
  rewrite upper_char_space. auto.
Qed.

(** X23: with the default title trims ([\s+] on both sides), whatever
    the type-capture patterns and the other settings, the title of every
    classification [process_type_capture] returns has no leading and no
    trailing whitespace. *)
Theorem X23_titles_are_trimmed
    (title trim : string) (type_captures : list string) (allow cap : bool)
    (sup : gmap string string) (out : TypeCaptureOutput) :
  process_type_capture title type_captures trim allow "\s+" "\s+" sup cap
  = Ok out ->
  lstrip (tco_title out) = tco_title out
  /\ rstrip (tco_title out) = tco_title out.
Proof.
  unfold process_type_capture. intros H.
  inv_bind H as st Hst.
  change ("^" +:+ "\s+") with "^\s+" in H.
  change ("\s+" +:+ "$") with "\s+$" in H.
  rewrite re_sub_lstrip, bind_Ok_l, re_sub_rstrip, bind_Ok_l in H.
  injection H as <-. cbn [tco_title]. unfold enhance_title.
  pose proof (head_ok_rstrip _ (lstrip_head (tl_title st))) as Hhead.
  destruct cap.
  - split.
    + apply head_ok_lstrip, head_ok_capitalize, Hhead.
    + rewrite rstrip_capitalize, rstrip_idem. reflexivity.
  - split; [apply head_ok_lstrip, Hhead|apply rstrip_idem].
Qed.

Lemma X23_witness :
  lstrip "Add login" = "Add login" /\ rstrip "Add login" = "Add login".
Proof.
  apply (X23_titles_are_trimmed "feat:   add login  " "\s+" ["(\w+):"] true true
           {[ "feat" := "Features" ]}
           {| tco_title := "Add login"; type_capture := Some "feat";
              type_match := SUPPORTED_TYPE; is_breaking_change := false |}).
  vm_compute. reflexivity.
Defined.

(* ===================================================================== *)
(** ** The two revisions *)
(* ===================================================================== *)

Lemma Rev0_type_capture_loop tcs :
  forall st trim allow sup cap,
    tl_already_type_captured st = false ->
    Rev0.type_capture_loop st tcs trim allow sup cap
    = (st' ← type_capture_loop st tcs trim allow sup;
       Ok (if tl_already_type_captured st'
           then {| tl_title := enhance_title (tl_title st') cap;
                   tl_type_capture := tl_type_capture st';
                   tl_already_type_captured := true;
                   tl_is_breaking_change := tl_is_breaking_change st';
                   tl_type_match := tl_type_match st' |}
           else st')).
Proof.
  induction tcs as [|tc rest IH]; intros st trim allow sup cap Hal;
    cbn [Rev0.type_capture_loop type_capture_loop].
  - rewrite bind_Ok_l, Hal. reflexivity.
  - rewrite Hal.
    destruct (Re.re_match ("^" +:+ tc) (tl_title st)) as [[m|]|e];
      rewrite ?bind_Ok_l; [| |reflexivity].
    + destruct (Re.group m 1) as [tok|e]; rewrite ?bind_Ok_l; [|reflexivity].
      destruct (Re.re_split ("^" +:+ tc) (tl_title st)) as [parts|e];
        rewrite ?bind_Ok_l; [|reflexivity].
      destruct (str_item (last parts)) as [t1|e]; rewrite ?bind_Ok_l;
        [|reflexivity].
      destruct (Re.re_sub ("^" +:+ trim) "" t1) as [t2|e]; rewrite ?bind_Ok_l;
        [|reflexivity].
      destruct rest; reflexivity.
    + apply IH. exact Hal.
Qed.

(** X24: whenever the current [process_type_capture] returns a
    classification, the one of the earlier revision returns one too, with
    the same type token, the same type match and the same flag; the two
    titles are the capitalization of one text, taken as it is by the
    earlier revision and through the left and right title trims by the
    current one. *)
Theorem X24_revisions_differ_by_title_trims
    (title trim l r : string) (type_captures : list string) (allow cap : bool)
    (sup : gmap string string) (out : TypeCaptureOutput) :
  process_type_capture title type_captures trim allow l r sup cap = Ok out ->
  exists out0 raw t1 t2,
    Rev0.process_type_capture title type_captures trim allow sup cap = Ok out0
    /\ type_capture out0 = type_capture out
    /\ type_match out0 = type_match out
    /\ is_breaking_change out0 = is_breaking_change out
    /\ tco_title out0 = enhance_title raw cap
    /\ Re.re_sub ("^" +:+ l) "" raw = Ok t1
    /\ Re.re_sub (r +:+ "$") "" t1 = Ok t2
    /\ tco_title out = enhance_title t2 cap.
Proof.
  unfold process_type_capture, Rev0.process_type_capture. intros H.
  inv_bind H as st Hst. inv_bind H as t1 Ht1. inv_bind H as t2 Ht2.
  injection H as <-.
  rewrite Rev0_type_capture_loop by reflexivity. rewrite Hst, !bind_Ok_l.
  destruct (tl_already_type_captured st) eqn:Hal;
    cbn [tl_title tl_type_capture tl_already_type_captured
         tl_is_breaking_change tl_type_match negb];
    rewrite ?Hal; cbn [negb];
    eexists _, (tl_title st), t1, t2; (split; [reflexivity|]);
    cbn [tco_title type_capture type_match is_breaking_change];
    repeat split; assumption.
Qed.

Lemma X24_witness :
  exists out0 raw t1 t2,
    Rev0.process_type_capture "feat:  add login " ["(\w+):"] "\s+" true
      {[ "feat" := "Features" ]} true = Ok out0
    /\ type_capture out0 = Some "feat"
    /\ type_match out0 = SUPPORTED_TYPE
    /\ is_breaking_change out0 = false
    /\ tco_title out0 = enhance_title raw true
    /\ Re.re_sub ("^" +:+ "\s+") "" raw = Ok t1
    /\ Re.re_sub ("\s+" +:+ "$") "" t1 = Ok t2
    /\ "Add login" = enhance_title t2 true.
Proof.
  apply (X24_revisions_differ_by_title_trims "feat:  add login " "\s+" "\s+"
           "\s+" ["(\w+):"] true true {[ "feat" := "Features" ]}
           {| tco_title := "Add login"; type_capture := Some "feat";
              type_match := SUPPORTED_TYPE; is_breaking_change := false |}).
  vm_compute. reflexivity.
Defined.

(* ===================================================================== *)
(** ** The order of the breaking-change scan *)
(* ===================================================================== *)

Lemma breaking_change_scan_first bc trim cap before :
  forall line after,
    Forall (fun msg => Re.re_match ("^" +:+ bc) msg = Ok None) before ->
    breaking_change_scan bc (before ++ line :: after) trim cap
    = breaking_change_scan bc [line] trim cap
      ≫= (fun found =>
            match found with
            | Some x => Ok (Some x)
            | None => breaking_change_scan bc after trim cap
            end).
Proof.
  induction before as [|msg before IH]; intros line after Hbefore.
  - cbn [app breaking_change_scan].
    destruct (Re.re_match ("^" +:+ bc) line) as [[m|]|e];
      rewrite ?bind_Ok_l; [| |reflexivity].
    + destruct (Re.re_split ("^" +:+ bc) line) as [parts|e];
        rewrite ?bind_Ok_l; [|reflexivity].
      destruct (str_item (parts !! 1)) as [x|e]; rewrite ?bind_Ok_l;
        [|reflexivity].
      destruct (Re.re_sub ("^" +:+ trim) "" x) as [y|e]; rewrite ?bind_Ok_l;
        reflexivity.
    + reflexivity.
  - apply Forall_cons in Hbefore. destruct Hbefore as [Hmsg Hbefore].
    cbn [app breaking_change_scan]. rewrite Hmsg, bind_Ok_l.
    apply IH. exact Hbefore.
Qed.

(** X25: [process_breaking_change] tries the patterns in list order, each
    over all the lines: when the patterns before [bc] match no line and
    [bc] matches [line] but no line before it, the result is the text of
    [line] processed with [bc], whatever the lines after it and the
    patterns after [bc], which are not even compiled. *)
Theorem X25_first_pattern_then_first_line
    (bc trim line x : string) (cap : bool)
    (pre rest before after : list string) :
  Forall (fun p =>
            Forall (fun msg => Re.re_match ("^" +:+ p) msg = Ok None)
                   (before ++ line :: after)) pre ->
  Forall (fun msg => Re.re_match ("^" +:+ bc) msg = Ok None) before ->
  breaking_change_scan bc [line] trim cap = Ok (Some x) ->
  process_breaking_change (before ++ line :: after) (pre ++ bc :: rest)
    trim cap
  = Ok (Some x).
Proof.
  intros Hpre Hbefore Hline.
  induction pre as [|p pre IH]; cbn [app process_breaking_change].
  - rewrite (breaking_change_scan_first _ _ _ _ _ _ Hbefore), Hline.
    reflexivity.
  - apply Forall_cons in Hpre. destruct Hpre as [Hp Hpre].
    rewrite (proj2 (breaking_change_scan_None p trim cap _) Hp), bind_Ok_l.
    apply IH. exact Hpre.
Qed.

Lemma X25_witness :
  process_breaking_change
    (["feat: new api"; ""] ++ "BREAKING CHANGE: old api removed"
       :: ["BREAKING: second line"])
    (["BREAKING-CHANGE:"] ++ "BREAKING CHANGE:" :: ["BREAKING:"; "(("])
    "\s+" false
  = Ok (Some "old api removed").
Proof.
  apply (X25_first_pattern_then_first_line "BREAKING CHANGE:" "\s+"
           "BREAKING CHANGE: old api removed" "old api removed" false
           ["BREAKING-CHANGE:"] ["BREAKING:"; "(("]
           ["feat: new api"; ""] ["BREAKING: second line"]).
  - apply Forall_cons; split; [|apply Forall_nil; exact I].
    repeat (apply Forall_cons; split; [vm_compute; reflexivity|]).
    apply Forall_nil. exact I.
  - repeat (apply Forall_cons; split; [vm_compute; reflexivity|]).
    apply Forall_nil. exact I.
  - vm_compute. reflexivity.
Defined.
